(** * Kodu: tile catalog, rule/page/brain model, codec and suggestion engine

    A shallow embedding of the [kodu] namespace (tile definitions, the
    [RuleDefn]/[PageDefn]/[BrainDefn] classes with their [toObj]/[FromObj]
    codec, the [Language] suggestion engine and the constraint merge),
    followed by the properties established about it.

    Conventions of the embedding:
    - an optional TypeScript field ([weight?], [constraints?], ...) is an
      [option]; a field holding [undefined] reads as [None];
    - JavaScript numbers that occur here (weights, priorities, indices) are
      integers and are modelled as [Z];
    - the [handling] bag, a JS object used purely as a string-keyed map, is a
      [gmap string HVal]; the catalog partitions, whose key order is observable
      through [Object.keys], are association lists in insertion order;
    - a property read with a computed key on a partition of the catalog
      finds the partition's own entries first and then the members every
      plain object inherits from [Object.prototype]; a slot of a rule
      therefore holds a [TileRef], a tile or such a member, or [undefined];
    - statements that may raise are functions into [Result]. *)

From Stdlib Require Import ZArith String List Sorted DecimalString.
From stdpp Require Import gmap strings list fin_maps.

Set Warnings "-register-all".

Open Scope string_scope.
Open Scope list_scope.
Open Scope Z_scope.

(* ===================================================================== *)
(** ** Exceptions *)
(* ===================================================================== *)

Inductive JsError := TypeError | SyntaxError.

Inductive Result (A : Type) :=
| Ok (a : A)
| Throw (e : JsError).
Arguments Ok {A} a.
Arguments Throw {A} e.

(** [Result] is an exception monad; sequencing uses stdpp's [x ← m; k], and
    [xs.map(f)] with a callback that may raise is stdpp's [mapM] (the first
    exception aborts the traversal). *)
#[global] Instance Result_ret : MRet Result := fun _ a => Ok a.
#[global] Instance Result_bind : MBind Result := fun _ _ k m =>
  match m with
  | Ok a => k a
  | Throw e => Throw e
  end.

#[global] Instance Result_fmap : FMap Result := fun _ _ f m =>
  match m with
  | Ok a => Ok (f a)
  | Throw e => Throw e
  end.

(* ===================================================================== *)
(** ** Tiles and constraints *)
(* ===================================================================== *)

Inductive TileType := SENSOR | FILTER | ACTUATOR | MODIFIER.

Definition TileType_value (t : TileType) : Z :=
  match t with SENSOR => 1 | FILTER => 2 | ACTUATOR => 3 | MODIFIER => 4 end.

(** Values of the [handling] bag: [string | number | boolean]. *)
Inductive HVal :=
| HStr (s : string)
| HNum (n : Z)
| HBool (b : bool).

(** JavaScript truthiness of a [handling] value. *)
Definition HVal_truthy (v : HVal) : bool :=
  match v with
  | HStr s => negb (String.eqb s "")
  | HNum n => negb (n =? 0)
  | HBool b => b
  end.

(** [{ tiles?: string[]; categories?: string[] }] *)
Record TileSel := {
  sel_tiles : option (list string);
  sel_categories : option (list string)
}.

Record Constraints := {
  provides : option (list string);
  requires : option (list string);
  allow : option TileSel;
  disallow : option TileSel;
  handling : option (gmap string HVal)
}.

Inductive Phase := pre | post.

(** [TileDefn] and its four refinements. [phase] is the [SensorDefn] extra,
    [priority] the [FilterDefn]/[ModifierDefn] extra. *)
Record TileDefn := {
  type : TileType;
  tid : string;
  name : string;
  weight : option Z;
  hidden : option bool;
  category : option string;
  constraints : option Constraints;
  phase : option Phase;
  priority : option Z
}.

(** What a slot of a rule holds at run time, when it is not [undefined].
    The declared type says a tile. [FromObj] stores whatever the catalog
    read [tiles.filters[elem]] returns, and a property read on a plain
    object also finds the members every object inherits from
    [Object.prototype] ([constructor], [toString], ...). [Inherited m] is
    the value of [Object.prototype[m]]: a function, or for [__proto__] the
    prototype object itself. It is an object, hence truthy, and has none of
    the properties of a tile. *)
Inductive TileRef :=
| Tile (t : TileDefn)
| Inherited (member : string).

(** [elem.constraints] *)
Definition constraints_of (elem : TileRef) : option Constraints :=
  match elem with
  | Tile t => constraints t
  | Inherited _ => None
  end.

Module RuleCondition.
Definition DEFAULT := "RC0".
Definition HIGH := "RC1".
Definition LOW := "RC2".
Definition HIGH_TO_LOW := "RC3".
Definition LOW_TO_HIGH := "RC4".
End RuleCondition.

(* ===================================================================== *)
(** ** Rules, pages, brains *)
(* ===================================================================== *)

(** A chain ([filters], [modifiers]) is a JS array whose slots may hold
    [undefined] ([None]): [FromObj] stores whatever the catalog lookup
    returns. An anchor that was never assigned is [undefined] too. *)
Record RuleDefn := {
  condition : string;
  sensor : option TileRef;
  filters : list (option TileRef);
  actuator : option TileRef;
  modifiers : list (option TileRef)
}.

Record PageDefn := { rules : list RuleDefn }.

Record BrainDefn := { pages : list PageDefn }.

(** [new RuleDefn()] *)
Definition RuleDefn_new : RuleDefn :=
  {| condition := RuleCondition.DEFAULT;
     sensor := None;
     filters := [];
     actuator := None;
     modifiers := [] |}.

(** [new PageDefn()] *)
Definition PageDefn_new : PageDefn := {| rules := [] |}.

(** [new BrainDefn()]: [[0, 1, 2, 3, 4].map(n => new PageDefn())] *)
Definition BrainDefn_new : BrainDefn :=
  {| pages := map (fun _ : Z => PageDefn_new) [0; 1; 2; 3; 4] |}.

Definition RuleDefn_clone (this : RuleDefn) : RuleDefn :=
  {| condition := condition this;
     sensor := sensor this;
     filters := filters this;
     actuator := actuator this;
     modifiers := modifiers this |}.

(** Truthiness of an object reference that may be [undefined]. *)
Definition present {A} (o : option A) : bool :=
  match o with Some _ => true | None => false end.

Definition RuleDefn_isEmpty (this : RuleDefn) : bool :=
  negb (present (sensor this)) && negb (present (actuator this)).

Definition PageDefn_clone (this : PageDefn) : PageDefn :=
  {| rules := map RuleDefn_clone (rules this) |}.

(** [while (rules.length && rules[rules.length - 1].isEmpty()) rules.pop()],
    run on the reversed list. *)
Fixpoint drop_empty_front (rs : list RuleDefn) : list RuleDefn :=
  match rs with
  | [] => []
  | r :: rs' => if RuleDefn_isEmpty r then drop_empty_front rs' else rs
  end.

Definition PageDefn_trim (this : PageDefn) : PageDefn :=
  {| rules := rev (drop_empty_front (rev (rules this))) |}.

(** [rules.splice(index, 1)] guarded by [0 <= index < rules.length]. *)
Definition PageDefn_deleteRuleAt (this : PageDefn) (index : Z) : PageDefn :=
  if (0 <=? index) && (index <? Z.of_nat (length (rules this)))
  then {| rules := delete (Z.to_nat index) (rules this) |}
  else this.

Definition BrainDefn_clone (this : BrainDefn) : BrainDefn :=
  {| pages := map PageDefn_clone (pages this) |}.

(** [this.pages.map(page => page.trim())]: every page is trimmed in place,
    the array of pages itself is untouched. *)
Definition BrainDefn_trim (this : BrainDefn) : BrainDefn :=
  {| pages := map PageDefn_trim (pages this) |}.

(* ===================================================================== *)
(** ** JavaScript objects and values *)
(* ===================================================================== *)

(** A plain object: its own string-keyed properties in insertion order
    (the order [Object.keys] reports). Keys are unique in an object built
    with [obj_set]. *)
Section Obj.
Context {V : Type}.

(** [o[k]] among the own properties of [o], [None] standing for a miss. *)
Fixpoint obj_get (o : list (string * V)) (k : string) : option V :=
  match o with
  | [] => None
  | (k', v) :: o' => if String.eqb k' k then Some v else obj_get o' k
  end.

(** [o[k] = v]: overwrite in place, or append a new property. *)
Fixpoint obj_set (o : list (string * V)) (k : string) (v : V) : list (string * V) :=
  match o with
  | [] => [(k, v)]
  | (k', v') :: o' =>
      if String.eqb k' k then (k', v) :: o' else (k', v') :: obj_set o' k v
  end.

(** [delete o[k]] *)
Fixpoint obj_delete (o : list (string * V)) (k : string) : list (string * V) :=
  match o with
  | [] => []
  | (k', v) :: o' =>
      if String.eqb k' k then obj_delete o' k else (k', v) :: obj_delete o' k
  end.

Definition Object_keys (o : list (string * V)) : list string := map fst o.

(** An object literal [{ [k1]: v1, [k2]: v2, ... }] is evaluated left to
    right; a repeated key overwrites the earlier value. *)
Definition obj_literal (entries : list (string * V)) : list (string * V) :=
  fold_left (fun o kv => obj_set o (fst kv) (snd kv)) entries [].

(** [Object.keys(o).map(id => o[id])]: every key of [o] resolves, so no
    entry is dropped. *)
Definition Object_values (o : list (string * V)) : list V :=
  omap (obj_get o) (Object_keys o).
End Obj.

(** The structured data the codec reads and writes ([any] in the source).
    Numbers are integers; the decoders treat every number alike, as a value
    that is neither a string nor an array. An object holds data under its
    keys and defines no [toString] of its own: used as a property key, it
    converts through the [toString] it inherits. *)
Inductive JsVal :=
| JUndefined
| JNull
| JBool (b : bool)
| JNum (n : Z)
| JStr (s : string)
| JArr (a : list JsVal)
| JObj (o : list (string * JsVal)).

Definition truthy (v : JsVal) : bool :=
  match v with
  | JUndefined | JNull => false
  | JBool b => b
  | JNum n => negb (n =? 0)
  | JStr s => negb (String.eqb s "")
  | JArr _ | JObj _ => true
  end.


Definition Array_isArray (v : JsVal) : bool :=
  match v with JArr _ => true | _ => false end.

(** The property names the codec uses. *)
Inductive Key := kC | kS | kA | kF | kM | kR | kP.

Definition key_name (k : Key) : string :=
  match k with
  | kC => "C" | kS => "S" | kA => "A" | kF => "F" | kM => "M"
  | kR => "R" | kP => "P"
  end.

(** [obj[k]] for one of the codec's keys: a [TypeError] on [undefined] and
    [null], the own property of an object, and [undefined] on everything
    else (no boolean, number, string or array has a property of these
    names, and none of them is inherited from [Object.prototype]). *)
Definition get_field (obj : JsVal) (k : Key) : Result JsVal :=
  match obj with
  | JUndefined | JNull => Throw TypeError
  | JObj o => Ok (default JUndefined (obj_get o (key_name k)))
  | JBool _ | JNum _ | JStr _ | JArr _ => Ok JUndefined
  end.

Definition string_of_Z (n : Z) : string := NilZero.string_of_int (Z.to_int n).

(** [String(v)], the conversion a value undergoes when it is used as a
    property key ([tiles.filters[elem]]). *)
Fixpoint to_string (v : JsVal) : string :=
  match v with
  | JUndefined => "undefined"
  | JNull => "null"
  | JBool true => "true"
  | JBool false => "false"
  | JNum n => string_of_Z n
  | JStr s => s
  | JArr a =>
      String.concat ","
        (map (fun e => match e with
                       | JUndefined | JNull => ""
                       | _ => to_string e
                       end) a)
  | JObj _ => "[object Object]"
  end.

(* ===================================================================== *)
(** ** The tile catalog *)
(* ===================================================================== *)

(** Once a tid is assigned, it can never be changed or repurposed; every tid
    is unique in the set of all tids. *)
Module Tid.
Module sensor.
Definition always := "S1".
Definition see := "S2".
Definition bump := "S3".
Definition dpad := "S4".
Definition button_a := "S5".
Definition button_b := "S6".
Definition timer := "S7".
End sensor.
Module filter.
Definition kodu := "F1".
Definition tree := "F2".
Definition apple := "F3".
Definition nearby := "F4".
Definition faraway := "F5".
Definition me := "F6".
Definition it := "F7".
Definition timespan_short := "F8".
Definition timespan_long := "F9".
Definition express_none := "F10".
Definition express_happy := "F11".
Definition express_angry := "F12".
Definition express_heart := "F13".
Definition express_sad := "F14".
End filter.
Module actuator.
Definition move := "A1".
Definition switch_page := "A2".
Definition express := "A3".
Definition boom := "A4".
Definition vanish := "A5".
Definition camera_follow := "A6".
End actuator.
Module modifier.
Definition me := "M1".
Definition it := "M2".
Definition kodu := "M3".
Definition tree := "M4".
Definition apple := "M5".
Definition quickly := "M6".
Definition slowly := "M7".
Definition toward := "M8".
Definition away := "M9".
Definition avoid := "M10".
Definition page_1 := "M11".
Definition page_2 := "M12".
Definition page_3 := "M13".
Definition page_4 := "M14".
Definition page_5 := "M15".
Definition express_none := "M16".
Definition express_happy := "M17".
Definition express_angry := "M18".
Definition express_heart := "M19".
Definition express_sad := "M20".
End modifier.
End Tid.

(** The three shapes of [allow] / [disallow] literal the catalog uses. *)
Definition tiles_only (ids : list string) : TileSel :=
  {| sel_tiles := Some ids; sel_categories := None |}.
Definition categories_only (cats : list string) : TileSel :=
  {| sel_tiles := None; sel_categories := Some cats |}.
Definition tiles_and_categories (ids cats : list string) : TileSel :=
  {| sel_tiles := Some ids; sel_categories := Some cats |}.

Definition sensor_always : TileDefn :=
  {| type := SENSOR; tid := Tid.sensor.always; name := "Always";
     weight := None; hidden := Some true; category := None;
     constraints := None;
     phase := Some pre; priority := None |}.

Definition sensor_see : TileDefn :=
  {| type := SENSOR; tid := Tid.sensor.see; name := "See";
     weight := Some 1; hidden := None; category := None;
     constraints :=
       Some {| provides := Some ["target"]; requires := None;
              allow := Some (categories_only ["subject"; "direct-subject"; "distance"; "expression"]);
              disallow := Some (tiles_only [Tid.filter.me]);
              handling := None |};
     phase := Some pre; priority := None |}.

Definition sensor_bump : TileDefn :=
  {| type := SENSOR; tid := Tid.sensor.bump; name := "Bump";
     weight := Some 2; hidden := None; category := None;
     constraints :=
       Some {| provides := Some ["target"]; requires := None;
              allow := Some (categories_only ["subject"; "direct-subject"; "expression"]);
              disallow := Some (tiles_only [Tid.filter.me]);
              handling := None |};
     phase := Some pre; priority := None |}.

Definition sensor_dpad : TileDefn :=
  {| type := SENSOR; tid := Tid.sensor.dpad; name := "DPad";
     weight := None; hidden := None; category := None;
     constraints :=
       Some {| provides := Some ["input"; "direction"]; requires := None;
              allow := Some (categories_only ["dpad-direction"; "button-event"]);
              disallow := None;
              handling := None |};
     phase := Some pre; priority := None |}.

Definition sensor_button_a : TileDefn :=
  {| type := SENSOR; tid := Tid.sensor.button_a; name := "A";
     weight := None; hidden := None; category := None;
     constraints :=
       Some {| provides := Some ["input"]; requires := None;
              allow := Some (categories_only ["button-event"]);
              disallow := None;
              handling := None |};
     phase := Some pre; priority := None |}.

Definition sensor_button_b : TileDefn :=
  {| type := SENSOR; tid := Tid.sensor.button_b; name := "B";
     weight := None; hidden := None; category := None;
     constraints :=
       Some {| provides := Some ["input"]; requires := None;
              allow := Some (categories_only ["button-event"]);
              disallow := None;
              handling := None |};
     phase := Some pre; priority := None |}.

Definition sensor_timer : TileDefn :=
  {| type := SENSOR; tid := Tid.sensor.timer; name := "Timer";
     weight := None; hidden := None; category := None;
     constraints :=
       Some {| provides := None; requires := None;
              allow := Some (categories_only ["timespan"]);
              disallow := None;
              handling := None |};
     phase := Some post; priority := None |}.

(** The literal of [tiles.sensors], entry for entry in source order. *)
Definition sensors_literal : list (string * TileDefn) :=
  [
    (Tid.sensor.always, sensor_always);
    (Tid.sensor.see, sensor_see);
    (Tid.sensor.bump, sensor_bump);
    (Tid.sensor.dpad, sensor_dpad);
    (Tid.sensor.button_a, sensor_button_a);
    (Tid.sensor.button_b, sensor_button_b);
    (Tid.sensor.timer, sensor_timer)
  ].

(** [tiles.sensors], the object the literal evaluates to. *)
Definition tiles_sensors : list (string * TileDefn) := obj_literal sensors_literal.

Definition filter_kodu : TileDefn :=
  {| type := FILTER; tid := Tid.filter.kodu; name := "Kodu";
     weight := None; hidden := None; category := Some "subject";
     constraints :=
       Some {| provides := Some ["target"]; requires := None;
              allow := None;
              disallow := Some (categories_only ["subject"; "direct-subject"]);
              handling := None |};
     phase := None; priority := Some 10 |}.

Definition filter_tree : TileDefn :=
  {| type := FILTER; tid := Tid.filter.tree; name := "Tree";
     weight := None; hidden := None; category := Some "subject";
     constraints :=
       Some {| provides := Some ["target"]; requires := None;
              allow := None;
              disallow := Some (categories_only ["subject"; "direct-subject"]);
              handling := None |};
     phase := None; priority := Some 10 |}.

Definition filter_apple : TileDefn :=
  {| type := FILTER; tid := Tid.filter.apple; name := "Apple";
     weight := None; hidden := None; category := Some "subject";
     constraints :=
       Some {| provides := Some ["target"]; requires := None;
              allow := None;
              disallow := Some (categories_only ["subject"; "direct-subject"]);
              handling := None |};
     phase := None; priority := Some 10 |}.

Definition filter_nearby : TileDefn :=
  {| type := FILTER; tid := Tid.filter.nearby; name := "nearby";
     weight := None; hidden := None; category := Some "distance";
     constraints :=
       Some {| provides := Some ["target"]; requires := None;
              allow := None;
              disallow := Some (tiles_only [Tid.filter.faraway]);
              handling := Some (list_to_map [("max-count", HNum 3)]) |};
     phase := None; priority := Some 10 |}.

Definition filter_faraway : TileDefn :=
  {| type := FILTER; tid := Tid.filter.faraway; name := "far away";
     weight := None; hidden := None; category := Some "distance";
     constraints :=
       Some {| provides := Some ["target"]; requires := None;
              allow := None;
              disallow := Some (tiles_only [Tid.filter.nearby]);
              handling := Some (list_to_map [("max-count", HNum 3)]) |};
     phase := None; priority := Some 10 |}.

Definition filter_timespan_short : TileDefn :=
  {| type := FILTER; tid := Tid.filter.timespan_short; name := "short";
     weight := None; hidden := None; category := Some "timespan";
     constraints :=
       Some {| provides := None; requires := None;
              allow := None;
              disallow := None;
              handling := None |};
     phase := None; priority := Some 10 |}.

Definition filter_timespan_long : TileDefn :=
  {| type := FILTER; tid := Tid.filter.timespan_long; name := "long";
     weight := None; hidden := None; category := Some "timespan";
     constraints :=
       Some {| provides := None; requires := None;
              allow := None;
              disallow := None;
              handling := None |};
     phase := None; priority := Some 10 |}.

Definition filter_express_none : TileDefn :=
  {| type := FILTER; tid := Tid.filter.express_none; name := "none";
     weight := None; hidden := None; category := Some "expression";
     constraints :=
       Some {| provides := None; requires := None;
              allow := None;
              disallow := Some (categories_only ["expression"]);
              handling := None |};
     phase := None; priority := Some 10 |}.

Definition filter_express_happy : TileDefn :=
  {| type := FILTER; tid := Tid.filter.express_happy; name := "happy";
     weight := None; hidden := None; category := Some "expression";
     constraints :=
       Some {| provides := None; requires := None;
              allow := None;
              disallow := Some (categories_only ["expression"]);
              handling := None |};
     phase := None; priority := Some 10 |}.

Definition filter_express_angry : TileDefn :=
  {| type := FILTER; tid := Tid.filter.express_angry; name := "angry";
     weight := None; hidden := None; category := Some "expression";
     constraints :=
       Some {| provides := None; requires := None;
              allow := None;
              disallow := Some (categories_only ["expression"]);
              handling := None |};
     phase := None; priority := Some 10 |}.

Definition filter_express_heart : TileDefn :=
  {| type := FILTER; tid := Tid.filter.express_heart; name := "heart";
     weight := None; hidden := None; category := Some "expression";
     constraints :=
       Some {| provides := None; requires := None;
              allow := None;
              disallow := Some (categories_only ["expression"]);
              handling := None |};
     phase := None; priority := Some 10 |}.

Definition filter_express_sad : TileDefn :=
  {| type := FILTER; tid := Tid.filter.express_sad; name := "sad";
     weight := None; hidden := None; category := Some "expression";
     constraints :=
       Some {| provides := None; requires := None;
              allow := None;
              disallow := Some (categories_only ["expression"]);
              handling := None |};
     phase := None; priority := Some 10 |}.

(** The literal of [tiles.filters], entry for entry in source order. *)
Definition filters_literal : list (string * TileDefn) :=
  [
    (Tid.filter.kodu, filter_kodu);
    (Tid.filter.tree, filter_tree);
    (Tid.filter.apple, filter_apple);
    (Tid.filter.nearby, filter_nearby);
    (Tid.filter.faraway, filter_faraway);
    (Tid.filter.timespan_short, filter_timespan_short);
    (Tid.filter.timespan_long, filter_timespan_long);
    (Tid.filter.express_none, filter_express_none);
    (Tid.filter.express_none, filter_express_none);
    (Tid.filter.express_happy, filter_express_happy);
    (Tid.filter.express_angry, filter_express_angry);
    (Tid.filter.express_heart, filter_express_heart);
    (Tid.filter.express_sad, filter_express_sad)
  ].

(** [tiles.filters], the object the literal evaluates to. *)
Definition tiles_filters : list (string * TileDefn) := obj_literal filters_literal.

Definition actuator_move : TileDefn :=
  {| type := ACTUATOR; tid := Tid.actuator.move; name := "Move";
     weight := None; hidden := None; category := Some "movement";
     constraints :=
       Some {| provides := None; requires := None;
              allow := Some (categories_only ["speed"; "direction"; "direct-object"]);
              disallow := None;
              handling := None |};
     phase := None; priority := None |}.

Definition actuator_switch_page : TileDefn :=
  {| type := ACTUATOR; tid := Tid.actuator.switch_page; name := "Switch page";
     weight := None; hidden := None; category := None;
     constraints :=
       Some {| provides := None; requires := None;
              allow := Some (categories_only ["page"]);
              disallow := None;
              handling := None |};
     phase := None; priority := None |}.

Definition actuator_express : TileDefn :=
  {| type := ACTUATOR; tid := Tid.actuator.express; name := "Express";
     weight := None; hidden := None; category := None;
     constraints :=
       Some {| provides := None; requires := None;
              allow := Some (categories_only ["expression"]);
              disallow := None;
              handling := None |};
     phase := None; priority := None |}.

Definition actuator_boom : TileDefn :=
  {| type := ACTUATOR; tid := Tid.actuator.boom; name := "Boom";
     weight := None; hidden := Some true; category := None;
     constraints :=
       Some {| provides := None; requires := None;
              allow := Some (categories_only ["direct-object"]);
              disallow := None;
              handling := None |};
     phase := None; priority := None |}.

Definition actuator_vanish : TileDefn :=
  {| type := ACTUATOR; tid := Tid.actuator.vanish; name := "Vanish";
     weight := None; hidden := None; category := None;
     constraints :=
       Some {| provides := None; requires := None;
              allow := Some (categories_only ["direct-object"]);
              disallow := None;
              handling := None |};
     phase := None; priority := None |}.

Definition actuator_camera_follow : TileDefn :=
  {| type := ACTUATOR; tid := Tid.actuator.camera_follow; name := "Keep in view";
     weight := None; hidden := None; category := None;
     constraints :=
       Some {| provides := None; requires := None;
              allow := Some (categories_only ["direct-object"]);
              disallow := None;
              handling := None |};
     phase := None; priority := None |}.

(** The literal of [tiles.actuators], entry for entry in source order. *)
Definition actuators_literal : list (string * TileDefn) :=
  [
    (Tid.actuator.move, actuator_move);
    (Tid.actuator.switch_page, actuator_switch_page);
    (Tid.actuator.express, actuator_express);
    (Tid.actuator.boom, actuator_boom);
    (Tid.actuator.vanish, actuator_vanish);
    (Tid.actuator.camera_follow, actuator_camera_follow)
  ].

(** [tiles.actuators], the object the literal evaluates to. *)
Definition tiles_actuators : list (string * TileDefn) := obj_literal actuators_literal.

Definition modifier_me : TileDefn :=
  {| type := MODIFIER; tid := Tid.modifier.me; name := "me";
     weight := None; hidden := None; category := Some "direct-object";
     constraints :=
       Some {| provides := None; requires := Some ["target"];
              allow := None;
              disallow := Some (categories_only ["object"; "direct-object"]);
              handling := None |};
     phase := None; priority := Some 10 |}.

Definition modifier_it : TileDefn :=
  {| type := MODIFIER; tid := Tid.modifier.it; name := "it";
     weight := None; hidden := None; category := Some "direct-object";
     constraints :=
       Some {| provides := None; requires := Some ["target"];
              allow := None;
              disallow := Some (categories_only ["object"; "direct-object"]);
              handling := None |};
     phase := None; priority := Some 10 |}.

Definition modifier_kodu : TileDefn :=
  {| type := MODIFIER; tid := Tid.modifier.kodu; name := "Kodu";
     weight := None; hidden := None; category := Some "object";
     constraints :=
       Some {| provides := None; requires := None;
              allow := None;
              disallow := Some (categories_only ["object"; "direct-object"]);
              handling := None |};
     phase := None; priority := Some 10 |}.

Definition modifier_tree : TileDefn :=
  {| type := MODIFIER; tid := Tid.modifier.tree; name := "Tree";
     weight := None; hidden := None; category := Some "object";
     constraints :=
       Some {| provides := None; requires := None;
              allow := None;
              disallow := Some (categories_only ["object"; "direct-object"]);
              handling := None |};
     phase := None; priority := Some 10 |}.

Definition modifier_apple : TileDefn :=
  {| type := MODIFIER; tid := Tid.modifier.apple; name := "Apple";
     weight := None; hidden := None; category := Some "object";
     constraints :=
       Some {| provides := None; requires := None;
              allow := None;
              disallow := Some (categories_only ["object"; "direct-object"]);
              handling := None |};
     phase := None; priority := Some 10 |}.

Definition modifier_quickly : TileDefn :=
  {| type := MODIFIER; tid := Tid.modifier.quickly; name := "quickly";
     weight := None; hidden := None; category := Some "speed";
     constraints :=
       Some {| provides := None; requires := None;
              allow := None;
              disallow := Some (tiles_only [Tid.modifier.slowly]);
              handling := Some (list_to_map [("max-count", HNum 3)]) |};
     phase := None; priority := Some 10 |}.

Definition modifier_slowly : TileDefn :=
  {| type := MODIFIER; tid := Tid.modifier.slowly; name := "slowly";
     weight := None; hidden := None; category := Some "speed";
     constraints :=
       Some {| provides := None; requires := None;
              allow := None;
              disallow := Some (tiles_only [Tid.modifier.quickly]);
              handling := Some (list_to_map [("max-count", HNum 3)]) |};
     phase := None; priority := Some 10 |}.

Definition modifier_toward : TileDefn :=
  {| type := MODIFIER; tid := Tid.modifier.toward; name := "toward";
     weight := None; hidden := None; category := Some "direction";
     constraints :=
       Some {| provides := None; requires := Some ["target"];
              allow := None;
              disallow := Some (tiles_and_categories [Tid.modifier.me] ["direction"]);
              handling := None |};
     phase := None; priority := Some 10 |}.

Definition modifier_away : TileDefn :=
  {| type := MODIFIER; tid := Tid.modifier.away; name := "away";
     weight := None; hidden := None; category := Some "direction";
     constraints :=
       Some {| provides := None; requires := Some ["target"];
              allow := None;
              disallow := Some (tiles_and_categories [Tid.modifier.me] ["direction"]);
              handling := None |};
     phase := None; priority := Some 10 |}.

Definition modifier_avoid : TileDefn :=
  {| type := MODIFIER; tid := Tid.modifier.avoid; name := "avoid";
     weight := None; hidden := None; category := Some "direction";
     constraints :=
       Some {| provides := None; requires := Some ["target"];
              allow := None;
              disallow := Some (tiles_and_categories [Tid.modifier.me] ["direction"]);
              handling := None |};
     phase := None; priority := Some 20 |}.

Definition modifier_page_1 : TileDefn :=
  {| type := MODIFIER; tid := Tid.modifier.page_1; name := "page 1";
     weight := None; hidden := None; category := Some "page";
     constraints :=
       Some {| provides := None; requires := None;
              allow := None;
              disallow := None;
              handling := Some (list_to_map [("terminal", HBool true)]) |};
     phase := None; priority := Some 10 |}.

Definition modifier_page_2 : TileDefn :=
  {| type := MODIFIER; tid := Tid.modifier.page_2; name := "page 2";
     weight := None; hidden := None; category := Some "page";
     constraints :=
       Some {| provides := None; requires := None;
              allow := None;
              disallow := None;
              handling := Some (list_to_map [("terminal", HBool true)]) |};
     phase := None; priority := Some 10 |}.

Definition modifier_page_3 : TileDefn :=
  {| type := MODIFIER; tid := Tid.modifier.page_3; name := "page 3";
     weight := None; hidden := None; category := Some "page";
     constraints :=
       Some {| provides := None; requires := None;
              allow := None;
              disallow := None;
              handling := Some (list_to_map [("terminal", HBool true)]) |};
     phase := None; priority := Some 10 |}.

Definition modifier_page_4 : TileDefn :=
  {| type := MODIFIER; tid := Tid.modifier.page_4; name := "page 4";
     weight := None; hidden := None; category := Some "page";
     constraints :=
       Some {| provides := None; requires := None;
              allow := None;
              disallow := None;
              handling := Some (list_to_map [("terminal", HBool true)]) |};
     phase := None; priority := Some 10 |}.

Definition modifier_page_5 : TileDefn :=
  {| type := MODIFIER; tid := Tid.modifier.page_5; name := "page 5";
     weight := None; hidden := None; category := Some "page";
     constraints :=
       Some {| provides := None; requires := None;
              allow := None;
              disallow := None;
              handling := Some (list_to_map [("terminal", HBool true)]) |};
     phase := None; priority := Some 10 |}.

Definition modifier_express_none : TileDefn :=
  {| type := MODIFIER; tid := Tid.modifier.express_none; name := "none";
     weight := None; hidden := None; category := Some "expression";
     constraints :=
       Some {| provides := None; requires := None;
              allow := None;
              disallow := Some (categories_only ["expression"]);
              handling := None |};
     phase := None; priority := Some 10 |}.

Definition modifier_express_happy : TileDefn :=
  {| type := MODIFIER; tid := Tid.modifier.express_happy; name := "happy";
     weight := None; hidden := None; category := Some "expression";
     constraints :=
       Some {| provides := None; requires := None;
              allow := None;
              disallow := Some (categories_only ["expression"]);
              handling := None |};
     phase := None; priority := Some 10 |}.

Definition modifier_express_angry : TileDefn :=
  {| type := MODIFIER; tid := Tid.modifier.express_angry; name := "angry";
     weight := None; hidden := None; category := Some "expression";
     constraints :=
       Some {| provides := None; requires := None;
              allow := None;
              disallow := Some (categories_only ["expression"]);
              handling := None |};
     phase := None; priority := Some 10 |}.

Definition modifier_express_heart : TileDefn :=
  {| type := MODIFIER; tid := Tid.modifier.express_heart; name := "heart";
     weight := None; hidden := None; category := Some "expression";
     constraints :=
       Some {| provides := None; requires := None;
              allow := None;
              disallow := Some (categories_only ["expression"]);
              handling := None |};
     phase := None; priority := Some 10 |}.

Definition modifier_express_sad : TileDefn :=
  {| type := MODIFIER; tid := Tid.modifier.express_sad; name := "sad";
     weight := None; hidden := None; category := Some "expression";
     constraints :=
       Some {| provides := None; requires := None;
              allow := None;
              disallow := Some (categories_only ["expression"]);
              handling := None |};
     phase := None; priority := Some 10 |}.

(** The literal of [tiles.modifiers], entry for entry in source order. *)
Definition modifiers_literal : list (string * TileDefn) :=
  [
    (Tid.modifier.me, modifier_me);
    (Tid.modifier.it, modifier_it);
    (Tid.modifier.kodu, modifier_kodu);
    (Tid.modifier.tree, modifier_tree);
    (Tid.modifier.apple, modifier_apple);
    (Tid.modifier.quickly, modifier_quickly);
    (Tid.modifier.slowly, modifier_slowly);
    (Tid.modifier.toward, modifier_toward);
    (Tid.modifier.away, modifier_away);
    (Tid.modifier.avoid, modifier_avoid);
    (Tid.modifier.page_1, modifier_page_1);
    (Tid.modifier.page_2, modifier_page_2);
    (Tid.modifier.page_3, modifier_page_3);
    (Tid.modifier.page_4, modifier_page_4);
    (Tid.modifier.page_5, modifier_page_5);
    (Tid.modifier.express_none, modifier_express_none);
    (Tid.modifier.express_happy, modifier_express_happy);
    (Tid.modifier.express_angry, modifier_express_angry);
    (Tid.modifier.express_heart, modifier_express_heart);
    (Tid.modifier.express_sad, modifier_express_sad)
  ].

(** [tiles.modifiers], the object the literal evaluates to. *)
Definition tiles_modifiers : list (string * TileDefn) := obj_literal modifiers_literal.


Record TileDatabase := {
  db_sensors : list (string * TileDefn);
  db_filters : list (string * TileDefn);
  db_actuators : list (string * TileDefn);
  db_modifiers : list (string * TileDefn)
}.

(** The catalog, entry for entry as the source declares it. The [filters]
    literal lists [express_none] twice; the [me] and [it] modifiers carry a
    [produces] key in their constraints, which the [Constraints] interface
    does not declare and no function reads: it is left out. *)
Definition tiles : TileDatabase :=
  {| db_sensors := tiles_sensors;
     db_filters := tiles_filters;
     db_actuators := tiles_actuators;
     db_modifiers := tiles_modifiers |}.

(* ===================================================================== *)
(** ** Serialization codec *)
(* ===================================================================== *)

(** [elem.tid] on an object: the identifier of a tile, [undefined] on an
    inherited member. *)
Definition ref_tid (elem : TileRef) : JsVal :=
  match elem with
  | Tile t => JStr (tid t)
  | Inherited _ => JUndefined
  end.

(** [this.sensor ? this.sensor.tid : undefined] *)
Definition tid_or_undefined (anchor : option TileRef) : JsVal :=
  match anchor with Some elem => ref_tid elem | None => JUndefined end.

(** [chain.map(elem => elem.tid)]: reading [tid] off an [undefined] slot
    raises. *)
Definition tid_of (elem : option TileRef) : Result JsVal :=
  match elem with
  | Some elem => Ok (ref_tid elem)
  | None => Throw TypeError
  end.

Definition delete_if_falsy (obj : list (string * JsVal)) (k : Key) : list (string * JsVal) :=
  if negb (truthy (default JUndefined (obj_get obj (key_name k))))
  then obj_delete obj (key_name k)
  else obj.

Definition delete_if_no_length (obj : list (string * JsVal)) (k : Key) : list (string * JsVal) :=
  match obj_get obj (key_name k) with
  | Some (JArr []) => obj_delete obj (key_name k)
  | _ => obj
  end.

Definition RuleDefn_toObj (this : RuleDefn) : Result JsVal :=
  F ← mapM tid_of (filters this);
  M ← mapM tid_of (modifiers this);
  let obj :=
    [ ("C", JStr (condition this));
      ("S", tid_or_undefined (sensor this));
      ("A", tid_or_undefined (actuator this));
      ("F", JArr F);
      ("M", JArr M) ] in
  let obj := delete_if_falsy obj kC in
  let obj := delete_if_falsy obj kS in
  let obj := delete_if_falsy obj kA in
  let obj := delete_if_no_length obj kF in
  let obj := delete_if_no_length obj kM in
  Ok (JObj obj).

Definition PageDefn_toObj (this : PageDefn) : Result JsVal :=
  R ← mapM RuleDefn_toObj (rules this);
  let obj := [ ("R", JArr R) ] in
  let obj := delete_if_no_length obj kR in
  Ok (JObj obj).

Definition BrainDefn_toObj (this : BrainDefn) : Result JsVal :=
  P ← mapM PageDefn_toObj (pages this);
  Ok (JObj [ ("P", JArr P) ]).

Definition with_condition (r : RuleDefn) (c : string) : RuleDefn :=
  {| condition := c; sensor := sensor r; filters := filters r;
     actuator := actuator r; modifiers := modifiers r |}.
Definition with_sensor (r : RuleDefn) (s : option TileRef) : RuleDefn :=
  {| condition := condition r; sensor := s; filters := filters r;
     actuator := actuator r; modifiers := modifiers r |}.
Definition with_actuator (r : RuleDefn) (a : option TileRef) : RuleDefn :=
  {| condition := condition r; sensor := sensor r; filters := filters r;
     actuator := a; modifiers := modifiers r |}.
Definition with_filters (r : RuleDefn) (fs : list (option TileRef)) : RuleDefn :=
  {| condition := condition r; sensor := sensor r; filters := fs;
     actuator := actuator r; modifiers := modifiers r |}.
Definition with_modifiers (r : RuleDefn) (ms : list (option TileRef)) : RuleDefn :=
  {| condition := condition r; sensor := sensor r; filters := filters r;
     actuator := actuator r; modifiers := ms |}.

(** The properties a plain object inherits from [Object.prototype]: the
    seven of the ECMAScript standard library and the five legacy ones every
    engine ships. *)
Definition Object_prototype : list string :=
  [ "constructor"; "hasOwnProperty"; "isPrototypeOf"; "propertyIsEnumerable";
    "toLocaleString"; "toString"; "valueOf";
    "__proto__"; "__defineGetter__"; "__defineSetter__";
    "__lookupGetter__"; "__lookupSetter__" ].

Definition inherited (key : string) : bool :=
  existsb (String.eqb key) Object_prototype.

(** [part[elem]] on a partition of the catalog, a plain object. The element
    is converted to a property key. An own property, i.e. a catalog entry,
    is found first; then the prototype is searched, where the inherited
    members are found; a miss is [undefined]. *)
Definition lookup_tile (part : list (string * TileDefn)) (elem : JsVal) : option TileRef :=
  let key := to_string elem in
  match obj_get part key with
  | Some t => Some (Tile t)
  | None => if inherited key then Some (Inherited key) else None
  end.

(** [if (typeof obj["C"] === 'string') { defn.condition = obj["C"]; }] *)
Definition read_condition (defn : RuleDefn) (c : JsVal) : RuleDefn :=
  match c with
  | JStr c => with_condition defn c
  | _ => defn
  end.

(** [if (typeof obj["S"] === 'string') { defn.sensor = tiles.sensors[obj["S"]]; }] *)
Definition read_sensor (defn : RuleDefn) (s : JsVal) : RuleDefn :=
  match s with
  | JStr _ => with_sensor defn (lookup_tile (db_sensors tiles) s)
  | _ => defn
  end.

(** [if (typeof obj["A"] === 'string') { defn.actuator = tiles.actuators[obj["A"]]; }] *)
Definition read_actuator (defn : RuleDefn) (a : JsVal) : RuleDefn :=
  match a with
  | JStr _ => with_actuator defn (lookup_tile (db_actuators tiles) a)
  | _ => defn
  end.

(** [if (Array.isArray(obj["F"])) { defn.filters = obj["F"].map(elem => tiles.filters[elem]); }] *)
Definition read_filters (defn : RuleDefn) (f : JsVal) : RuleDefn :=
  match f with
  | JArr filters => with_filters defn (map (lookup_tile (db_filters tiles)) filters)
  | _ => defn
  end.

(** [if (Array.isArray(obj["M"])) { defn.modifiers = obj["M"].map(elem => tiles.modifiers[elem]); }] *)
Definition read_modifiers (defn : RuleDefn) (m : JsVal) : RuleDefn :=
  match m with
  | JArr modifiers => with_modifiers defn (map (lookup_tile (db_modifiers tiles)) modifiers)
  | _ => defn
  end.

Section Decode.

(** [JSON.parse] belongs to the platform, not to this repository: the
    decoders are parameterised by it. It raises on text that is not JSON. *)
Variable JSON_parse : string -> Result JsVal.

(** [if (typeof obj === 'string') { obj = JSON.parse(obj); }] *)
Definition parse_if_string (obj : JsVal) : Result JsVal :=
  match obj with
  | JStr s => JSON_parse s
  | _ => Ok obj
  end.

Definition RuleDefn_FromObj (obj : JsVal) : Result RuleDefn :=
  obj ← parse_if_string obj;
  let defn := RuleDefn_new in
  c ← get_field obj kC;
  let defn := read_condition defn c in
  s ← get_field obj kS;
  let defn := read_sensor defn s in
  a ← get_field obj kA;
  let defn := read_actuator defn a in
  f ← get_field obj kF;
  let defn := read_filters defn f in
  m ← get_field obj kM;
  let defn := read_modifiers defn m in
  Ok defn.

Definition PageDefn_FromObj (obj : JsVal) : Result PageDefn :=
  obj ← parse_if_string obj;
  let defn := PageDefn_new in
  r ← get_field obj kR;
  match r with
  | JArr rules =>
      rs ← mapM RuleDefn_FromObj rules;
      Ok {| rules := rs |}
  | _ => Ok defn
  end.

(** [obj && obj["P"] && Array.isArray(obj["P"])]: a falsy [obj] is never
    dereferenced. *)
Definition BrainDefn_FromObj (obj : JsVal) : Result BrainDefn :=
  obj ← parse_if_string obj;
  let defn := BrainDefn_new in
  if truthy obj then
    p ← get_field obj kP;
    if truthy p then
      match p with
      | JArr pages =>
          ps ← mapM PageDefn_FromObj pages;
          Ok {| pages := ps |}
      | _ => Ok defn
      end
    else Ok defn
  else Ok defn.

End Decode.

(* ===================================================================== *)
(** ** Constraint merge *)
(* ===================================================================== *)

(** The accumulator built by [mkConstraints]: a [Constraints] value all of
    whose fields are present. *)
Record Sel := {
  tiles_of : list string;
  categories_of : list string
}.

Record Accum := {
  acc_provides : list string;
  acc_requires : list string;
  acc_allow : Sel;
  acc_disallow : Sel;
  acc_handling : gmap string HVal
}.

Definition mkConstraints : Accum :=
  {| acc_provides := [];
     acc_requires := [];
     acc_allow := {| tiles_of := []; categories_of := [] |};
     acc_disallow := {| tiles_of := []; categories_of := [] |};
     acc_handling := ∅ |}.

(** [src.forEach(item => dst.push(item))] *)
Definition push_each (dst src : list string) : list string :=
  fold_left (fun dst item => dst ++ [item]) src dst.

(** [(list || []).forEach(item => dst.push(item))] *)
Definition push_each_or_empty (dst : list string) (src : option (list string)) : list string :=
  push_each dst (default [] src).

Definition merge_sel (dst : Sel) (src : option TileSel) : Sel :=
  match src with
  | None => dst
  | Some src =>
      {| tiles_of := push_each_or_empty (tiles_of dst) (sel_tiles src);
         categories_of := push_each_or_empty (categories_of dst) (sel_categories src) |}
  end.

(** [for (const key of Object.keys(src)) { dst[key] = src[key]; }]. Every key
    of [src] is written exactly once, so the order of the traversal does not
    show in the result. *)
Definition assign_each (dst src : gmap string HVal) : gmap string HVal :=
  map_fold (fun key v dst => <[key := v]> dst) dst src.

Definition mergeConstraints (dst : Accum) (src : option Constraints) : Accum :=
  match src with
  | None => dst
  | Some src =>
      {| acc_provides :=
           match provides src with
           | Some l => push_each (acc_provides dst) l
           | None => acc_provides dst
           end;
         acc_requires :=
           match requires src with
           | Some l => push_each (acc_requires dst) l
           | None => acc_requires dst
           end;
         acc_allow := merge_sel (acc_allow dst) (allow src);
         acc_disallow := merge_sel (acc_disallow dst) (disallow src);
         acc_handling :=
           match handling src with
           | Some h => assign_each (acc_handling dst) h
           | None => acc_handling dst
           end |}
  end.

(* ===================================================================== *)
(** ** Suggestion engine *)
(* ===================================================================== *)

(** [a.weight || 100]: an absent weight, and a weight of 0, read as 100. *)
Definition weight_or_100 (t : TileDefn) : Z :=
  match weight t with
  | Some w => if w =? 0 then 100 else w
  | None => 100
  end.

(** The comparator [(a, b) => wa - wb]. *)
Definition by_weight (a b : TileDefn) : Z := weight_or_100 a - weight_or_100 b.

(** [Array.prototype.sort] with a comparator, as a stable insertion sort: an
    element moves behind a later one only when the comparator is positive. *)
Section Sort.
Context {A : Type} (cmp : A -> A -> Z).

Fixpoint sort_insert (x : A) (l : list A) : list A :=
  match l with
  | [] => [x]
  | y :: l' => if 0 <? cmp x y then y :: sort_insert x l' else x :: l
  end.

Fixpoint Array_sort (l : list A) : list A :=
  match l with
  | [] => []
  | x :: l' => sort_insert x (Array_sort l')
  end.
End Sort.

(** [tile => !tile.hidden] *)
Definition not_hidden (tile : TileDefn) : bool := negb (default false (hidden tile)).

(** [chain[i]]: [undefined] past the end. *)
Definition array_get {A} (chain : list (option A)) (i : nat) : option A :=
  default None (chain !! i).

(** [for (let i = 0; i < index; ++i) { existing.push(chain[i]); }] *)
Definition collect_existing (chain : list (option TileRef)) (index : Z) : list (option TileRef) :=
  map (array_get chain) (seq 0 (Z.to_nat index)).

(** [last.constraints && last.constraints.handling &&
     last.constraints.handling["terminal"]] *)
Definition is_terminal (last : TileRef) : bool :=
  match constraints_of last with
  | Some c =>
      match handling c with
      | Some h =>
          match h !! "terminal" with
          | Some v => HVal_truthy v
          | None => false
          end
      | None => false
      end
  | None => false
  end.

(** The terminal test on the collected prefix; [last.constraints] raises
    when the last collected slot is [undefined]. *)
Definition ends_in_terminal (existing : list (option TileRef)) : Result bool :=
  match last existing with
  | None => Ok false
  | Some None => Throw TypeError
  | Some (Some t) => Ok (is_terminal t)
  end.

(** [for (i ...) { mergeConstraints(constraints, existing[i].constraints); }] *)
Fixpoint merge_existing (c : Accum) (existing : list (option TileRef)) : Result Accum :=
  match existing with
  | [] => Ok c
  | None :: _ => Throw TypeError
  | Some t :: rest => merge_existing (mergeConstraints c (constraints_of t)) rest
  end.

(** [rule.sensor ? rule.sensor.constraints : null] *)
Definition anchor_constraints (anchor : option TileRef) : option Constraints :=
  match anchor with
  | Some t => constraints_of t
  | None => None
  end.

Definition requires_met (c : Accum) (tile : TileDefn) : bool :=
  match constraints tile with
  | None => true
  | Some tc =>
      match requires tc with
      | None => true
      | Some reqs =>
          fold_left
            (fun met req => met || existsb (fun pro => String.eqb pro req) (acc_provides c))
            reqs false
      end
  end.

(** [cat === tile.category], where the category may be [undefined]. *)
Definition is_category (tile : TileDefn) (cat : string) : bool :=
  match category tile with
  | Some c => String.eqb cat c
  | None => false
  end.

Definition allowed (c : Accum) (tile : TileDefn) : bool :=
  existsb (is_category tile) (categories_of (acc_allow c))
  || existsb (fun id => String.eqb id (tid tile)) (tiles_of (acc_allow c)).

Definition not_disallowed (c : Accum) (tile : TileDefn) : bool :=
  negb (existsb (is_category tile) (categories_of (acc_disallow c)))
  && negb (existsb (fun id => String.eqb id (tid tile)) (tiles_of (acc_disallow c))).

Definition getCompatibleSet (all : list TileDefn) (c : Accum) : list TileDefn :=
  List.filter (not_disallowed c)
    (List.filter (allowed c)
       (List.filter (requires_met c) all)).

Definition getSensorSuggestions (rule : RuleDefn) : list TileDefn :=
  Array_sort by_weight
    (List.filter not_hidden (Object_values (db_sensors tiles))).

Definition getActuatorSuggestions (rule : RuleDefn) : list TileDefn :=
  Array_sort by_weight
    (List.filter not_hidden (Object_values (db_actuators tiles))).

(** The constraints accumulated in front of filter position [index]. *)
Definition filter_constraints (rule : RuleDefn) (existing : list (option TileRef)) : Result Accum :=
  let constraints := mkConstraints in
  let constraints := mergeConstraints constraints (anchor_constraints (sensor rule)) in
  merge_existing constraints existing.

Definition getFilterSuggestions (rule : RuleDefn) (index : Z) : Result (list TileDefn) :=
  let all :=
    Array_sort by_weight
      (List.filter not_hidden (Object_values (db_filters tiles))) in
  let existing := collect_existing (filters rule) index in
  terminal ← ends_in_terminal existing;
  if terminal : bool then Ok []
  else
    constraints ← filter_constraints rule existing;
    Ok (getCompatibleSet all constraints).

(** The constraints accumulated in front of modifier position [index]. *)
Definition modifier_constraints (rule : RuleDefn) (existing : list (option TileRef)) : Result Accum :=
  let constraints := mkConstraints in
  let constraints := mergeConstraints constraints (anchor_constraints (actuator rule)) in
  let constraints := mergeConstraints constraints (anchor_constraints (sensor rule)) in
  merge_existing constraints existing.

Definition getModifierSuggestions (rule : RuleDefn) (index : Z) : Result (list TileDefn) :=
  let all :=
    Array_sort by_weight
      (List.filter not_hidden (Object_values (db_modifiers tiles))) in
  let existing := collect_existing (modifiers rule) index in
  terminal ← ends_in_terminal existing;
  if terminal : bool then Ok []
  else
    constraints ← modifier_constraints rule existing;
    Ok (getCompatibleSet all constraints).

Definition ensureValid (rule : RuleDefn) : RuleDefn :=
  let rule := if negb (present (sensor rule)) then with_filters rule [] else rule in
  let rule := if negb (present (actuator rule)) then with_modifiers rule [] else rule in
  rule.

(* ===================================================================== *)
(** ** Sample runs *)
(* ===================================================================== *)

Definition see_rule : RuleDefn := with_sensor RuleDefn_new (Some (Tile sensor_see)).

Definition names (r : Result (list TileDefn)) : Result (list string) := map name <$> r.

(* ===================================================================== *)
(** ** Vocabulary of the statements *)
(* ===================================================================== *)

(** The value an encoded record holds under one of the codec's keys. *)
Definition field (o : list (string * JsVal)) (k : Key) : option JsVal :=
  obj_get o (key_name k).

(** A chain none of whose slots is [undefined]. *)
Definition defined (chain : list (option TileRef)) : Prop := Forall is_Some chain.


(** A platform parser that rejects every text; the decoders never reach it
    on structured input. *)
Definition rejecting_parse (text : string) : Result JsVal := Throw SyntaxError.

(** The brains the data model itself makes: by the constructor, by [clone],
    by [trim], or by editing a page in place (the list of pages is never
    reassigned outside [FromObj]). *)
Inductive made : BrainDefn → Prop :=
| made_new : made BrainDefn_new
| made_clone b : made b → made (BrainDefn_clone b)
| made_trim b : made b → made (BrainDefn_trim b)
| made_edit (b : BrainDefn) (i : nat) (p : PageDefn) :
    made b → made {| pages := <[i := p]> (pages b) |}.

(** A tile whose constraints carry [handling.terminal = true]. *)
Definition carries_terminal (t : TileDefn) : Prop :=
  ∃ c h, constraints t = Some c ∧ handling c = Some h
         ∧ h !! "terminal" = Some (HBool true).

(** A page-switching rule that ends in the terminal [page 1] modifier. *)
Definition switch_rule : RuleDefn :=
  with_modifiers (with_actuator RuleDefn_new (Some (Tile actuator_switch_page)))
    [Some (Tile modifier_page_1)].

(** A filter that is not in the catalog and closes its chain. *)
Definition closing_filter : TileDefn :=
  {| type := FILTER; tid := "F99"; name := "only";
     weight := None; hidden := None; category := Some "distance";
     constraints :=
       Some {| provides := None; requires := None; allow := None; disallow := None;
              handling := Some (list_to_map [("terminal", HBool true)]) |};
     phase := None; priority := Some 10 |}.

(** The weight a tile declares, an absent weight counting as 100. *)
Definition declared_weight (t : TileDefn) : Z := default 100 (weight t).

(** Non-decreasing in declared weight. *)
Definition by_declared_weight (a b : TileDefn) : Prop :=
  declared_weight a ≤ declared_weight b.

(** Marked [hidden: true]. *)
Definition marked_hidden (t : TileDefn) : Prop := hidden t = Some true.

(** The constraint sources in front of a modifier position, in the order
    the claim gives: the actuator, the sensor, then the modifiers placed. *)
Definition modifier_sources (rule : RuleDefn) (placed : list TileRef)
  : list (option Constraints) :=
  anchor_constraints (actuator rule)
  :: anchor_constraints (sensor rule)
  :: (constraints_of <$> placed).

(** What one source lists under a field; nothing when the source or the
    field is missing. *)
Definition entries (proj : Constraints → option (list string))
    (src : option Constraints) : list string :=
  match src with
  | Some c => default [] (proj c)
  | None => []
  end.

Definition allow_tiles (c : Constraints) : option (list string) :=
  match allow c with Some s => sel_tiles s | None => None end.
Definition allow_categories (c : Constraints) : option (list string) :=
  match allow c with Some s => sel_categories s | None => None end.
Definition disallow_tiles (c : Constraints) : option (list string) :=
  match disallow c with Some s => sel_tiles s | None => None end.
Definition disallow_categories (c : Constraints) : option (list string) :=
  match disallow c with Some s => sel_categories s | None => None end.

(** The entries the sources list under one field, source after source,
    duplicates kept. *)
Definition listed (proj : Constraints → option (list string))
    (sources : list (option Constraints)) : list string :=
  flat_map (entries proj) sources.

(** The value a source writes under a handling key, if any. *)
Definition writes (key : string) (src : option Constraints) : option HVal :=
  match src with
  | Some c =>
      match handling c with
      | Some h => h !! key
      | None => None
      end
  | None => None
  end.

(** The value of the last source, in order, that writes the key. *)
Definition last_writer (key : string) (sources : list (option Constraints))
  : option HVal :=
  fold_left (λ held src, from_option Some held (writes key src)) sources None.

(** The candidates of [getModifierSuggestions]: the visible modifiers of
    the catalog by weight. *)
Definition all_modifiers : list TileDefn :=
  Array_sort by_weight
    (List.filter not_hidden (Object_values (db_modifiers tiles))).

(** "When it sees something, move quickly toward it", two modifiers placed. *)
Definition chase_rule : RuleDefn :=
  {| condition := RuleCondition.DEFAULT;
     sensor := Some (Tile sensor_see);
     filters := [];
     actuator := Some (Tile actuator_move);
     modifiers := [Some (Tile modifier_quickly); Some (Tile modifier_toward)] |}.

(** Two sources that disagree on one handling key. *)
Definition handling_only (key : string) (v : HVal) : option Constraints :=
  Some {| provides := None; requires := None; allow := None; disallow := None;
          handling := Some (list_to_map [(key, v)]) |}.

(** A tile reference into a partition of the catalog: the tile is the entry
    the partition holds under the tile's identifier. *)
Definition in_partition (part : list (string * TileDefn)) (t : TileDefn) : Prop :=
  obj_get part (tid t) = Some t.

Definition resolved_anchor (part : list (string * TileDefn))
    (anchor : option TileRef) : Prop :=
  match anchor with
  | Some (Tile t) => in_partition part t
  | Some (Inherited _) => False
  | None => True
  end.

Definition resolved_chain (part : list (string * TileDefn))
    (chain : list (option TileRef)) : Prop :=
  Forall (λ slot, ∃ t, slot = Some (Tile t) ∧ in_partition part t) chain.

(** Every tile a rule references exists in the catalog, in the partition of
    its slot. *)
Definition resolved_rule (r : RuleDefn) : Prop :=
  resolved_anchor (db_sensors tiles) (sensor r) ∧
  resolved_chain (db_filters tiles) (filters r) ∧
  resolved_anchor (db_actuators tiles) (actuator r) ∧
  resolved_chain (db_modifiers tiles) (modifiers r).

Definition resolved_page (p : PageDefn) : Prop := Forall resolved_rule (rules p).
Definition resolved_brain (b : BrainDefn) : Prop := Forall resolved_page (pages b).

(** The rule carries a condition, i.e. not the empty string. *)
Definition conditioned_rule (r : RuleDefn) : Prop := condition r ≠ "".
Definition conditioned_page (p : PageDefn) : Prop := Forall conditioned_rule (rules p).
Definition conditioned_brain (b : BrainDefn) : Prop := Forall conditioned_page (pages b).

(** Decoding what encoding returns gives the value back. *)
Definition round_trips {T} (encode : T → Result JsVal)
    (decode : JsVal → Result T) (x : T) : Prop :=
  ∃ obj, encode x = Ok obj ∧ decode obj = Ok x.

(** A five-page brain whose one rule has the [See] sensor of the catalog
    and the empty string as condition. *)
Definition blank_condition_brain : BrainDefn :=
  {| pages :=
       [ {| rules := [with_condition see_rule ""] |};
         PageDefn_new; PageDefn_new; PageDefn_new; PageDefn_new ] |}.

(** A five-page brain with the two sample rules on its first page. *)
Definition sample_brain : BrainDefn :=
  {| pages :=
       [ {| rules := [chase_rule; switch_rule] |};
         PageDefn_new; PageDefn_new; PageDefn_new; PageDefn_new ] |}.

(** What the two conditional deletions leave under each key. *)
Definition keep_truthy (v : option JsVal) : option JsVal :=
  match v with
  | Some v => if truthy v then Some v else None
  | None => None
  end.

Definition keep_nonempty (v : option JsVal) : option JsVal :=
  match v with
  | Some (JArr []) => None
  | _ => v
  end.


(** A saved brain with two pages. *)
Definition two_page_record : JsVal :=
  JObj [("P", JArr [JObj []; JObj [("R", JArr [JObj [("S", JStr "S2")]])]])].

(** A tile outside the catalog that declares weight [w]. *)
Definition weighted (w : Z) : TileDefn :=
  {| type := SENSOR; tid := "S0"; name := "w"; weight := Some w;
     hidden := None; category := None; constraints := None;
     phase := Some pre; priority := None |}.

(** The dependency invariant [ensureValid] repairs: no filters without a
    sensor, no modifiers without an actuator. *)
Definition valid_rule (r : RuleDefn) : Prop :=
  (sensor r = None → filters r = []) ∧ (actuator r = None → modifiers r = []).

(** A rule one of whose chain slots is [undefined]. *)
Definition holey_rule (r : RuleDefn) : Prop :=
  None ∈ filters r ∨ None ∈ modifiers r.

(** A partition files its entries well when each entry sits under its own
    [tid] and has the partition's tile type. *)
Definition filed (ty : TileType) (part : list (string * TileDefn)) : Prop :=
  Forall (λ entry, tid entry.2 = entry.1 ∧ type entry.2 = ty) part.

(** The four partitions of the catalog: the tile type, the literal as the
    source lists it, and the object the literal evaluates to. *)
Definition partitions
  : list (TileType * list (string * TileDefn) * list (string * TileDefn)) :=
  [ (SENSOR, sensors_literal, db_sensors tiles);
    (FILTER, filters_literal, db_filters tiles);
    (ACTUATOR, actuators_literal, db_actuators tiles);
    (MODIFIER, modifiers_literal, db_modifiers tiles) ].

(** Every entry the source lists, in any of the four literals. *)
Definition catalog_entries : list (string * TileDefn) :=
  sensors_literal ++ filters_literal ++ actuators_literal ++ modifiers_literal.

(** An anchor that is unset or holds a tile, and a chain that holds a tile
    in every slot: nothing [undefined] in the chain, no inherited member
    anywhere. *)
Definition tile_or_unset (anchor : option TileRef) : Prop :=
  anchor = None ∨ ∃ t, anchor = Some (Tile t).
Definition tiles_throughout (chain : list (option TileRef)) : Prop :=
  Forall (λ slot, ∃ t, slot = Some (Tile t)) chain.

(** A rule, page, brain that holds tiles only and keeps its condition. *)
Definition whole_rule (r : RuleDefn) : Prop :=
  tile_or_unset (sensor r) ∧ tiles_throughout (filters r) ∧
  tile_or_unset (actuator r) ∧ tiles_throughout (modifiers r) ∧
  condition r ≠ "".
Definition whole_page (p : PageDefn) : Prop := Forall whole_rule (rules p).
Definition whole_brain (b : BrainDefn) : Prop := Forall whole_page (pages b).

(** The tiles a decoded rule holds are catalog entries: each slot that
    holds a tile holds the entry under the tile's identifier. *)
Definition from_catalog (r : RuleDefn) : Prop :=
  (∀ t, sensor r = Some (Tile t) → in_partition (db_sensors tiles) t) ∧
  (∀ t, actuator r = Some (Tile t) → in_partition (db_actuators tiles) t) ∧
  Forall (λ slot, ∀ t, slot = Some (Tile t) → in_partition (db_filters tiles) t)
    (filters r) ∧
  Forall (λ slot, ∀ t, slot = Some (Tile t) → in_partition (db_modifiers tiles) t)
    (modifiers r).

(** The candidates of [getFilterSuggestions]: the visible filters of the
    catalog by weight. *)
Definition all_filters : list TileDefn :=
  Array_sort by_weight
    (List.filter not_hidden (Object_values (db_filters tiles))).

(** The constraint sources in front of a filter position: the sensor, then
    the filters placed. *)
Definition filter_sources (rule : RuleDefn) (placed : list TileRef)
  : list (option Constraints) :=
  anchor_constraints (sensor rule) :: (constraints_of <$> placed).

(** A source allows a tile when it lists the tile's category under
    [allow.categories] or the tile's identifier under [allow.tiles];
    likewise for [disallow]. *)
Definition allows (src : option Constraints) (t : TileDefn) : Prop :=
  (∃ cat, category t = Some cat ∧ cat ∈ entries allow_categories src)
  ∨ tid t ∈ entries allow_tiles src.

Definition disallows (src : option Constraints) (t : TileDefn) : Prop :=
  (∃ cat, category t = Some cat ∧ cat ∈ entries disallow_categories src)
  ∨ tid t ∈ entries disallow_tiles src.

(** The requirement list of a tile, if it has one. *)
Definition requirements (t : TileDefn) : option (list string) :=
  match constraints t with
  | Some c => requires c
  | None => None
  end.

(** A tile's needs are met when it has no requirement list, or some entry
    of the list is provided by one of the sources. *)
Definition needs_met (sources : list (option Constraints)) (t : TileDefn) : Prop :=
  match requirements t with
  | None => True
  | Some reqs =>
      ∃ req src, req ∈ reqs ∧ src ∈ sources ∧ req ∈ entries provides src
  end.

(** A tile may follow the sources: it is a candidate, its needs are met, some
    source allows it and no source disallows it. *)
Definition may_follow (all : list TileDefn) (sources : list (option Constraints))
    (t : TileDefn) : Prop :=
  t ∈ all ∧ needs_met sources t
  ∧ (∃ src, src ∈ sources ∧ allows src t)
  ∧ (∀ src, src ∈ sources → ¬ disallows src t).

(* ===================================================================== *)
(** ** Menu *)
(* ===================================================================== *)

Inductive MenuDirection := MenuUp | MenuDown | MenuRight.

Record MenuItemDefn := { icon : string; label : string }.

(** What [icons.get] returns, as far as the menu reads it. *)
Record Image := { width : Z; height : Z }.

(** A button, by the arguments [Menu.show] constructs it with: the style
    ["white"], the item's icon and label, the position and the [hud] flag
    (the stage and the callback are left out). *)
Record Button := {
  button_style : string;
  button_icon : string;
  button_label : string;
  button_x : Z;
  button_y : Z;
  button_hud : bool
}.

Record Menu := {
  items : list MenuItemDefn;
  hud : bool;
  wrap : Z;
  buttons : list Button
}.

Definition with_buttons (this : Menu) (bs : list Button) : Menu :=
  {| items := items this; hud := hud this; wrap := wrap this; buttons := bs |}.

Definition Menu_isVisible (this : Menu) : bool :=
  0 <? Z.of_nat (length (buttons this)).

(** [hide]: every button is destroyed, then [this.buttons = []]. *)
Definition Menu_hide (this : Menu) : Menu := with_buttons this [].

Section MenuShow.

(** [icons.get] belongs to a file that is not part of these sources: the
    menu is parameterised by it. *)
Variable icons_get : string → Image.

(** One round of the [forEach] in [show]: the button for [item] is made at
    the current position, the position advances in [direction], and after
    every [wrap]-th item (but never after the first) it moves on to the
    next line, back at the origin of the main axis. *)
Definition show_item (this : Menu) (direction : MenuDirection) (origX origY : Z)
    (st : Z * Z * list Button) (item : MenuItemDefn) (index : Z)
  : Z * Z * list Button :=
  let '(x, y, bs) := st in
  let icon_ := icons_get (icon item) in
  let button :=
    {| button_style := "white"; button_icon := icon item;
       button_label := label item; button_x := x; button_y := y;
       button_hud := hud this |} in
  let bs := bs ++ [button] in
  let '(x, y) :=
    match direction with
    | MenuRight => (x + width icon_, y)
    | MenuUp => (x, y - height icon_)
    | MenuDown => (x, y + height icon_)
    end in
  let '(x, y) :=
    if (0 <? wrap this) && (0 <? index) && (Z.rem (index + 1) (wrap this) =? 0)
    then
      match direction with
      | MenuRight => (origX, y + height icon_)
      | MenuUp => (x - width icon_, origY)
      | MenuDown => (x + width icon_, origY)
      end
    else (x, y) in
  (x, y, bs).

(** [this.items.forEach((item, index) => ...)] from [index] on. *)
Fixpoint show_items (this : Menu) (direction : MenuDirection) (origX origY : Z)
    (todo : list MenuItemDefn) (index : Z) (st : Z * Z * list Button)
  : Z * Z * list Button :=
  match todo with
  | [] => st
  | item :: todo' =>
      show_items this direction origX origY todo' (index + 1)
        (show_item this direction origX origY st item index)
  end.

Definition Menu_show (this : Menu) (x y : Z) (direction : MenuDirection) : Menu :=
  let this := if Menu_isVisible this then Menu_hide this else this in
  with_buttons this
    (show_items this direction x y (items this) 0 (x, y, buttons this)).2.

End MenuShow.

(* ===================================================================== *)
(** ** Stage *)
(* ===================================================================== *)

(** Stages and components are objects compared by identity; they are named
    by numbers. The world holds, for each stage, its [components] array
    (no entry while the field is [undefined] or [null], i.e. before
    [initScene] and after [shutdownScene]) and, for each component, the
    stage its [stage] field points to (no entry for [null]). *)
Record World := {
  components : gmap nat (list nat);
  stage_of : gmap nat nat
}.

(** [this.components = this.components.filter(c => c !== comp);
     comp.stage = null;] *)
Definition Stage_remove (this comp : nat) (w : World) : Result World :=
  match components w !! this with
  | None => Throw TypeError
  | Some cs =>
      Ok {| components :=
              <[this := List.filter (λ c, negb (Nat.eqb c comp)) cs]> (components w);
            stage_of := delete comp (stage_of w) |}
  end.

(** [this.remove(comp); this.components.push(comp); comp.stage = this;]
    (the [some] test before it raises on a stage without components and
    changes nothing otherwise). *)
Definition Stage_add (this comp : nat) (w : World) : Result World :=
  match components w !! this with
  | None => Throw TypeError
  | Some _ =>
      w ← Stage_remove this comp w;
      match components w !! this with
      | None => Throw TypeError
      | Some cs =>
          Ok {| components := <[this := cs ++ [comp]]> (components w);
                stage_of := <[comp := this]> (stage_of w) |}
      end
  end.

(** The menu cell of item [i]: its place along the main axis and the line
    it is on, when lines hold [wrap] items; one endless line when [wrap]
    is 0 or less. *)
Definition menu_cell (wrap i : Z) : Z * Z :=
  if 0 <? wrap then (i mod wrap, i / wrap) else (i, 0).

(** Where the button of item [i] is put when all icons have the size of
    [img]. *)
Definition menu_position (direction : MenuDirection) (img : Image)
    (x y wrap : Z) (i : Z) : Z * Z :=
  let '(along, line) := menu_cell wrap i in
  match direction with
  | MenuRight => (x + along * width img, y + line * height img)
  | MenuUp => (x - line * width img, y - along * height img)
  | MenuDown => (x + line * width img, y + along * height img)
  end.

(** The button [show] makes for an item at a position. *)
Definition menu_button (this : Menu) (item : MenuItemDefn) (pos : Z * Z) : Button :=
  {| button_style := "white"; button_icon := icon item;
     button_label := label item; button_x := pos.1; button_y := pos.2;
     button_hud := hud this |}.

(** Icons of 16 by 16 pixels, whatever the name. *)
Definition icons16 (name : string) : Image := {| width := 16; height := 16 |}.

Definition sample_menu : Menu :=
  {| items := [ {| icon := "a"; label := "A" |}; {| icon := "b"; label := "B" |};
                {| icon := "c"; label := "C" |}; {| icon := "d"; label := "D" |};
                {| icon := "e"; label := "E" |} ];
     hud := true; wrap := 2; buttons := [] |}.

(** A call of [add] or of [remove] on a stage, and a run of such calls; the
    first call that raises ends the run. *)
Inductive StageCall :=
| CallAdd (stage comp : nat)
| CallRemove (stage comp : nat).

Definition Stage_call (c : StageCall) (w : World) : Result World :=
  match c with
  | CallAdd stage comp => Stage_add stage comp w
  | CallRemove stage comp => Stage_remove stage comp w
  end.

Fixpoint Stage_calls (calls : list StageCall) (w : World) : Result World :=
  match calls with
  | [] => Ok w
  | c :: calls' => w ← Stage_call c w; Stage_calls calls' w
  end.

(** What [filter(c => c !== comp)] keeps. *)
Definition without (comp : nat) (cs : list nat) : list nat :=
  List.filter (λ c, negb (Nat.eqb c comp)) cs.

(** No array lists a component twice, and a component whose [stage] field
    points to a stage with an array is listed in that array. *)
Definition tidy (w : World) : Prop :=
  map_Forall (λ _ cs, NoDup cs) (components w)
  ∧ map_Forall (λ c s, ∀ cs, components w !! s = Some cs → c ∈ cs) (stage_of w).

(** Two stages after [initScene], no component yet. *)
Definition two_stages : World :=
  {| components := {[ 0%nat := []; 1%nat := [] ]}; stage_of := ∅ |}.

(* ===================================================================== *)
(** * Properties *)
(* ===================================================================== *)

(** ** Sample runs of the engine and the codec on the catalog *)

Example sensors_by_weight :
  map name (getSensorSuggestions RuleDefn_new)
  = ["See"; "Bump"; "DPad"; "A"; "B"; "Timer"].
Proof. vm_compute. reflexivity. Qed.

Example actuators_by_weight :
  map name (getActuatorSuggestions RuleDefn_new)
  = ["Move"; "Switch page"; "Express"; "Vanish"; "Keep in view"].
Proof. vm_compute. reflexivity. Qed.

(** With sensor [See] and no filter placed, [Kodu] is suggested. *)
Example see_suggests_kodu :
  names (getFilterSuggestions see_rule 0)
  = Ok ["Kodu"; "Tree"; "Apple"; "nearby"; "far away";
        "none"; "happy"; "angry"; "heart"; "sad"].
Proof. vm_compute. reflexivity. Qed.

(** After [Kodu], no further [subject] filter ([Tree], [Apple]) is suggested. *)
Example kodu_excludes_tree :
  names (getFilterSuggestions (with_filters see_rule [Some (Tile filter_kodu)]) 1)
  = Ok ["nearby"; "far away"; "none"; "happy"; "angry"; "heart"; "sad"].
Proof. vm_compute. reflexivity. Qed.

Example encode_see_kodu :
  RuleDefn_toObj (with_filters see_rule [Some (Tile filter_kodu)])
  = Ok (JObj [("C", JStr "RC0"); ("S", JStr "S2"); ("F", JArr [JStr "F1"])]).
Proof. vm_compute. reflexivity. Qed.

Example encode_new_brain :
  BrainDefn_toObj BrainDefn_new
  = Ok (JObj [("P", JArr [JObj []; JObj []; JObj []; JObj []; JObj []])]).
Proof. vm_compute. reflexivity. Qed.

Example filter_keys :
  Object_keys (db_filters tiles)
  = ["F1"; "F2"; "F3"; "F4"; "F5"; "F8"; "F9"; "F10"; "F11"; "F12"; "F13"; "F14"].
Proof. vm_compute. reflexivity. Qed.

Example array_as_key : to_string (JArr [JStr "F1"; JNull; JNum (-12)]) = "F1,,-12".
Proof. vm_compute. reflexivity. Qed.

(** An identifier that names a member every object inherits decodes to
    that member, not to [undefined]. *)
Example decode_inherited_sensor :
  RuleDefn_FromObj rejecting_parse (JObj [("S", JStr "constructor")])
  = Ok (with_sensor RuleDefn_new (Some (Inherited "constructor"))).
Proof. reflexivity. Qed.

(** The encoder reads [undefined] off an inherited member: no [S], and
    [undefined] in the array; it does not raise. *)
Example encode_inherited :
  RuleDefn_FromObj rejecting_parse
    (JObj [("S", JStr "constructor"); ("F", JArr [JStr "toString"])])
  = Ok {| condition := "RC0"; sensor := Some (Inherited "constructor");
          filters := [Some (Inherited "toString")];
          actuator := None; modifiers := [] |}
  ∧ RuleDefn_toObj
      {| condition := "RC0"; sensor := Some (Inherited "constructor");
         filters := [Some (Inherited "toString")];
         actuator := None; modifiers := [] |}
    = Ok (JObj [("C", JStr "RC0"); ("F", JArr [JUndefined])]).
Proof. split; reflexivity. Qed.

(** An inherited member in a chain has no constraints: it contributes
    nothing to the suggestions behind it. *)
Example inherited_filter_is_neutral :
  getFilterSuggestions (with_filters see_rule [Some (Inherited "toString")]) 1
  = getFilterSuggestions see_rule 0.
Proof. reflexivity. Qed.

(** ** Objects *)

Section ObjFacts.
Context {V : Type}.
Implicit Types (o : list (string * V)) (k : string).

Lemma obj_get_delete_eq o k : obj_get (obj_delete o k) k = None.
Proof.
  induction o as [|[k' v] o IH]; simpl; [done|].
  destruct (String.eqb k' k) eqn:E; simpl; [done|]. by rewrite E.
Qed.

Lemma obj_get_delete_ne o k k' : k ≠ k' → obj_get (obj_delete o k) k' = obj_get o k'.
Proof.
  intros Hne. induction o as [|[k0 v] o IH]; simpl; [done|].
  destruct (String.eqb k0 k) eqn:E; simpl.
  - apply String.eqb_eq in E as ->.
    destruct (String.eqb k k') eqn:E'; [|done].
    by apply String.eqb_eq in E'.
  - by rewrite IH.
Qed.

Lemma obj_get_set_eq o k v : obj_get (obj_set o k v) k = Some v.
Proof.
  induction o as [|[k' v'] o IH]; simpl.
  - by rewrite String.eqb_refl.
  - destruct (String.eqb k' k) eqn:E; simpl; by rewrite E.
Qed.

Lemma obj_get_set_ne o k k' v : k ≠ k' → obj_get (obj_set o k v) k' = obj_get o k'.
Proof.
  intros Hne. induction o as [|[k0 v0] o IH]; simpl.
  - destruct (String.eqb k k') eqn:E; [|done]. by apply String.eqb_eq in E.
  - destruct (String.eqb k0 k) eqn:E; simpl.
    + apply String.eqb_eq in E as ->.
      destruct (String.eqb k k') eqn:E'; [|done]. by apply String.eqb_eq in E'.
    + by rewrite IH.
Qed.
End ObjFacts.

(** ** [ensureValid] *)

(** C7. After [ensureValid], a rule without sensor has no filters and a rule
    without actuator has no modifiers; condition, sensor and actuator are
    untouched, a chain whose anchor is present is untouched, and a second
    application changes nothing. *)
Theorem ensureValid_repairs (r : RuleDefn) :
  (sensor r = None → filters (ensureValid r) = []) ∧
  (actuator r = None → modifiers (ensureValid r) = []) ∧
  condition (ensureValid r) = condition r ∧
  sensor (ensureValid r) = sensor r ∧
  actuator (ensureValid r) = actuator r ∧
  (is_Some (sensor r) → filters (ensureValid r) = filters r) ∧
  (is_Some (actuator r) → modifiers (ensureValid r) = modifiers r) ∧
  ensureValid (ensureValid r) = ensureValid r.
Proof.
  destruct r as [c [s|] fs [a|] ms]; cbn; repeat split; try done;
    intros [? [=]].
Qed.

(** The repair at work: a rule that lost its sensor but kept a filter. *)
Lemma ensureValid_repairs_witness :
  filters (ensureValid (with_filters RuleDefn_new [Some (Tile filter_kodu)])) = [] ∧
  ensureValid (ensureValid (with_filters RuleDefn_new [Some (Tile filter_kodu)]))
  = ensureValid (with_filters RuleDefn_new [Some (Tile filter_kodu)]).
Proof.
  pose proof (ensureValid_repairs (with_filters RuleDefn_new [Some (Tile filter_kodu)]))
    as (Hf & _ & _ & _ & _ & _ & _ & Hi).
  split; [apply Hf; reflexivity | exact Hi].
Defined.

(** ** Pages *)

(** [deleteRuleAt] with an index outside the page leaves the page as it is. *)
Lemma PageDefn_deleteRuleAt_out_of_range (p : PageDefn) (index : Z) :
  index < 0 ∨ Z.of_nat (length (rules p)) ≤ index →
  PageDefn_deleteRuleAt p index = p.
Proof.
  intros H. unfold PageDefn_deleteRuleAt.
  destruct (Z.leb_spec 0 index), (Z.ltb_spec index (Z.of_nat (length (rules p))));
    simpl; try done; lia.
Qed.

(** [trim] drops the trailing empty rule only. *)
Example PageDefn_trim_trailing :
  PageDefn_trim {| rules := [RuleDefn_new; RuleDefn_new; see_rule; RuleDefn_new] |}
  = {| rules := [RuleDefn_new; RuleDefn_new; see_rule] |}.
Proof. reflexivity. Qed.

(** ** Traversals that may raise *)

Lemma mapM_nil {A B} (f : A → Result B) : mapM f [] = Ok [].
Proof. reflexivity. Qed.

Lemma mapM_cons {A B} (f : A → Result B) (x : A) (l : list A) :
  mapM f (x :: l)
  = match f x with
    | Ok y => match mapM f l with Ok k => Ok (y :: k) | Throw e => Throw e end
    | Throw e => Throw e
    end.
Proof. reflexivity. Qed.

Lemma mapM_Ok_length {A B} (f : A → Result B) (l : list A) (ys : list B) :
  mapM f l = Ok ys → length ys = length l.
Proof.
  revert ys. induction l as [|x l IH]; intros ys.
  - by intros [= <-].
  - rewrite mapM_cons. destruct (f x) as [y|]; [|done].
    destruct (mapM f l) as [k|]; [|done].
    intros [= <-]. simpl. f_equal. by apply IH.
Qed.

Lemma mapM_Ok_Forall {A B} (f : A → Result B) (l : list A) :
  Forall (λ x, ∃ y, f x = Ok y) l → ∃ ys, mapM f l = Ok ys.
Proof.
  induction 1 as [|x l [y Hy] _ [ys IH]]; [by eexists|].
  rewrite mapM_cons, Hy, IH. by eexists.
Qed.

Lemma defined_inv (chain : list (option TileRef)) :
  defined chain → ∃ ts, chain = Some <$> ts.
Proof.
  induction 1 as [|e chain [t ->] _ [ts ->]]; [by exists []|]. by exists (t :: ts).
Qed.

Lemma mapM_tid_of (es : list TileRef) :
  mapM tid_of (Some <$> es) = Ok (ref_tid <$> es).
Proof.
  induction es as [|e es IH]; [done|].
  rewrite !fmap_cons, mapM_cons, IH. reflexivity.
Qed.

(** A chain of tiles: its slots, and the identifiers [toObj] reads off it. *)
Lemma fmap_Some_Tile (ts : list TileDefn) :
  (λ t, Some (Tile t)) <$> ts = Some <$> (Tile <$> ts).
Proof. by rewrite <- list_fmap_compose. Qed.

Lemma ref_tid_Tile (ts : list TileDefn) :
  ref_tid <$> (Tile <$> ts) = (λ t, JStr (tid t)) <$> ts.
Proof. by rewrite <- list_fmap_compose. Qed.

(** ** Encoding a rule *)

(** Encoding succeeds on a rule whose chains have no [undefined] slot. *)
Lemma RuleDefn_toObj_defined (r : RuleDefn) :
  defined (filters r) → defined (modifiers r) →
  ∃ o, RuleDefn_toObj r = Ok (JObj o).
Proof.
  intros [fs Hfs]%defined_inv [ms Hms]%defined_inv.
  unfold RuleDefn_toObj. rewrite Hfs, Hms, !mapM_tid_of. simpl. by eexists.
Qed.

Lemma key_name_inj (k k' : Key) : key_name k = key_name k' → k = k'.
Proof. by destruct k, k'. Qed.

Lemma field_delete_if_falsy_eq o k :
  field (delete_if_falsy o k) k = keep_truthy (field o k).
Proof.
  unfold delete_if_falsy, field, keep_truthy.
  destruct (obj_get o (key_name k)) as [v|] eqn:E; simpl.
  - destruct (truthy v); simpl; [done|]. apply obj_get_delete_eq.
  - apply obj_get_delete_eq.
Qed.

Lemma field_delete_if_falsy_ne o k k' :
  k ≠ k' → field (delete_if_falsy o k) k' = field o k'.
Proof.
  intros Hne. unfold delete_if_falsy, field.
  destruct (negb _); [|done].
  apply obj_get_delete_ne. intros ?%key_name_inj. done.
Qed.

Lemma field_delete_if_no_length_eq o k :
  field (delete_if_no_length o k) k = keep_nonempty (field o k).
Proof.
  unfold delete_if_no_length, field, keep_nonempty.
  destruct (obj_get o (key_name k)) as [[| | | | |[|]|]|] eqn:E;
    try done; apply obj_get_delete_eq.
Qed.

Lemma field_delete_if_no_length_ne o k k' :
  k ≠ k' → field (delete_if_no_length o k) k' = field o k'.
Proof.
  intros Hne. unfold delete_if_no_length, field.
  destruct (obj_get o (key_name k)) as [[| | | | |[|]|]|]; try done.
  apply obj_get_delete_ne. intros ?%key_name_inj. done.
Qed.

(** The record [toObj] returns, key by key. *)
Lemma RuleDefn_toObj_fields (r : RuleDefn) (o : list (string * JsVal)) :
  RuleDefn_toObj r = Ok (JObj o) →
  ∃ F M,
    mapM tid_of (filters r) = Ok F ∧
    mapM tid_of (modifiers r) = Ok M ∧
    field o kC = keep_truthy (Some (JStr (condition r))) ∧
    field o kS = keep_truthy (Some (tid_or_undefined (sensor r))) ∧
    field o kA = keep_truthy (Some (tid_or_undefined (actuator r))) ∧
    field o kF = keep_nonempty (Some (JArr F)) ∧
    field o kM = keep_nonempty (Some (JArr M)).
Proof.
  unfold RuleDefn_toObj.
  destruct (mapM tid_of (filters r)) as [F|]; [|done].
  destruct (mapM tid_of (modifiers r)) as [M|]; [|done].
  intros [= <-]. exists F, M. split; [done|]. split; [done|].
  repeat split;
    repeat first
      [ rewrite field_delete_if_no_length_eq
      | rewrite field_delete_if_falsy_eq
      | rewrite field_delete_if_no_length_ne by done
      | rewrite field_delete_if_falsy_ne by done ];
    reflexivity.
Qed.

Lemma RuleDefn_toObj_record_omits (r : RuleDefn) (o : list (string * JsVal)) :
  RuleDefn_toObj r = Ok (JObj o) →
  (field o kC = None ↔ condition r = "") ∧
  (condition r ≠ "" → field o kC = Some (JStr (condition r))) ∧
  (sensor r = None → field o kS = None) ∧
  (actuator r = None → field o kA = None) ∧
  (filters r = [] → field o kF = None) ∧
  (modifiers r = [] → field o kM = None).
Proof.
  intros (F & M & HF & HM & -> & -> & -> & -> & ->)%RuleDefn_toObj_fields.
  simpl. destruct (String.eqb_spec (condition r) "") as [Hc|Hc]; simpl.
  all: repeat split; try done.
  all: try (intros ->; done).
  all: intros Hnil; rewrite Hnil in *.
  - by injection HF as <-.
  - by injection HM as <-.
  - by injection HF as <-.
  - by injection HM as <-.
Qed.

(** C2, as the code has it. The encoder returns a record for every rule
    whose chains have no [undefined] slot, and deletes from it a key whose
    value is falsy or an empty array: [C] is left out exactly when the
    condition is the empty string (a rule with the default condition keeps
    [C = "RC0"]); [S] and [A] are left out when the sensor, resp. actuator,
    is absent; [F] and [M] are left out when the chain is empty. *)
Theorem RuleDefn_toObj_omits (r : RuleDefn) :
  (defined (filters r) → defined (modifiers r) →
   ∃ o, RuleDefn_toObj r = Ok (JObj o)) ∧
  (∀ o, RuleDefn_toObj r = Ok (JObj o) →
     (field o kC = None ↔ condition r = "") ∧
     (condition r ≠ "" → field o kC = Some (JStr (condition r))) ∧
     (sensor r = None → field o kS = None) ∧
     (actuator r = None → field o kA = None) ∧
     (filters r = [] → field o kF = None) ∧
     (modifiers r = [] → field o kM = None)).
Proof.
  split; [apply RuleDefn_toObj_defined | apply RuleDefn_toObj_record_omits].
Qed.

(** The default rule is encoded, with [C] and without [S]. *)
Lemma RuleDefn_toObj_omits_witness :
  ∃ o, RuleDefn_toObj RuleDefn_new = Ok (JObj o)
       ∧ field o kC = Some (JStr "RC0") ∧ field o kS = None.
Proof.
  destruct (RuleDefn_toObj_omits RuleDefn_new) as [Hex Hrec].
  destruct Hex as [o Ho]; [constructor | constructor |].
  destruct (Hrec o Ho) as (_ & Hc & Hs & _).
  exists o. split; [exact Ho|].
  split; [apply Hc; discriminate | apply Hs; reflexivity].
Defined.

(** C2 as stated fails: the default rule has the default condition and its
    record carries [C]. *)
Lemma RuleDefn_toObj_keeps_default_condition :
  condition RuleDefn_new = RuleCondition.DEFAULT ∧
  ∃ o, RuleDefn_toObj RuleDefn_new = Ok (JObj o) ∧ field o kC = Some (JStr "RC0").
Proof. split; [reflexivity|]. eexists. split; reflexivity. Qed.

(** ** Decoding a rule *)

Section DecodeFacts.
Variable JSON_parse : string → Result JsVal.

(** On a record, the decoder reads the five keys, in order, and nothing
    else; an absent key reads as [undefined]. *)
Lemma RuleDefn_FromObj_record (o : list (string * JsVal)) :
  let get k := default JUndefined (field o k) in
  RuleDefn_FromObj JSON_parse (JObj o)
  = Ok (read_modifiers
          (read_filters
             (read_actuator
                (read_sensor
                   (read_condition RuleDefn_new (get kC))
                   (get kS))
                (get kA))
             (get kF))
          (get kM)).
Proof. reflexivity. Qed.


Lemma PageDefn_FromObj_record (o : list (string * JsVal)) :
  PageDefn_FromObj JSON_parse (JObj o)
  = match field o kR with
    | Some (JArr rules) =>
        (λ rs, {| rules := rs |}) <$> mapM (RuleDefn_FromObj JSON_parse) rules
    | _ => Ok PageDefn_new
    end.
Proof.
  unfold PageDefn_FromObj, field. cbn.
  destruct (obj_get o "R") as [[| | | | |rules|]|]; reflexivity.
Qed.

(** At the page level too, an [R] that is not an array reads as no rules. *)
Lemma PageDefn_FromObj_wrong_shape_as_absent (o : list (string * JsVal)) (v : JsVal) :
  field o kR = Some v → Array_isArray v = false →
  PageDefn_FromObj JSON_parse (JObj o) = Ok PageDefn_new.
Proof.
  intros Hv Hw. rewrite PageDefn_FromObj_record, Hv. by destruct v.
Qed.

End DecodeFacts.


(** ** Page count of a brain *)

Section PageCount.
Variable JSON_parse : string → Result JsVal.

(** Decoding a brain whose [P] is an array maps the page decoder over it. *)
Lemma BrainDefn_FromObj_array (input obj : JsVal) (ps : list JsVal) :
  parse_if_string JSON_parse input = Ok obj →
  get_field obj kP = Ok (JArr ps) →
  BrainDefn_FromObj JSON_parse input
  = (λ pages, {| pages := pages |}) <$> mapM (PageDefn_FromObj JSON_parse) ps.
Proof.
  intros Hparse Hp. unfold BrainDefn_FromObj. rewrite Hparse. cbn.
  assert (truthy obj = true) as ->.
  { destruct obj as [| | | | | |o]; try discriminate Hp.
    reflexivity. }
  rewrite Hp. cbn.
  by destruct (mapM (PageDefn_FromObj JSON_parse) ps).
Qed.

(** C10. Every brain made by the constructor, by [clone] or by [trim] (and
    by editing pages in place) has exactly 5 pages: the constructor builds
    5, and [clone] and [trim] keep the number of pages of the brain they are
    applied to. [FromObj] does not restore the count: on an input whose [P]
    is an array of [n] elements the decoded brain has [n] pages, and a brain
    is decoded whenever each element decodes as a page. *)
Theorem BrainDefn_page_count :
  (∀ b, made b → length (pages b) = 5%nat) ∧
  (∀ b, length (pages (BrainDefn_clone b)) = length (pages b)) ∧
  (∀ b, length (pages (BrainDefn_trim b)) = length (pages b)) ∧
  (∀ input obj ps,
     parse_if_string JSON_parse input = Ok obj →
     get_field obj kP = Ok (JArr ps) →
     (∀ b, BrainDefn_FromObj JSON_parse input = Ok b →
           length (pages b) = length ps) ∧
     (Forall (λ p, ∃ page, PageDefn_FromObj JSON_parse p = Ok page) ps →
      ∃ b, BrainDefn_FromObj JSON_parse input = Ok b)).
Proof.
  assert (Hclone : ∀ b, length (pages (BrainDefn_clone b)) = length (pages b))
    by (intros b; cbn; apply length_map).
  assert (Htrim : ∀ b, length (pages (BrainDefn_trim b)) = length (pages b))
    by (intros b; cbn; apply length_map).
  split; [|split; [exact Hclone|split; [exact Htrim|]]].
  - induction 1 as [|b _ IH|b _ IH|b i p _ IH].
    + reflexivity.
    + by rewrite Hclone.
    + by rewrite Htrim.
    + cbn [pages]. by rewrite length_insert.
  - intros input obj ps Hparse Hp.
    rewrite (BrainDefn_FromObj_array _ _ _ Hparse Hp).
    split.
    + intros b. destruct (mapM _ ps) as [pgs|] eqn:E; [|done].
      intros [= <-]. cbn. by apply mapM_Ok_length in E.
    + intros [pgs ->]%mapM_Ok_Forall. by eexists.
Qed.

End PageCount.

(** A saved brain with two pages decodes to a brain with two pages. *)
Lemma BrainDefn_page_count_witness :
  ∃ b, BrainDefn_FromObj rejecting_parse two_page_record = Ok b
       ∧ length (pages b) = 2%nat.
Proof.
  destruct (BrainDefn_page_count rejecting_parse) as (_ & _ & _ & H).
  destruct (H two_page_record two_page_record
              [JObj []; JObj [("R", JArr [JObj [("S", JStr "S2")]])]]
              eq_refl eq_refl) as [Hlen Hex].
  destruct Hex as [b Hb].
  - repeat constructor; eexists; reflexivity.
  - exists b. split; [exact Hb | exact (Hlen b Hb)].
Defined.

(** ** The tiles collected in front of an insertion index *)

Lemma collect_existing_length (chain : list (option TileRef)) (index : Z) :
  length (collect_existing chain index) = Z.to_nat index.
Proof. unfold collect_existing. by rewrite length_map, length_seq. Qed.

(** The last collected slot is [chain[index - 1]]. *)
Lemma collect_existing_last (chain : list (option TileRef)) (n : nat) :
  last (collect_existing chain (Z.of_nat n + 1)) = Some (array_get chain n).
Proof.
  unfold collect_existing.
  replace (Z.to_nat (Z.of_nat n + 1)) with (S n) by lia.
  rewrite seq_S, map_app. simpl. apply last_snoc.
Qed.

Lemma collect_existing_nonpositive (chain : list (option TileRef)) (index : Z) :
  index ≤ 0 → collect_existing chain index = [].
Proof.
  intros H. unfold collect_existing.
  by replace (Z.to_nat index) with 0%nat by lia.
Qed.

Lemma map_array_get_seq (chain : list (option TileRef)) (n : nat) :
  (n ≤ length chain)%nat → map (array_get chain) (seq 0 n) = take n chain.
Proof.
  induction n as [|n IH]; intros Hn; [done|].
  rewrite seq_S, map_app, IH by lia. simpl.
  destruct (lookup_lt_is_Some_2 chain n) as [e He]; [lia|].
  rewrite (take_S_r _ _ _ He). unfold array_get. by rewrite He.
Qed.

(** Within bounds, every collected slot is a slot of the chain. *)
Lemma collect_existing_in_bounds (chain : list (option TileRef)) (index : Z) :
  index ≤ Z.of_nat (length chain) →
  collect_existing chain index = take (Z.to_nat index) chain.
Proof. intros H. apply map_array_get_seq. lia. Qed.

Lemma array_get_beyond (chain : list (option TileRef)) (n : nat) :
  (length chain ≤ n)%nat → array_get chain n = None.
Proof. intros H. unfold array_get. by rewrite lookup_ge_None_2. Qed.

Lemma array_get_lookup (chain : list (option TileRef)) (n : nat) e :
  chain !! n = Some e → array_get chain n = e.
Proof. intros H. unfold array_get. by rewrite H. Qed.

Lemma map_array_get_beyond (chain : list (option TileRef)) (start n : nat) :
  (length chain ≤ start)%nat →
  map (array_get chain) (seq start n) = replicate n None.
Proof.
  revert start. induction n as [|n IH]; intros start Hs; [done|].
  simpl. rewrite array_get_beyond, IH by lia. done.
Qed.

(** From the end of the chain on, the loop collects [undefined]. *)
Lemma collect_existing_padded (chain : list (option TileRef)) (index : Z) :
  Z.of_nat (length chain) ≤ index →
  collect_existing chain index
  = chain ++ replicate (Z.to_nat index - length chain) None.
Proof.
  intros H. unfold collect_existing.
  replace (Z.to_nat index)
    with (length chain + (Z.to_nat index - length chain))%nat at 1 by lia.
  rewrite seq_app, map_app, map_array_get_seq, map_array_get_beyond by lia.
  by rewrite firstn_all.
Qed.

Lemma merge_existing_defined (c : Accum) (ts : list TileRef) :
  merge_existing c (Some <$> ts)
  = Ok (fold_left (λ c t, mergeConstraints c (constraints_of t)) ts c).
Proof.
  revert c. induction ts as [|t ts IH]; intros c; [done|].
  rewrite fmap_cons. simpl. apply IH.
Qed.

Lemma ends_in_terminal_defined (ts : list TileRef) :
  ∃ b, ends_in_terminal (Some <$> ts) = Ok b.
Proof.
  unfold ends_in_terminal. rewrite fmap_last.
  destruct (last ts); simpl; by eexists.
Qed.

Lemma carries_terminal_is_terminal (t : TileDefn) :
  carries_terminal t → is_terminal (Tile t) = true.
Proof.
  intros (c & h & Hc & Hh & Ht). unfold is_terminal. cbn [constraints_of].
  by rewrite Hc, Hh, Ht.
Qed.

(** ** Terminal tiles *)

(** C5. When the tile at position [k] of the filter chain carries
    [handling.terminal = true], [getFilterSuggestions] at [k + 1] returns the
    empty sequence; likewise [getModifierSuggestions] over the modifier
    chain. *)
Theorem terminal_short_circuit (rule : RuleDefn) (k : nat) (t : TileDefn) :
  carries_terminal t →
  (filters rule !! k = Some (Some (Tile t)) →
   getFilterSuggestions rule (Z.of_nat k + 1) = Ok []) ∧
  (modifiers rule !! k = Some (Some (Tile t)) →
   getModifierSuggestions rule (Z.of_nat k + 1) = Ok []).
Proof.
  intros Ht%carries_terminal_is_terminal.
  split; intros Hk; unfold getFilterSuggestions, getModifierSuggestions;
    cbv zeta; unfold ends_in_terminal;
    rewrite collect_existing_last, (array_get_lookup _ _ _ Hk), Ht;
    reflexivity.
Qed.

Lemma terminal_short_circuit_witness :
  getModifierSuggestions switch_rule 1 = Ok [] ∧
  getFilterSuggestions
    (with_filters see_rule [Some (Tile filter_kodu); Some (Tile closing_filter)]) 2 = Ok [].
Proof.
  split.
  - refine (proj2 (terminal_short_circuit switch_rule 0 modifier_page_1 _) eq_refl).
    do 2 eexists. repeat split; reflexivity.
  - refine (proj1 (terminal_short_circuit
                     (with_filters see_rule [Some (Tile filter_kodu); Some (Tile closing_filter)])
                     1 closing_filter _) eq_refl).
    do 2 eexists. repeat split; reflexivity.
Defined.

(** ** Insertion indices beyond the chain *)

Lemma suggestions_raise_beyond (chain : list (option TileRef)) (index : Z) :
  Z.of_nat (length chain) < index →
  last (collect_existing chain index) = Some None
  ∧ ends_in_terminal (collect_existing chain index) = Throw TypeError.
Proof.
  intros H. unfold ends_in_terminal.
  replace index with (Z.of_nat (Z.to_nat (index - 1)) + 1) by lia.
  rewrite collect_existing_last, array_get_beyond by lia. done.
Qed.

Lemma suggestions_return_within (chain : list (option TileRef)) (index : Z) :
  index ≤ Z.of_nat (length chain) → defined chain →
  ∃ ts, collect_existing chain index = Some <$> ts.
Proof.
  intros H [ts ->]%defined_inv.
  rewrite collect_existing_in_bounds by done.
  exists (take (Z.to_nat index) ts). by rewrite fmap_take.
Qed.

(** C9. With an index greater than the length of the chain, the loop
    collects [undefined] for the slots past the end, the terminal check
    reads [constraints] off an absent tile, and the call raises a
    [TypeError]; this holds for the filter and for the modifier chain. With
    an index up to the length of a chain that has no [undefined] slot, a
    negative index included, only slots of the chain are collected and the
    call returns: the precondition is [index <= length], with no lower
    bound. With an index of 0 or less nothing is collected and the call
    returns, for every rule, what it returns at index 0. *)
Theorem suggestions_beyond_chain (rule : RuleDefn) (index : Z) :
  (Z.of_nat (length (filters rule)) < index →
   collect_existing (filters rule) index
   = filters rule ++ replicate (Z.to_nat index - length (filters rule)) None
   ∧ last (collect_existing (filters rule) index) = Some None
   ∧ getFilterSuggestions rule index = Throw TypeError) ∧
  (Z.of_nat (length (modifiers rule)) < index →
   collect_existing (modifiers rule) index
   = modifiers rule ++ replicate (Z.to_nat index - length (modifiers rule)) None
   ∧ last (collect_existing (modifiers rule) index) = Some None
   ∧ getModifierSuggestions rule index = Throw TypeError) ∧
  (index ≤ Z.of_nat (length (filters rule)) → defined (filters rule) →
   collect_existing (filters rule) index = take (Z.to_nat index) (filters rule)
   ∧ ∃ l, getFilterSuggestions rule index = Ok l) ∧
  (index ≤ Z.of_nat (length (modifiers rule)) → defined (modifiers rule) →
   collect_existing (modifiers rule) index = take (Z.to_nat index) (modifiers rule)
   ∧ ∃ l, getModifierSuggestions rule index = Ok l) ∧
  (index ≤ 0 →
   collect_existing (filters rule) index = []
   ∧ collect_existing (modifiers rule) index = []
   ∧ getFilterSuggestions rule index = getFilterSuggestions rule 0
   ∧ getModifierSuggestions rule index = getModifierSuggestions rule 0
   ∧ (∃ l, getFilterSuggestions rule index = Ok l)
   ∧ (∃ l, getModifierSuggestions rule index = Ok l)).
Proof.
  unfold getFilterSuggestions, getModifierSuggestions,
    filter_constraints, modifier_constraints.
  split; [|split; [|split; [|split]]].
  - intros Hlt. split; [apply collect_existing_padded; lia|].
    split; [by apply suggestions_raise_beyond|].
    apply suggestions_raise_beyond in Hlt as [_ ->]. reflexivity.
  - intros Hlt. split; [apply collect_existing_padded; lia|].
    split; [by apply suggestions_raise_beyond|].
    apply suggestions_raise_beyond in Hlt as [_ ->]. reflexivity.
  - intros Hle Hdef. split; [by apply collect_existing_in_bounds|].
    destruct (suggestions_return_within _ _ Hle Hdef) as [ts ->].
    destruct (ends_in_terminal_defined ts) as [[] ->]; cbv zeta;
      [by eexists|]. rewrite merge_existing_defined. by eexists.
  - intros Hle Hdef. split; [by apply collect_existing_in_bounds|].
    destruct (suggestions_return_within _ _ Hle Hdef) as [ts ->].
    destruct (ends_in_terminal_defined ts) as [[] ->]; cbv zeta;
      [by eexists|]. rewrite merge_existing_defined. by eexists.
  - intros Hle. rewrite !(collect_existing_nonpositive _ index Hle).
    repeat split; try done; by eexists.
Qed.

(** A negative index collects nothing: the call behaves as at index 0. *)
Lemma suggestions_negative_index (rule : RuleDefn) (index : Z) :
  index ≤ 0 →
  getFilterSuggestions rule index = getFilterSuggestions rule 0
  ∧ getModifierSuggestions rule index = getModifierSuggestions rule 0.
Proof.
  intros H. unfold getFilterSuggestions, getModifierSuggestions.
  by rewrite !(collect_existing_nonpositive _ index H).
Qed.

(** One filter placed, suggestions asked for position 2. *)
Lemma suggestions_beyond_chain_witness :
  getFilterSuggestions (with_filters see_rule [Some (Tile filter_kodu)]) 2 = Throw TypeError
  ∧ ∃ l, getFilterSuggestions (with_filters see_rule [Some (Tile filter_kodu)]) 1 = Ok l.
Proof.
  split.
  - destruct (suggestions_beyond_chain (with_filters see_rule [Some (Tile filter_kodu)]) 2)
      as (H & _).
    apply H. simpl. lia.
  - destruct (suggestions_beyond_chain (with_filters see_rule [Some (Tile filter_kodu)]) 1)
      as (_ & _ & H & _).
    apply H; [simpl; lia|]. repeat constructor. by eexists.
Defined.

(** C9 as stated fails below zero. The claim makes [0 <= index] part of the
    precondition; with a negative index the loop body never runs, nothing
    is collected, no tile is dereferenced, and the calls return what they
    return at index 0. *)
Lemma suggestions_return_below_zero :
  collect_existing (filters see_rule) (-1) = [] ∧
  ends_in_terminal (collect_existing (filters see_rule) (-1)) = Ok false ∧
  names (getFilterSuggestions see_rule (-1))
  = Ok ["Kodu"; "Tree"; "Apple"; "nearby"; "far away";
        "none"; "happy"; "angry"; "heart"; "sad"] ∧
  getFilterSuggestions see_rule (-1) = getFilterSuggestions see_rule 0 ∧
  collect_existing (modifiers chase_rule) (-3) = [] ∧
  getModifierSuggestions chase_rule (-3) = getModifierSuggestions chase_rule 0 ∧
  ∃ l, getModifierSuggestions chase_rule (-3) = Ok l.
Proof.
  split; [reflexivity|]. split; [reflexivity|].
  split; [vm_compute; reflexivity|]. split; [reflexivity|].
  split; [reflexivity|]. split; [reflexivity|]. eexists. reflexivity.
Qed.

(** ** The compatible set *)

Lemma is_category_spec (t : TileDefn) (cat : string) :
  is_category t cat = true ↔ category t = Some cat.
Proof.
  unfold is_category. destruct (category t) as [c|]; [|done].
  rewrite String.eqb_eq. split; [by intros ->|by intros [= ->]].
Qed.

Lemma allowed_spec (c : Accum) (t : TileDefn) :
  allowed c t = true ↔
  (∃ cat, category t = Some cat ∧ cat ∈ categories_of (acc_allow c))
  ∨ tid t ∈ tiles_of (acc_allow c).
Proof.
  unfold allowed. rewrite orb_true_iff, !existsb_exists.
  split.
  - intros [(cat & Hin & Hcat)|(id & Hin & Hid)].
    + left. exists cat. by rewrite <- is_category_spec, list_elem_of_In.
    + right. apply String.eqb_eq in Hid as <-. by apply list_elem_of_In.
  - intros [(cat & Hcat & Hin)|Hin].
    + left. exists cat. by rewrite is_category_spec, <- list_elem_of_In.
    + right. exists (tid t). by rewrite String.eqb_refl, <- list_elem_of_In.
Qed.

Lemma getCompatibleSet_spec (all : list TileDefn) (c : Accum) (t : TileDefn) :
  t ∈ getCompatibleSet all c ↔
  t ∈ all ∧ requires_met c t = true ∧ allowed c t = true
  ∧ not_disallowed c t = true.
Proof.
  unfold getCompatibleSet. rewrite !list_elem_of_In, !filter_In. tauto.
Qed.

Lemma getCompatibleSet_nothing_allowed (all : list TileDefn) (c : Accum) :
  categories_of (acc_allow c) = [] → tiles_of (acc_allow c) = [] →
  getCompatibleSet all c = [].
Proof.
  intros Hc Ht. unfold getCompatibleSet.
  replace (List.filter (allowed c) (List.filter (requires_met c) all)) with (@nil TileDefn);
    [done|].
  symmetry. induction (List.filter (requires_met c) all) as [|t l IH]; [done|].
  simpl. unfold allowed at 1. by rewrite Hc, Ht.
Qed.

Lemma merge_existing_Ok (c0 c : Accum) (existing : list (option TileRef)) :
  merge_existing c0 existing = Ok c → ∃ ts, existing = Some <$> ts.
Proof.
  revert c0. induction existing as [|[t|] l IH]; intros c0 H.
  - by exists [].
  - simpl in H. apply IH in H as [ts ->]. by exists (t :: ts).
  - done.
Qed.

(** C3. A tile passes the allow check exactly when its category is in the
    accumulated [allow.categories] or its identifier is in the accumulated
    [allow.tiles]; only tiles that pass are in the compatible set. Hence at
    an insertion position whose accumulated allow lists are both empty,
    [getFilterSuggestions] and [getModifierSuggestions] return the empty
    sequence. *)
Theorem allow_check (c : Accum) :
  (∀ t, allowed c t = true ↔
        (∃ cat, category t = Some cat ∧ cat ∈ categories_of (acc_allow c))
        ∨ tid t ∈ tiles_of (acc_allow c)) ∧
  (∀ all t, t ∈ getCompatibleSet all c → allowed c t = true) ∧
  (categories_of (acc_allow c) = [] → tiles_of (acc_allow c) = [] →
   ∀ rule index,
     (filter_constraints rule (collect_existing (filters rule) index) = Ok c →
      getFilterSuggestions rule index = Ok []) ∧
     (modifier_constraints rule (collect_existing (modifiers rule) index) = Ok c →
      getModifierSuggestions rule index = Ok [])).
Proof.
  split; [apply allowed_spec|].
  split; [by intros all t (_ & _ & H & _)%getCompatibleSet_spec|].
  intros Hc Ht rule index.
  unfold getFilterSuggestions, getModifierSuggestions. cbv zeta.
  split; intros Hacc; rewrite Hacc;
    destruct (merge_existing_Ok _ _ _ Hacc) as [ts ->];
    destruct (ends_in_terminal_defined ts) as [[] ->]; try done;
    simpl; by rewrite getCompatibleSet_nothing_allowed.
Qed.

(** A rule without sensor has nothing allowed at filter position 0. *)
Lemma allow_check_witness : getFilterSuggestions RuleDefn_new 0 = Ok [].
Proof.
  destruct (allow_check mkConstraints) as (_ & _ & H).
  exact (proj1 (H eq_refl eq_refl RuleDefn_new 0) eq_refl).
Defined.

(** ** Sorting by weight *)

Section SortFacts.
Context {A : Type} (cmp : A → A → Z) (key : A → Z).
Hypothesis cmp_key : ∀ a b, cmp a b = key a - key b.

Let le (a b : A) : Prop := key a ≤ key b.

Lemma sort_insert_perm (x : A) (l : list A) : sort_insert cmp x l ≡ₚ x :: l.
Proof.
  induction l as [|y l IH]; simpl; [done|].
  destruct (0 <? cmp x y); [|done].
  rewrite IH. apply Permutation_swap.
Qed.

Lemma Array_sort_perm (l : list A) : Array_sort cmp l ≡ₚ l.
Proof.
  induction l as [|x l IH]; simpl; [done|].
  by rewrite sort_insert_perm, IH.
Qed.

Lemma sort_insert_sorted (x : A) (l : list A) :
  StronglySorted le l → StronglySorted le (sort_insert cmp x l).
Proof.
  induction 1 as [|y l Hl IH Hy]; simpl.
  - repeat constructor.
  - rewrite cmp_key. destruct (Z.ltb_spec 0 (key x - key y)) as [Hlt|Hge].
    + constructor; [done|].
      rewrite sort_insert_perm. constructor; [unfold le; lia | done].
    + constructor; [by constructor|].
      constructor; [unfold le; lia|].
      eapply Forall_impl; [exact Hy|]. unfold le. intros; simpl in *; lia.
Qed.

Lemma Array_sort_sorted (l : list A) : StronglySorted le (Array_sort cmp l).
Proof.
  induction l as [|x l IH]; simpl; [constructor|]. by apply sort_insert_sorted.
Qed.
End SortFacts.

Lemma not_hidden_spec (t : TileDefn) : not_hidden t = true ↔ ¬ marked_hidden t.
Proof.
  unfold not_hidden, marked_hidden.
  destruct (hidden t) as [[]|]; simpl; split; done.
Qed.

(** Where no weight is 0, the weight the comparator reads is the declared
    one. *)
Lemma weight_or_100_declared (t : TileDefn) :
  weight t ≠ Some 0 → weight_or_100 t = declared_weight t.
Proof.
  unfold weight_or_100, declared_weight.
  destruct (weight t) as [w|]; [|done].
  destruct (Z.eqb_spec w 0) as [->|]; [by intros []|done].
Qed.

(** The pipeline [filter(tile => !tile.hidden).sort(by weight)] over tiles
    none of which declares weight 0. *)
Lemma visible_by_weight (l : list TileDefn) :
  Forall (λ t, weight t ≠ Some 0) l →
  let result := Array_sort by_weight (List.filter not_hidden l) in
  Forall (λ t, ¬ marked_hidden t) result ∧ Sorted by_declared_weight result.
Proof.
  intros Hw result.
  assert (Hperm : result ≡ₚ List.filter not_hidden l) by apply Array_sort_perm.
  split.
  - rewrite Hperm. apply Forall_forall. intros t Ht.
    apply list_elem_of_In, filter_In in Ht as [_ Ht]. by apply not_hidden_spec.
  - apply StronglySorted_Sorted.
    assert (Hres : Forall (λ t, weight t ≠ Some 0) result).
    { rewrite Hperm. apply Forall_forall. intros t Ht.
      apply list_elem_of_In, filter_In in Ht as [Ht _].
      rewrite Forall_forall in Hw. by apply Hw, list_elem_of_In. }
    pose proof (Array_sort_sorted by_weight weight_or_100 (λ _ _, eq_refl)
                  (List.filter not_hidden l)) as Hs.
    fold result in Hs. clearbody result. clear Hperm Hw.
    induction Hs as [|t r Hr IH Ht]; [constructor|].
    apply Forall_cons in Hres as [Hwt Hres].
    constructor; [by apply IH|].
    rewrite Forall_forall in Ht, Hres. apply Forall_forall. intros u Hu.
    unfold by_declared_weight.
    rewrite <- !weight_or_100_declared by auto. by apply Ht.
Qed.

Lemma catalog_weights_nonzero :
  Forall (λ t, weight t ≠ Some 0) (Object_values (db_sensors tiles)) ∧
  Forall (λ t, weight t ≠ Some 0) (Object_values (db_actuators tiles)).
Proof. split; repeat constructor; discriminate. Qed.

(** C6. The sequences returned by [getSensorSuggestions] and
    [getActuatorSuggestions] hold no tile marked hidden and are
    non-decreasing in weight, a tile without weight counting as 100. *)
Theorem suggestions_visible_by_weight (rule : RuleDefn) :
  (Forall (λ t, ¬ marked_hidden t) (getSensorSuggestions rule)
   ∧ Sorted by_declared_weight (getSensorSuggestions rule)) ∧
  (Forall (λ t, ¬ marked_hidden t) (getActuatorSuggestions rule)
   ∧ Sorted by_declared_weight (getActuatorSuggestions rule)).
Proof.
  destruct catalog_weights_nonzero as [Hs Ha].
  split; [exact (visible_by_weight _ Hs) | exact (visible_by_weight _ Ha)].
Qed.

(** The comparator reads a declared weight of 0 as 100. *)
Example weight_zero_sorts_as_100 :
  Array_sort by_weight [weighted 0; weighted 1] = [weighted 1; weighted 0].
Proof. reflexivity. Qed.

(** ** Constraint merge *)

Lemma push_each_app (dst src : list string) : push_each dst src = dst ++ src.
Proof.
  unfold push_each. revert dst.
  induction src as [|x src IH]; intros dst; simpl.
  - by rewrite app_nil_r.
  - by rewrite IH, <- app_assoc.
Qed.

(** Key by key, the assignment loop lets the source win. *)
Lemma assign_each_union (dst src : gmap string HVal) : assign_each dst src = src ∪ dst.
Proof.
  unfold assign_each.
  apply (map_fold_weak_ind (λ r m, r = m ∪ dst)).
  - symmetry. apply (left_id_L ∅ (∪)).
  - intros i x m r _ ->. by rewrite insert_union_l.
Qed.

Lemma assign_each_lookup (dst src : gmap string HVal) (key : string) :
  assign_each dst src !! key = from_option Some (dst !! key) (src !! key).
Proof.
  rewrite assign_each_union, lookup_union.
  by destruct (src !! key), (dst !! key).
Qed.

Lemma merge_sel_fields (dst : Sel) (src : option TileSel) :
  tiles_of (merge_sel dst src)
  = tiles_of dst ++ default [] (match src with Some s => sel_tiles s | None => None end) ∧
  categories_of (merge_sel dst src)
  = categories_of dst
    ++ default [] (match src with Some s => sel_categories s | None => None end).
Proof.
  destruct src as [src|]; simpl; [|by rewrite !app_nil_r].
  unfold push_each_or_empty. by rewrite !push_each_app.
Qed.

(** One merge, field by field: lists are appended, handling keys are
    overwritten; a missing source changes nothing. *)
Lemma mergeConstraints_fields (dst : Accum) (src : option Constraints) :
  let c := mergeConstraints dst src in
  acc_provides c = acc_provides dst ++ entries provides src ∧
  acc_requires c = acc_requires dst ++ entries requires src ∧
  tiles_of (acc_allow c) = tiles_of (acc_allow dst) ++ entries allow_tiles src ∧
  categories_of (acc_allow c)
  = categories_of (acc_allow dst) ++ entries allow_categories src ∧
  tiles_of (acc_disallow c)
  = tiles_of (acc_disallow dst) ++ entries disallow_tiles src ∧
  categories_of (acc_disallow c)
  = categories_of (acc_disallow dst) ++ entries disallow_categories src ∧
  (∀ key, acc_handling c !! key
          = from_option Some (acc_handling dst !! key) (writes key src)).
Proof.
  destruct src as [src|]; simpl.
  - unfold allow_tiles, allow_categories, disallow_tiles, disallow_categories.
    destruct (merge_sel_fields (acc_allow dst) (allow src)) as [-> ->].
    destruct (merge_sel_fields (acc_disallow dst) (disallow src)) as [-> ->].
    repeat split; try done.
    + destruct (provides src); simpl; [apply push_each_app | by rewrite app_nil_r].
    + destruct (requires src); simpl; [apply push_each_app | by rewrite app_nil_r].
    + intros key. destruct (handling src); simpl; [apply assign_each_lookup | done].
  - rewrite !app_nil_r. repeat split; done.
Qed.

(** A sequence of merges, field by field. *)
Lemma fold_mergeConstraints_fields (sources : list (option Constraints)) (c0 : Accum) :
  let c := fold_left mergeConstraints sources c0 in
  acc_provides c = acc_provides c0 ++ listed provides sources ∧
  acc_requires c = acc_requires c0 ++ listed requires sources ∧
  tiles_of (acc_allow c) = tiles_of (acc_allow c0) ++ listed allow_tiles sources ∧
  categories_of (acc_allow c)
  = categories_of (acc_allow c0) ++ listed allow_categories sources ∧
  tiles_of (acc_disallow c)
  = tiles_of (acc_disallow c0) ++ listed disallow_tiles sources ∧
  categories_of (acc_disallow c)
  = categories_of (acc_disallow c0) ++ listed disallow_categories sources ∧
  (∀ key, acc_handling c !! key
          = fold_left (λ held src, from_option Some held (writes key src))
              sources (acc_handling c0 !! key)).
Proof.
  revert c0. induction sources as [|src sources IH]; intros c0.
  - simpl. rewrite !app_nil_r. repeat split; done.
  - cbn [fold_left]. cbv zeta.
    destruct (IH (mergeConstraints c0 src)) as (-> & -> & -> & -> & -> & -> & Hh).
    destruct (mergeConstraints_fields c0 src) as (-> & -> & -> & -> & -> & -> & Hh0).
    unfold listed. cbn [flat_map]. rewrite <- !app_assoc.
    repeat split; try done.
    intros key. by rewrite Hh, Hh0.
Qed.

(** [last_writer] is what its name says: the value written by a source
    after which no source writes the key. *)
Lemma last_writer_spec (key : string) (sources : list (option Constraints)) (v : HVal) :
  last_writer key sources = Some v ↔
  ∃ before src after,
    sources = before ++ src :: after ∧ writes key src = Some v
    ∧ Forall (λ s, writes key s = None) after.
Proof.
  unfold last_writer.
  induction sources as [|s sources IH] using rev_ind; simpl.
  - split; [done|]. intros (before & src & after & H & _). by destruct before.
  - rewrite fold_left_app. simpl. destruct (writes key s) as [w|] eqn:Hw; simpl.
    + split.
      * intros [= ->]. exists sources, s, []. by repeat split.
      * intros (before & src & after & Heq & Hsrc & Hafter).
        destruct after as [|a after _] using rev_ind.
        -- apply app_inj_tail in Heq as [_ <-]. by simplify_eq.
        -- rewrite app_comm_cons, app_assoc in Heq.
           apply app_inj_tail in Heq as [_ <-].
           apply Forall_app in Hafter as [_ Ha]. rewrite Forall_singleton in Ha.
           congruence.
    + rewrite IH. split.
      * intros (before & src & after & -> & Hsrc & Hafter).
        exists before, src, (after ++ [s]). rewrite <- app_assoc. simpl.
        repeat split; [done|]. apply Forall_app. split; [done|]. by constructor.
      * intros (before & src & after & Heq & Hsrc & Hafter).
        destruct after as [|a after _] using rev_ind.
        -- apply app_inj_tail in Heq as [_ <-]. by simplify_eq.
        -- rewrite app_comm_cons, app_assoc in Heq.
           apply app_inj_tail in Heq as [-> <-].
           apply Forall_app in Hafter as [Hafter _].
           by exists before, src, after.
Qed.

Lemma fold_left_constraints (placed : list TileRef) (c0 : Accum) :
  fold_left (λ c t, mergeConstraints c (constraints_of t)) placed c0
  = fold_left mergeConstraints (constraints_of <$> placed) c0.
Proof.
  revert c0. induction placed as [|t placed IH]; intros c0; [done|].
  rewrite fmap_cons. simpl. apply IH.
Qed.

(** C4. In front of modifier index [index], the accumulated constraints are
    the identity accumulator merged with the actuator's constraints, then
    the sensor's, then those of the modifiers placed before [index], in
    placement order. Under each list field the result holds the sources'
    entries appended in that order, duplicates kept; under each handling
    key it holds the value of the last source that writes the key. These
    are the constraints [getModifierSuggestions] filters the catalog by. *)
Theorem modifier_constraints_order
    (rule : RuleDefn) (index : Z) (placed : list TileRef) :
  index ≤ Z.of_nat (length (modifiers rule)) →
  take (Z.to_nat index) (modifiers rule) = Some <$> placed →
  let sources := modifier_sources rule placed in
  ∃ c,
    modifier_constraints rule (collect_existing (modifiers rule) index) = Ok c ∧
    c = fold_left mergeConstraints sources mkConstraints ∧
    acc_provides c = listed provides sources ∧
    acc_requires c = listed requires sources ∧
    tiles_of (acc_allow c) = listed allow_tiles sources ∧
    categories_of (acc_allow c) = listed allow_categories sources ∧
    tiles_of (acc_disallow c) = listed disallow_tiles sources ∧
    categories_of (acc_disallow c) = listed disallow_categories sources ∧
    (∀ key, acc_handling c !! key = last_writer key sources) ∧
    (ends_in_terminal (Some <$> placed) = Ok false →
     getModifierSuggestions rule index = Ok (getCompatibleSet all_modifiers c)).
Proof.
  intros Hbound Hplaced sources.
  assert (Hacc : modifier_constraints rule (collect_existing (modifiers rule) index)
                 = Ok (fold_left mergeConstraints sources mkConstraints)).
  { unfold modifier_constraints.
    rewrite collect_existing_in_bounds, Hplaced by done.
    rewrite merge_existing_defined, fold_left_constraints. reflexivity. }
  eexists. split; [exact Hacc|]. split; [reflexivity|].
  destruct (fold_mergeConstraints_fields sources mkConstraints)
    as (Hp & Hr & Hat & Hac & Hdt & Hdc & Hh).
  split; [exact Hp|]. split; [exact Hr|]. split; [exact Hat|].
  split; [exact Hac|]. split; [exact Hdt|]. split; [exact Hdc|].
  split; [exact Hh|].
  intros Hterm. unfold getModifierSuggestions. cbv zeta.
  rewrite Hacc. rewrite collect_existing_in_bounds, Hplaced, Hterm by done.
  reflexivity.
Qed.

(** The constraints in front of the third modifier slot of [chase_rule]. *)
Lemma modifier_constraints_order_witness :
  ∃ c,
    modifier_constraints chase_rule (collect_existing (modifiers chase_rule) 2) = Ok c ∧
    categories_of (acc_allow c)
    = ["speed"; "direction"; "direct-object";
       "subject"; "direct-subject"; "distance"; "expression"] ∧
    tiles_of (acc_disallow c) = [Tid.filter.me; Tid.modifier.slowly; Tid.modifier.me] ∧
    acc_handling c !! "max-count" = Some (HNum 3).
Proof.
  destruct (modifier_constraints_order chase_rule 2
              [Tile modifier_quickly; Tile modifier_toward])
    as (c & Hc & _ & _ & _ & _ & Hac & Hdt & _ & Hh & _).
  - simpl. lia.
  - reflexivity.
  - exists c. split; [exact Hc|]. split; [exact Hac|]. split; [exact Hdt|].
    rewrite Hh. reflexivity.
Defined.

(** The order of two merges decides which handling value is kept. *)
Example handling_order_matters :
  let first := handling_only "terminal" (HBool true) in
  let second := handling_only "terminal" (HBool false) in
  acc_handling (fold_left mergeConstraints [first; second] mkConstraints) !! "terminal"
  = Some (HBool false)
  ∧ acc_handling (fold_left mergeConstraints [second; first] mkConstraints) !! "terminal"
    = Some (HBool true).
Proof.
  cbv zeta. split.
  - destruct (fold_mergeConstraints_fields
                [handling_only "terminal" (HBool true);
                 handling_only "terminal" (HBool false)] mkConstraints)
      as (_ & _ & _ & _ & _ & _ & ->). reflexivity.
  - destruct (fold_mergeConstraints_fields
                [handling_only "terminal" (HBool false);
                 handling_only "terminal" (HBool true)] mkConstraints)
      as (_ & _ & _ & _ & _ & _ & ->). reflexivity.
Qed.

(** ** Round trip through the codec *)

Lemma mapM_round_trip {T} (encode : T → Result JsVal) (decode : JsVal → Result T)
    (l : list T) :
  Forall (round_trips encode decode) l →
  ∃ objs, mapM encode l = Ok objs ∧ mapM decode objs = Ok l.
Proof.
  induction 1 as [|x l (obj & Hx & Hobj) _ (objs & Hl & Hobjs)].
  - by exists [].
  - exists (obj :: objs). by rewrite !mapM_cons, Hx, Hl, Hobj, Hobjs.
Qed.

(** No partition of the catalog has an entry under the empty identifier, so
    the identifier of a resolved tile is truthy. *)
Lemma resolved_tid_truthy (t : TileDefn) :
  in_partition (db_sensors tiles) t ∨ in_partition (db_filters tiles) t ∨
  in_partition (db_actuators tiles) t ∨ in_partition (db_modifiers tiles) t →
  truthy (JStr (tid t)) = true.
Proof.
  unfold in_partition. simpl.
  destruct (String.eqb_spec (tid t) "") as [->|]; [|done].
  intros [H|[H|[H|H]]]; discriminate H.
Qed.

Lemma resolved_chain_inv (part : list (string * TileDefn)) chain :
  resolved_chain part chain →
  ∃ ts : list TileDefn,
    chain = Some <$> (Tile <$> ts) ∧ Forall (in_partition part) ts.
Proof.
  induction 1 as [|slot chain (t & -> & Ht) _ (ts & -> & Hts)].
  - by exists [].
  - exists (t :: ts). split; [done|]. by constructor.
Qed.

(** The catalog read finds an entry under its own identifier. *)
Lemma lookup_tile_own (part : list (string * TileDefn)) (t : TileDefn) :
  in_partition part t → lookup_tile part (JStr (tid t)) = Some (Tile t).
Proof. unfold in_partition, lookup_tile. cbn [to_string]. by intros ->. Qed.

(** Looking the encoded identifiers up gives the chain back. *)
Lemma lookup_tile_tids (part : list (string * TileDefn)) (ts : list TileDefn) :
  Forall (in_partition part) ts →
  lookup_tile part <$> ((λ t, JStr (tid t)) <$> ts) = Some <$> (Tile <$> ts).
Proof.
  induction 1 as [|t ts Ht _ IH]; [done|].
  rewrite !fmap_cons, IH. f_equal. by apply lookup_tile_own.
Qed.

(** What the decoder reads back from the encoded condition, anchors and
    chains. *)
Lemma encoded_condition (c : string) :
  c ≠ "" → default JUndefined (keep_truthy (Some (JStr c))) = JStr c.
Proof. intros Hc. simpl. by destruct (String.eqb_spec c "") as [->|]. Qed.

Lemma encoded_anchor (part : list (string * TileDefn)) (anchor : option TileRef) :
  obj_get part "" = None → resolved_anchor part anchor →
  match default JUndefined (keep_truthy (Some (tid_or_undefined anchor))) with
  | JStr id => lookup_tile part (JStr id) = anchor
  | JUndefined => anchor = None
  | _ => False
  end.
Proof.
  intros Hblank Hin. destruct anchor as [[t|m]|]; [|done|done].
  cbn [tid_or_undefined ref_tid keep_truthy truthy resolved_anchor] in *.
  destruct (String.eqb_spec (tid t) "") as [E|]; cbn; [|by apply lookup_tile_own].
  unfold in_partition in Hin. rewrite E in Hin. congruence.
Qed.

Lemma encoded_chain (part : list (string * TileDefn)) (ts : list TileDefn) :
  Forall (in_partition part) ts →
  match default JUndefined (keep_nonempty (Some (JArr ((λ t, JStr (tid t)) <$> ts)))) with
  | JArr ids => map (lookup_tile part) ids = Some <$> (Tile <$> ts)
  | JUndefined => ts = []
  | _ => False
  end.
Proof.
  intros Hts. destruct ts as [|t ts]; [done|].
  exact (lookup_tile_tids part (t :: ts) Hts).
Qed.

Section RoundTrip.
Variable JSON_parse : string → Result JsVal.

Lemma RuleDefn_round_trip (r : RuleDefn) :
  resolved_rule r → conditioned_rule r →
  round_trips RuleDefn_toObj (RuleDefn_FromObj JSON_parse) r.
Proof.
  destruct r as [c s fs a ms]. unfold conditioned_rule. cbn [condition].
  intros (Hs & Hf & Ha & Hm) Hc. cbn [sensor filters actuator modifiers] in *.
  apply resolved_chain_inv in Hf as (fts & -> & Hf), Hm as (mts & -> & Hm).
  set (r := {| condition := c; sensor := s; filters := Some <$> (Tile <$> fts);
               actuator := a; modifiers := Some <$> (Tile <$> mts) |}).
  destruct (RuleDefn_toObj_defined r) as [o Ho].
  { apply Forall_fmap, Forall_true. by eexists. }
  { apply Forall_fmap, Forall_true. by eexists. }
  exists (JObj o). split; [done|].
  destruct (RuleDefn_toObj_fields r o Ho)
    as (F & M & HF & HM & HC & HS & HA & HFf & HMf).
  cbn [r condition sensor filters actuator modifiers] in *.
  rewrite mapM_tid_of, ref_tid_Tile in HF, HM.
  injection HF as <-. injection HM as <-.
  rewrite RuleDefn_FromObj_record. cbv zeta.
  rewrite HC, HS, HA, HFf, HMf. f_equal.
  rewrite (encoded_condition c Hc).
  pose proof (encoded_anchor (db_sensors tiles) s eq_refl Hs) as Es.
  pose proof (encoded_anchor (db_actuators tiles) a eq_refl Ha) as Ea.
  pose proof (encoded_chain (db_filters tiles) fts Hf) as Ef.
  pose proof (encoded_chain (db_modifiers tiles) mts Hm) as Em.
  destruct (default JUndefined (keep_truthy (Some (tid_or_undefined s))));
    try done;
    destruct (default JUndefined (keep_truthy (Some (tid_or_undefined a))));
    try done;
    destruct (default JUndefined (keep_nonempty (Some (JArr ((λ t, JStr (tid t)) <$> fts)))));
    try done;
    destruct (default JUndefined (keep_nonempty (Some (JArr ((λ t, JStr (tid t)) <$> mts)))));
    try done;
    subst r; cbn [read_condition read_sensor read_actuator read_filters read_modifiers];
    unfold with_condition, with_sensor, with_actuator, with_filters, with_modifiers;
    cbn [condition sensor filters actuator modifiers RuleDefn_new];
    rewrite ?Es, ?Ea, ?Ef, ?Em; subst; reflexivity.
Qed.

Lemma PageDefn_round_trip (p : PageDefn) :
  resolved_page p → conditioned_page p →
  round_trips PageDefn_toObj (PageDefn_FromObj JSON_parse) p.
Proof.
  intros Hr Hc.
  destruct (mapM_round_trip RuleDefn_toObj (RuleDefn_FromObj JSON_parse) (rules p))
    as (R & Henc & Hdec).
  { unfold resolved_page, conditioned_page in *.
    rewrite Forall_forall in Hr, Hc. apply Forall_forall. intros r Hin.
    apply RuleDefn_round_trip; auto. }
  unfold round_trips, PageDefn_toObj. rewrite Henc.
  destruct p as [rs]; cbn [rules] in *.
  destruct R as [|obj R].
  - rewrite mapM_nil in Hdec. injection Hdec as <-. by eexists.
  - eexists. split; [reflexivity|].
    rewrite PageDefn_FromObj_record.
    change (field _ kR) with (Some (JArr (obj :: R))). cbv beta iota.
    by rewrite Hdec.
Qed.

(** C1, as the code has it. Let every tile a brain references be the entry
    of the catalog under its identifier (in the partition of its slot) and
    let no rule have the empty string as condition. Then encoding succeeds
    and decoding the record gives the same brain: same pages, same rules,
    same condition, same tile references in the same order. The same holds
    of a page and of a rule. *)
Theorem codec_round_trip :
  (∀ r, resolved_rule r → conditioned_rule r →
        round_trips RuleDefn_toObj (RuleDefn_FromObj JSON_parse) r) ∧
  (∀ p, resolved_page p → conditioned_page p →
        round_trips PageDefn_toObj (PageDefn_FromObj JSON_parse) p) ∧
  (∀ b, resolved_brain b → conditioned_brain b →
        round_trips BrainDefn_toObj (BrainDefn_FromObj JSON_parse) b).
Proof.
  split; [exact RuleDefn_round_trip|]. split; [exact PageDefn_round_trip|].
  intros b Hr Hc.
  destruct (mapM_round_trip PageDefn_toObj (PageDefn_FromObj JSON_parse) (pages b))
    as (P & Henc & Hdec).
  { unfold resolved_brain, conditioned_brain in *.
    rewrite Forall_forall in Hr, Hc. apply Forall_forall. intros p Hin.
    apply PageDefn_round_trip; auto. }
  unfold round_trips, BrainDefn_toObj. rewrite Henc.
  eexists. split; [reflexivity|].
  rewrite (BrainDefn_FromObj_array JSON_parse (JObj [("P", JArr P)])
             (JObj [("P", JArr P)]) P eq_refl eq_refl), Hdec.
  by destruct b.
Qed.

End RoundTrip.

Lemma sample_brain_resolved : resolved_brain sample_brain.
Proof.
  repeat first
    [ apply Forall_nil_2
    | apply Forall_cons_2
    | split
    | by eexists ];
    reflexivity.
Qed.

Lemma sample_brain_conditioned : conditioned_brain sample_brain.
Proof. repeat constructor; discriminate. Qed.

(** The sample brain survives the codec. *)
Lemma codec_round_trip_witness :
  round_trips BrainDefn_toObj (BrainDefn_FromObj rejecting_parse) sample_brain.
Proof.
  exact (proj2 (proj2 (codec_round_trip rejecting_parse)) sample_brain
           sample_brain_resolved sample_brain_conditioned).
Defined.

Example encode_sample_brain :
  BrainDefn_toObj sample_brain
  = Ok (JObj [("P", JArr [
          JObj [("R", JArr [
            JObj [("C", JStr "RC0"); ("S", JStr "S2"); ("A", JStr "A1");
                  ("M", JArr [JStr "M6"; JStr "M8"])];
            JObj [("C", JStr "RC0"); ("A", JStr "A2"); ("M", JArr [JStr "M11"])]])];
          JObj []; JObj []; JObj []; JObj []])]).
Proof. vm_compute. reflexivity. Qed.

(** C1 as stated fails: a brain whose only tile reference is the [See]
    sensor of the catalog and whose rule has the empty string as condition.
    The encoder drops the falsy [C]; the decoder then leaves the
    constructor's default ["RC0"] in place. *)
Lemma blank_condition_not_restored :
  resolved_brain blank_condition_brain ∧
  BrainDefn_toObj blank_condition_brain
  = Ok (JObj [("P", JArr [JObj [("R", JArr [JObj [("S", JStr "S2")]])];
                          JObj []; JObj []; JObj []; JObj []])]) ∧
  BrainDefn_FromObj rejecting_parse
    (JObj [("P", JArr [JObj [("R", JArr [JObj [("S", JStr "S2")]])];
                       JObj []; JObj []; JObj []; JObj []])])
  = Ok {| pages := [ {| rules := [see_rule] |};
                     PageDefn_new; PageDefn_new; PageDefn_new; PageDefn_new ] |} ∧
  condition see_rule = "RC0" ∧
  ¬ round_trips BrainDefn_toObj (BrainDefn_FromObj rejecting_parse)
      blank_condition_brain.
Proof.
  split; [|split; [reflexivity|split; [reflexivity|split; [reflexivity|]]]].
  - repeat first [ apply Forall_nil_2 | apply Forall_cons_2 | split ];
      first [exact I | reflexivity].
  - intros (obj & Henc & Hdec).
    vm_compute in Henc. injection Henc as <-.
    vm_compute in Hdec. discriminate Hdec.
Qed.

(* ===================================================================== *)
(** * Further properties of the data model *)
(* ===================================================================== *)

(** ** [deleteRuleAt] *)

(** X1. [deleteRuleAt] with [0 <= index < length] removes exactly the rule at
    that position: the rules before and after it stay, in order, and the
    page is one rule shorter. With any other index the page is unchanged. *)
Theorem PageDefn_deleteRuleAt_spec (p : PageDefn) (index : Z) :
  (0 ≤ index < Z.of_nat (length (rules p)) →
   rules (PageDefn_deleteRuleAt p index)
   = take (Z.to_nat index) (rules p) ++ drop (S (Z.to_nat index)) (rules p)
   ∧ S (length (rules (PageDefn_deleteRuleAt p index))) = length (rules p)) ∧
  (index < 0 ∨ Z.of_nat (length (rules p)) ≤ index →
   PageDefn_deleteRuleAt p index = p).
Proof.
  unfold PageDefn_deleteRuleAt. split.
  - intros [Hlo Hhi].
    destruct (Z.leb_spec 0 index); [|lia].
    destruct (Z.ltb_spec index (Z.of_nat (length (rules p)))); [|lia].
    cbn [andb rules]. rewrite delete_take_drop. split; [done|].
    rewrite length_app, length_take, length_drop. lia.
  - intros H.
    destruct (Z.leb_spec 0 index), (Z.ltb_spec index (Z.of_nat (length (rules p))));
      simpl; try done; lia.
Qed.

(** Deleting the middle rule of three; deleting at the length does nothing. *)
Lemma PageDefn_deleteRuleAt_spec_witness :
  rules (PageDefn_deleteRuleAt {| rules := [RuleDefn_new; see_rule; switch_rule] |} 1)
  = [RuleDefn_new; switch_rule]
  ∧ PageDefn_deleteRuleAt {| rules := [RuleDefn_new; see_rule; switch_rule] |} 3
    = {| rules := [RuleDefn_new; see_rule; switch_rule] |}.
Proof.
  split.
  - destruct (PageDefn_deleteRuleAt_spec
                {| rules := [RuleDefn_new; see_rule; switch_rule] |} 1) as [H _].
    apply H. simpl. lia.
  - destruct (PageDefn_deleteRuleAt_spec
                {| rules := [RuleDefn_new; see_rule; switch_rule] |} 3) as [_ H].
    apply H. right. simpl. lia.
Defined.

(** ** [trim] *)

Lemma rev_is_reverse {A} (l : list A) : rev l = reverse l.
Proof. unfold reverse. apply rev_alt. Qed.

Lemma drop_empty_front_spec (rs : list RuleDefn) :
  ∃ dropped,
    rs = dropped ++ drop_empty_front rs
    ∧ Forall (λ r, RuleDefn_isEmpty r = true) dropped
    ∧ (∀ r, head (drop_empty_front rs) = Some r → RuleDefn_isEmpty r = false).
Proof.
  induction rs as [|r rs (dropped & Hrs & Hd & Hh)]; simpl.
  - exists []. by repeat split.
  - destruct (RuleDefn_isEmpty r) eqn:E.
    + exists (r :: dropped). split; [by rewrite Hrs at 1|].
      split; [by constructor | done].
    + exists []. repeat split; [constructor|]. by intros ? [= <-].
Qed.

Lemma PageDefn_trim_prefix (p : PageDefn) :
  ∃ dropped,
    rules p = rules (PageDefn_trim p) ++ dropped
    ∧ Forall (λ r, RuleDefn_isEmpty r = true) dropped
    ∧ (∀ r, last (rules (PageDefn_trim p)) = Some r → RuleDefn_isEmpty r = false).
Proof.
  destruct (drop_empty_front_spec (rev (rules p))) as (dropped & Hrs & Hd & Hh).
  exists (rev dropped). cbn [PageDefn_trim rules]. split; [|split].
  - rewrite <- rev_app_distr, <- Hrs. by rewrite rev_involutive.
  - rewrite rev_is_reverse. by apply Forall_reverse.
  - intros r. rewrite rev_is_reverse, last_reverse. apply Hh.
Qed.

(** X2. [trim] keeps the longest prefix of the page that does not end in an
    empty rule: the rules it drops are at the end and are all empty, and
    the last rule it keeps, if any, is not empty. *)
Theorem PageDefn_trim_spec (p : PageDefn) :
  ∃ dropped,
    rules p = rules (PageDefn_trim p) ++ dropped
    ∧ Forall (λ r, RuleDefn_isEmpty r = true) dropped
    ∧ (∀ r, last (rules (PageDefn_trim p)) = Some r → RuleDefn_isEmpty r = false).
Proof. exact (PageDefn_trim_prefix p). Qed.

Lemma drop_empty_front_id (rs : list RuleDefn) :
  drop_empty_front rs = rs ↔
  (∀ r, head rs = Some r → RuleDefn_isEmpty r = false).
Proof.
  destruct rs as [|r rs]; simpl; [done|].
  destruct (RuleDefn_isEmpty r) eqn:E.
  - split; [|intros H; specialize (H r eq_refl); congruence].
    intros H. destruct (drop_empty_front_spec rs) as (dropped & Hrs & _).
    rewrite H in Hrs. apply (f_equal length) in Hrs.
    rewrite length_app in Hrs. simpl in Hrs. lia.
  - split; [by intros _ ? [= <-] | done].
Qed.

(** X3. [trim] is idempotent, on a page and on a brain, and it leaves a page
    as it is exactly when the page has no rules or its last rule is not
    empty. *)
Theorem PageDefn_trim_fixed (p : PageDefn) :
  PageDefn_trim (PageDefn_trim p) = PageDefn_trim p ∧
  (PageDefn_trim p = p ↔
   ∀ r, last (rules p) = Some r → RuleDefn_isEmpty r = false) ∧
  (∀ b, BrainDefn_trim (BrainDefn_trim b) = BrainDefn_trim b).
Proof.
  assert (Hfix : ∀ q, PageDefn_trim q = q ↔
                      ∀ r, last (rules q) = Some r → RuleDefn_isEmpty r = false).
  { intros [rs]. cbn [PageDefn_trim rules].
    rewrite <- head_reverse, <- rev_is_reverse, <- drop_empty_front_id.
    split.
    - intros [= H]. apply (f_equal (@rev RuleDefn)) in H.
      by rewrite rev_involutive in H.
    - intros H. unfold PageDefn_trim. cbn [rules].
      by rewrite H, rev_involutive. }
  assert (Hidem : ∀ q, PageDefn_trim (PageDefn_trim q) = PageDefn_trim q).
  { intros q. apply Hfix.
    destruct (PageDefn_trim_prefix q) as (_ & _ & _ & H). exact H. }
  split; [apply Hidem|]. split; [apply Hfix|].
  intros [ps]. unfold BrainDefn_trim. cbn [pages]. f_equal.
  rewrite map_map. apply map_ext. exact Hidem.
Qed.

(** ** [ensureValid] and the dependency invariant *)

(** X4. [ensureValid] always returns a rule that satisfies the dependency
    invariant (no filters without sensor, no modifiers without actuator),
    and the rules it leaves unchanged are exactly those that satisfy it. *)
Theorem ensureValid_valid (r : RuleDefn) :
  valid_rule (ensureValid r) ∧ (ensureValid r = r ↔ valid_rule r).
Proof.
  unfold valid_rule.
  destruct r as [c [s|] fs [a|] ms]; cbn; (split; [done|]); split.
  - done.
  - done.
  - intros [= <-]. done.
  - intros [_ H]. by rewrite H.
  - intros [= <-]. done.
  - intros [H _]. by rewrite H.
  - intros [= <- <-]. done.
  - intros [H1 H2]. by rewrite H1, H2.
Qed.

(* ===================================================================== *)
(** * Further properties of the codec *)
(* ===================================================================== *)

(** ** When encoding raises *)

(** A traversal whose callback raises nothing but [TypeError] raises
    exactly when the callback raises on some element. *)
Lemma mapM_TypeError {A B} (f : A → Result B) (l : list A) :
  (∀ x, f x ≠ Throw SyntaxError) →
  (mapM f l = Throw TypeError ↔ Exists (λ x, f x = Throw TypeError) l)
  ∧ mapM f l ≠ Throw SyntaxError.
Proof.
  intros Hf. induction l as [|x l [IH IH']].
  - split; [|done]. split; [done|]. by intros ?%Exists_nil.
  - rewrite mapM_cons, Exists_cons. specialize (Hf x).
    destruct (f x) as [y|[]]; [|by split; [split; [left|]|]|done].
    destruct (mapM f l) as [k|[]]; [| |done].
    + split; [|done]. split; [done|]. intros [?|?%IH]; done.
    + split; [|done]. split; [|done]. intros _. right. by apply IH.
Qed.

Lemma tid_of_raises (slot : option TileRef) :
  (tid_of slot = Throw TypeError ↔ slot = None) ∧ tid_of slot ≠ Throw SyntaxError.
Proof. by destruct slot. Qed.

Lemma mapM_tid_of_raises (chain : list (option TileRef)) :
  (mapM tid_of chain = Throw TypeError ↔ None ∈ chain)
  ∧ mapM tid_of chain ≠ Throw SyntaxError.
Proof.
  destruct (mapM_TypeError tid_of chain) as [H H'];
    [intros x; apply tid_of_raises|].
  split; [|done]. rewrite H, Exists_exists. split.
  - intros (slot & Hin & ->%tid_of_raises). done.
  - intros Hin. exists None. by split.
Qed.

Lemma RuleDefn_toObj_raises_iff (r : RuleDefn) :
  (RuleDefn_toObj r = Throw TypeError ↔ holey_rule r)
  ∧ RuleDefn_toObj r ≠ Throw SyntaxError.
Proof.
  unfold RuleDefn_toObj, holey_rule.
  destruct (mapM_tid_of_raises (filters r)) as [Hf Hf'].
  destruct (mapM_tid_of_raises (modifiers r)) as [Hm Hm'].
  destruct (mapM tid_of (filters r)) as [F|[]]; [| |done].
  - destruct (mapM tid_of (modifiers r)) as [M|[]]; [| |done].
    + split; [|done]. split; [done|]. intros [?%Hf|?%Hm]; done.
    + split; [|done]. split; [|done]. intros _. right. by apply Hm.
  - split; [|done]. split; [|done]. intros _. left. by apply Hf.
Qed.

(** X5. Encoding raises a [TypeError] exactly when a chain slot is
    [undefined]: for a rule, when [filters] or [modifiers] has such a slot;
    for a page, when one of its rules has; for a brain, when a rule of one
    of its pages has. It raises nothing else. *)
Theorem toObj_raises :
  (∀ r, (RuleDefn_toObj r = Throw TypeError ↔ holey_rule r)
        ∧ RuleDefn_toObj r ≠ Throw SyntaxError) ∧
  (∀ p, (PageDefn_toObj p = Throw TypeError ↔ Exists holey_rule (rules p))
        ∧ PageDefn_toObj p ≠ Throw SyntaxError) ∧
  (∀ b, (BrainDefn_toObj b = Throw TypeError
         ↔ Exists (λ p, Exists holey_rule (rules p)) (pages b))
        ∧ BrainDefn_toObj b ≠ Throw SyntaxError).
Proof.
  assert (Hpage : ∀ p,
    (PageDefn_toObj p = Throw TypeError ↔ Exists holey_rule (rules p))
    ∧ PageDefn_toObj p ≠ Throw SyntaxError).
  { intros p. unfold PageDefn_toObj.
    destruct (mapM_TypeError RuleDefn_toObj (rules p)) as [H H'];
      [intros r; apply RuleDefn_toObj_raises_iff|].
    assert (He : Exists (λ r, RuleDefn_toObj r = Throw TypeError) (rules p)
                 ↔ Exists holey_rule (rules p)).
    { rewrite !Exists_exists. split; intros (r & Hin & Hr); exists r;
        (split; [done|]); by apply RuleDefn_toObj_raises_iff. }
    rewrite <- He, <- H.
    destruct (mapM RuleDefn_toObj (rules p)) as [R|[]]; by repeat split. }
  split; [exact RuleDefn_toObj_raises_iff|]. split; [exact Hpage|].
  intros b. unfold BrainDefn_toObj.
  destruct (mapM_TypeError PageDefn_toObj (pages b)) as [H H'];
    [intros p; apply Hpage|].
  assert (He : Exists (λ p, PageDefn_toObj p = Throw TypeError) (pages b)
               ↔ Exists (λ p, Exists holey_rule (rules p)) (pages b)).
  { rewrite !Exists_exists. split; intros (p & Hin & Hp); exists p;
      (split; [done|]); by apply Hpage. }
  rewrite <- He, <- H.
  destruct (mapM PageDefn_toObj (pages b)) as [P|[]]; by repeat split.
Qed.

(** ** The shape of an encoded record *)

Lemma obj_delete_sublist {V} (o : list (string * V)) (k : string) :
  sublist (obj_delete o k) o.
Proof.
  induction o as [|[k' v] o IH]; simpl; [constructor|].
  destruct (String.eqb k' k); by constructor.
Qed.

Lemma delete_if_falsy_sublist o k : sublist (delete_if_falsy o k) o.
Proof.
  unfold delete_if_falsy. destruct (negb _); [apply obj_delete_sublist | done].
Qed.

Lemma delete_if_no_length_sublist o k : sublist (delete_if_no_length o k) o.
Proof.
  unfold delete_if_no_length.
  destruct (obj_get o (key_name k)) as [[| | | | |[|]|]|];
    try done; apply obj_delete_sublist.
Qed.

Lemma keep_truthy_JStr (s : string) (v : JsVal) :
  keep_truthy (Some (JStr s)) = Some v → v = JStr s ∧ s ≠ "".
Proof.
  simpl. destruct (String.eqb_spec s ""); simpl; [done|]. by intros [= <-].
Qed.

(** X6. The record of a rule holds its keys in the order C, S, A, F, M, each
    at most once and no other key. What it holds under C, S, A is a
    non-empty string: the condition, resp. the identifier of the tile the
    anchor holds. What it holds under F, M is a non-empty array with one
    entry per slot of the chain, in placement order: the identifier of the
    tile in the slot, and [undefined] for a slot that holds an inherited
    member instead of a tile. *)
Theorem RuleDefn_toObj_shape (r : RuleDefn) (o : list (string * JsVal)) :
  RuleDefn_toObj r = Ok (JObj o) →
  sublist (Object_keys o) ["C"; "S"; "A"; "F"; "M"] ∧
  (∀ v, field o kC = Some v → v = JStr (condition r) ∧ condition r ≠ "") ∧
  (∀ v, field o kS = Some v →
        ∃ t, sensor r = Some (Tile t) ∧ v = JStr (tid t) ∧ tid t ≠ "") ∧
  (∀ v, field o kA = Some v →
        ∃ t, actuator r = Some (Tile t) ∧ v = JStr (tid t) ∧ tid t ≠ "") ∧
  (∀ v, field o kF = Some v →
        ∃ held, filters r = Some <$> held ∧ held ≠ []
                ∧ v = JArr (ref_tid <$> held)) ∧
  (∀ v, field o kM = Some v →
        ∃ held, modifiers r = Some <$> held ∧ held ≠ []
                ∧ v = JArr (ref_tid <$> held)).
Proof.
  intros Ho. split.
  - unfold RuleDefn_toObj in Ho.
    destruct (mapM tid_of (filters r)) as [F|]; [|done].
    destruct (mapM tid_of (modifiers r)) as [M|]; [|done].
    injection Ho as <-.
    set (o0 := [("C", _); ("S", _); ("A", _); ("F", _); ("M", _)]).
    change ["C"; "S"; "A"; "F"; "M"] with (Object_keys o0).
    unfold Object_keys. apply (fmap_sublist fst).
    repeat (etrans; [first [apply delete_if_no_length_sublist
                           | apply delete_if_falsy_sublist]|]).
    done.
  - destruct (RuleDefn_toObj_fields r o Ho)
      as (F & M & HF & HM & -> & -> & -> & -> & ->).
    assert (Hchain : ∀ chain ids v,
      mapM tid_of chain = Ok ids → keep_nonempty (Some (JArr ids)) = Some v →
      ∃ ts, chain = Some <$> ts ∧ ts ≠ [] ∧ v = JArr (ref_tid <$> ts)).
    { intros chain ids v Hids Hv.
      destruct (defined_inv chain) as [ts ->].
      { apply Forall_forall. intros [t|] Hin; [by eexists|].
        apply mapM_tid_of_raises in Hin. congruence. }
      rewrite mapM_tid_of in Hids. injection Hids as <-.
      exists ts. destruct ts as [|t ts]; [done|].
      injection Hv as <-. done. }
    split; [intros v Hv; by apply keep_truthy_JStr|].
    split.
    { intros v Hv. destruct (sensor r) as [[t|m]|]; [|done|done]. exists t.
      apply keep_truthy_JStr in Hv as [-> ?]. done. }
    split.
    { intros v Hv. destruct (actuator r) as [[t|m]|]; [|done|done]. exists t.
      apply keep_truthy_JStr in Hv as [-> ?]. done. }
    split; intros v Hv; by eapply Hchain.
Qed.

Lemma RuleDefn_toObj_shape_witness :
  sublist
    (Object_keys [("C", JStr "RC0"); ("S", JStr "S2"); ("A", JStr "A1");
                  ("M", JArr [JStr "M6"; JStr "M8"])])
    ["C"; "S"; "A"; "F"; "M"].
Proof.
  exact (proj1 (RuleDefn_toObj_shape chase_rule
                  [("C", JStr "RC0"); ("S", JStr "S2"); ("A", JStr "A1");
                   ("M", JArr [JStr "M6"; JStr "M8"])] eq_refl)).
Defined.

(** X7. The record of a page has the key R exactly when the page has rules,
    and then R holds one record per rule; the record of a brain always has
    the single key P, with one record per page, also for a brain without
    pages. *)
Theorem PageDefn_BrainDefn_toObj_shape :
  (∀ p v, PageDefn_toObj p = Ok v →
     ∃ R, mapM RuleDefn_toObj (rules p) = Ok R ∧ length R = length (rules p)
          ∧ v = JObj (if decide (rules p = []) then [] else [("R", JArr R)])) ∧
  (∀ b v, BrainDefn_toObj b = Ok v →
     ∃ P, mapM PageDefn_toObj (pages b) = Ok P ∧ length P = length (pages b)
          ∧ v = JObj [("P", JArr P)]).
Proof.
  split.
  - intros p v. unfold PageDefn_toObj.
    destruct (mapM RuleDefn_toObj (rules p)) as [R|] eqn:E; [|done].
    intros [= <-]. exists R. apply mapM_Ok_length in E as HR.
    split; [done|]. split; [done|].
    destruct (rules p), R; try done.
  - intros b v. unfold BrainDefn_toObj.
    destruct (mapM PageDefn_toObj (pages b)) as [P|] eqn:E; [|done].
    intros [= <-]. exists P. by apply mapM_Ok_length in E as HP.
Qed.

Lemma PageDefn_BrainDefn_toObj_shape_witness :
  ∃ P, mapM PageDefn_toObj (pages {| pages := [] |}) = Ok P
       ∧ length P = 0%nat.
Proof.
  destruct (proj2 PageDefn_BrainDefn_toObj_shape {| pages := [] |}
              (JObj [("P", JArr [])]) eq_refl) as (P & HP & Hlen & _).
  exists P. split; [exact HP | exact Hlen].
Defined.

(** ** Decoding input without a usable [P], [R] or entry *)

Section DecodeEdges.
Variable JSON_parse : string → Result JsVal.

(** X8. [BrainDefn.FromObj] falls back to a new brain of 5 empty pages,
    without raising, whenever its input (after parsing, if it is a string)
    is falsy, or holds under [P] anything but an array, or holds nothing
    there. *)
Theorem BrainDefn_FromObj_fallback (input obj : JsVal) :
  parse_if_string JSON_parse input = Ok obj →
  (truthy obj = false
   ∨ ∃ p, get_field obj kP = Ok p ∧ Array_isArray p = false) →
  BrainDefn_FromObj JSON_parse input = Ok BrainDefn_new.
Proof.
  intros Hparse H. unfold BrainDefn_FromObj. rewrite Hparse. cbn.
  destruct (truthy obj) eqn:Ht; [|done].
  destruct H as [?|(p & Hp & Harr)]; [done|].
  rewrite Hp. cbn. destruct (truthy p); [|done]. by destruct p.
Qed.

Lemma mapM_raises {A B} (f : A → Result B) (l : list A) (x : A) (e0 : JsError) :
  x ∈ l → f x = Throw e0 → ∃ e, mapM f l = Throw e.
Proof.
  intros Hin Hx. induction Hin as [x l|x y l _ IH]; rewrite mapM_cons.
  - rewrite Hx. by eexists.
  - destruct (f y); [|by eexists].
    destruct (IH Hx) as [e ->]. by eexists.
Qed.

Lemma FromObj_nullish (v : JsVal) :
  v = JNull ∨ v = JUndefined →
  RuleDefn_FromObj JSON_parse v = Throw TypeError
  ∧ PageDefn_FromObj JSON_parse v = Throw TypeError.
Proof. by intros [-> | ->]. Qed.

(** X9. [RuleDefn.FromObj] and [PageDefn.FromObj] raise a [TypeError] on
    [null] and on [undefined]. Hence a page record whose [R] array holds
    such an entry, and a brain record whose [P] array holds one, is not
    decoded at all: the call raises. *)
Theorem FromObj_null_entry :
  (∀ v, v = JNull ∨ v = JUndefined →
     RuleDefn_FromObj JSON_parse v = Throw TypeError
     ∧ PageDefn_FromObj JSON_parse v = Throw TypeError) ∧
  (∀ o rs v, field o kR = Some (JArr rs) → v ∈ rs → v = JNull ∨ v = JUndefined →
     ∃ e, PageDefn_FromObj JSON_parse (JObj o) = Throw e) ∧
  (∀ o ps v, field o kP = Some (JArr ps) → v ∈ ps → v = JNull ∨ v = JUndefined →
     ∃ e, BrainDefn_FromObj JSON_parse (JObj o) = Throw e).
Proof.
  split; [exact FromObj_nullish|]. split.
  - intros o rs v HR Hin Hv. rewrite PageDefn_FromObj_record, HR.
    destruct (mapM_raises (RuleDefn_FromObj JSON_parse) rs v TypeError Hin)
      as [e ->]; [by apply FromObj_nullish|]. by eexists.
  - intros o ps v HP Hin Hv.
    rewrite (BrainDefn_FromObj_array JSON_parse (JObj o) (JObj o) ps eq_refl).
    + destruct (mapM_raises (PageDefn_FromObj JSON_parse) ps v TypeError Hin)
        as [e ->]; [by apply FromObj_nullish|]. by eexists.
    + unfold field in HP. unfold get_field. by rewrite HP.
Qed.

(** ** Decoding identifiers *)

Lemma read_condition_fields d v :
  condition (read_condition d v)
  = match v with JStr c => c | _ => condition d end
  ∧ sensor (read_condition d v) = sensor d
  ∧ filters (read_condition d v) = filters d
  ∧ actuator (read_condition d v) = actuator d
  ∧ modifiers (read_condition d v) = modifiers d.
Proof. by destruct v. Qed.

Lemma read_sensor_fields d v :
  condition (read_sensor d v) = condition d
  ∧ sensor (read_sensor d v)
    = match v with JStr _ => lookup_tile (db_sensors tiles) v | _ => sensor d end
  ∧ filters (read_sensor d v) = filters d
  ∧ actuator (read_sensor d v) = actuator d
  ∧ modifiers (read_sensor d v) = modifiers d.
Proof. by destruct v. Qed.

Lemma read_actuator_fields d v :
  condition (read_actuator d v) = condition d
  ∧ sensor (read_actuator d v) = sensor d
  ∧ filters (read_actuator d v) = filters d
  ∧ actuator (read_actuator d v)
    = match v with JStr _ => lookup_tile (db_actuators tiles) v | _ => actuator d end
  ∧ modifiers (read_actuator d v) = modifiers d.
Proof. by destruct v. Qed.

Lemma read_filters_fields d v :
  condition (read_filters d v) = condition d
  ∧ sensor (read_filters d v) = sensor d
  ∧ filters (read_filters d v)
    = match v with
      | JArr ids => lookup_tile (db_filters tiles) <$> ids
      | _ => filters d
      end
  ∧ actuator (read_filters d v) = actuator d
  ∧ modifiers (read_filters d v) = modifiers d.
Proof. by destruct v. Qed.

Lemma read_modifiers_fields d v :
  condition (read_modifiers d v) = condition d
  ∧ sensor (read_modifiers d v) = sensor d
  ∧ filters (read_modifiers d v) = filters d
  ∧ actuator (read_modifiers d v) = actuator d
  ∧ modifiers (read_modifiers d v)
    = match v with
      | JArr ids => lookup_tile (db_modifiers tiles) <$> ids
      | _ => modifiers d
      end.
Proof. by destruct v. Qed.

(** The five fields of the rule the decoder builds from the five values it
    reads. *)
Lemma decoded_fields (c s a f m : JsVal) :
  let r := read_modifiers
             (read_filters
                (read_actuator (read_sensor (read_condition RuleDefn_new c) s) a) f) m in
  condition r = match c with JStr c => c | _ => RuleCondition.DEFAULT end
  ∧ sensor r = match s with JStr _ => lookup_tile (db_sensors tiles) s | _ => None end
  ∧ filters r
    = match f with JArr ids => lookup_tile (db_filters tiles) <$> ids | _ => [] end
  ∧ actuator r
    = match a with JStr _ => lookup_tile (db_actuators tiles) a | _ => None end
  ∧ modifiers r
    = match m with JArr ids => lookup_tile (db_modifiers tiles) <$> ids | _ => [] end.
Proof.
  cbv zeta.
  destruct (read_modifiers_fields
              (read_filters
                 (read_actuator (read_sensor (read_condition RuleDefn_new c) s) a) f) m)
    as (-> & -> & -> & -> & ->).
  destruct (read_filters_fields
              (read_actuator (read_sensor (read_condition RuleDefn_new c) s) a) f)
    as (-> & -> & -> & -> & ->).
  destruct (read_actuator_fields (read_sensor (read_condition RuleDefn_new c) s) a)
    as (-> & -> & -> & -> & ->).
  destruct (read_sensor_fields (read_condition RuleDefn_new c) s)
    as (-> & -> & -> & -> & ->).
  destruct (read_condition_fields RuleDefn_new c) as (-> & -> & -> & -> & ->).
  done.
Qed.

Lemma RuleDefn_FromObj_record_fields (o : list (string * JsVal)) :
  ∃ r, RuleDefn_FromObj JSON_parse (JObj o) = Ok r
  ∧ condition r
    = match field o kC with Some (JStr c) => c | _ => RuleCondition.DEFAULT end
  ∧ sensor r
    = match field o kS with
      | Some (JStr id) => lookup_tile (db_sensors tiles) (JStr id)
      | _ => None
      end
  ∧ filters r
    = match field o kF with
      | Some (JArr ids) => lookup_tile (db_filters tiles) <$> ids
      | _ => []
      end
  ∧ actuator r
    = match field o kA with
      | Some (JStr id) => lookup_tile (db_actuators tiles) (JStr id)
      | _ => None
      end
  ∧ modifiers r
    = match field o kM with
      | Some (JArr ids) => lookup_tile (db_modifiers tiles) <$> ids
      | _ => []
      end.
Proof.
  eexists. split; [apply RuleDefn_FromObj_record|]. cbv zeta.
  destruct (decoded_fields (default JUndefined (field o kC))
              (default JUndefined (field o kS)) (default JUndefined (field o kA))
              (default JUndefined (field o kF)) (default JUndefined (field o kM)))
    as (-> & -> & -> & -> & ->).
  repeat split.
  - by destruct (field o kC) as [[]|].
  - by destruct (field o kS) as [[]|].
  - by destruct (field o kF) as [[]|].
  - by destruct (field o kA) as [[]|].
  - by destruct (field o kM) as [[]|].
Qed.





End DecodeEdges.

Lemma BrainDefn_FromObj_fallback_witness :
  BrainDefn_FromObj rejecting_parse (JObj [("P", JStr "none")]) = Ok BrainDefn_new
  ∧ BrainDefn_FromObj rejecting_parse JNull = Ok BrainDefn_new.
Proof.
  split.
  - apply (BrainDefn_FromObj_fallback rejecting_parse (JObj [("P", JStr "none")])
             (JObj [("P", JStr "none")]) eq_refl).
    right. exists (JStr "none"). split; reflexivity.
  - apply (BrainDefn_FromObj_fallback rejecting_parse JNull JNull eq_refl).
    left. reflexivity.
Defined.


(** A brain file whose list of pages holds [null]. *)
Lemma FromObj_null_entry_witness :
  ∃ e, BrainDefn_FromObj rejecting_parse (JObj [("P", JArr [JObj []; JNull])]) = Throw e.
Proof.
  destruct (FromObj_null_entry rejecting_parse) as (_ & _ & H).
  apply (H [("P", JArr [JObj []; JNull])] [JObj []; JNull] JNull eq_refl).
  - apply list_elem_of_In. right. left. reflexivity.
  - left. reflexivity.
Defined.

(** ** The catalog *)

Lemma catalog_is_filed :
  filed SENSOR (db_sensors tiles) ∧ filed FILTER (db_filters tiles) ∧
  filed ACTUATOR (db_actuators tiles) ∧ filed MODIFIER (db_modifiers tiles).
Proof. repeat split; repeat constructor. Qed.

Lemma filed_obj_get (ty : TileType) (part : list (string * TileDefn)) k t :
  filed ty part → obj_get part k = Some t → tid t = k ∧ type t = ty.
Proof.
  induction 1 as [|[k' t'] part [Htid Hty] _ IH]; simpl; [done|].
  destruct (String.eqb_spec k' k) as [<-|]; [|done]. by intros [= <-].
Qed.

(** Whatever a partition returns for a key is a tile filed under that key,
    so it is found again under its own identifier. *)
Lemma filed_in_partition (ty : TileType) (part : list (string * TileDefn)) k t :
  filed ty part → obj_get part k = Some t → in_partition part t.
Proof.
  intros Hfiled Hk. unfold in_partition.
  destruct (filed_obj_get ty part k t Hfiled Hk) as [-> _]. done.
Qed.

Lemma obj_get_Object_keys {V} (o : list (string * V)) k v :
  obj_get o k = Some v → k ∈ Object_keys o.
Proof.
  induction o as [|[k' v'] o IH]; simpl; [done|].
  destruct (String.eqb_spec k' k) as [<-|].
  - intros _. apply list_elem_of_here.
  - intros H. apply list_elem_of_further. by apply IH.
Qed.

(** In an object whose keys are all different, a read finds exactly the
    entries. *)
Lemma obj_get_elem_of {V} (o : list (string * V)) (k : string) (v : V) :
  NoDup o.*1 → obj_get o k = Some v ↔ (k, v) ∈ o.
Proof.
  induction o as [|[k' v'] o IH]; csimpl.
  - intros _. split; [done|]. by intros ?%elem_of_nil.
  - intros [Hk' Hnd]%NoDup_cons. rewrite elem_of_cons, <- (IH Hnd).
    destruct (String.eqb_spec k' k) as [->|Hne].
    + split; [intros [= ->]; by left|]. intros [[= ->]|Hin]; [done|].
      destruct Hk'. by eapply obj_get_Object_keys.
    + split; [by right|]. intros [[= -> ->]|Hin]; done.
Qed.

Lemma NoDup_fst_functional {V} (o : list (string * V)) (k : string) (v v' : V) :
  NoDup o.*1 → (k, v) ∈ o → (k, v') ∈ o → v = v'.
Proof.
  intros Hnd Hv Hv'. apply (obj_get_elem_of o k _ Hnd) in Hv, Hv'. congruence.
Qed.

(** The literal of [tiles.filters] without its second entry for [F10]. *)
Lemma filters_literal_twice :
  filters_literal
  = take 8 filters_literal ++ (Tid.filter.express_none, filter_express_none)
    :: drop 9 filters_literal
  ∧ (Tid.filter.express_none, filter_express_none) ∈ take 8 filters_literal
  ∧ db_filters tiles = take 8 filters_literal ++ drop 9 filters_literal.
Proof.
  split; [reflexivity|]. split; [|reflexivity].
  apply list_elem_of_In. do 7 right. left. reflexivity.
Qed.

Lemma filters_literal_entries (e : string * TileDefn) :
  e ∈ filters_literal ↔ e ∈ db_filters tiles.
Proof.
  destruct filters_literal_twice as (Hl & Hin & ->). rewrite Hl at 1.
  rewrite !elem_of_app, elem_of_cons. split; [|tauto].
  intros [?|[->|?]]; auto.
Qed.

Lemma catalog_objects_NoDup :
  NoDup (sensors_literal ++ db_filters tiles
         ++ actuators_literal ++ modifiers_literal).*1.
Proof. apply (bool_decide_unpack _). vm_compute. exact I. Qed.

(** An identifier is listed with one tile only, across the four literals. *)
Lemma catalog_entries_functional (id : string) (t t' : TileDefn) :
  (id, t) ∈ catalog_entries → (id, t') ∈ catalog_entries → t = t'.
Proof.
  assert (Hsame : ∀ e, e ∈ catalog_entries →
            e ∈ sensors_literal ++ db_filters tiles
                ++ actuators_literal ++ modifiers_literal).
  { intros e. unfold catalog_entries.
    rewrite !elem_of_app, filters_literal_entries. tauto. }
  intros H%Hsame H'%Hsame.
  exact (NoDup_fst_functional _ id t t' catalog_objects_NoDup H H').
Qed.

Lemma partitions_inv ty lit part :
  (ty, lit, part) ∈ partitions →
  filed ty lit ∧ NoDup part.*1 ∧ (∀ e, e ∈ lit ↔ e ∈ part)
  ∧ (∀ e, e ∈ lit → e ∈ catalog_entries).
Proof.
  assert (Hnd : ∀ l : list (string * TileDefn),
            bool_decide (NoDup l.*1) = true → NoDup l.*1)
    by (intros l; apply bool_decide_eq_true_1).
  unfold partitions, catalog_entries.
  rewrite !elem_of_cons, elem_of_nil.
  intros [[= -> -> ->]|[[= -> -> ->]|[[= -> -> ->]|[[= -> -> ->]|[]]]]].
  - split; [repeat constructor|]. split; [by apply Hnd; vm_compute|].
    split; [done|]. intros e. rewrite !elem_of_app. tauto.
  - split; [repeat constructor|]. split; [by apply Hnd; vm_compute|].
    split; [apply filters_literal_entries|]. intros e. rewrite !elem_of_app. tauto.
  - split; [repeat constructor|]. split; [by apply Hnd; vm_compute|].
    split; [done|]. intros e. rewrite !elem_of_app. tauto.
  - split; [repeat constructor|]. split; [by apply Hnd; vm_compute|].
    split; [done|]. intros e. rewrite !elem_of_app. tauto.
Qed.

(** A catalog read that returns a tile found it among the own entries. *)
Lemma lookup_tile_Tile (part : list (string * TileDefn)) (elem : JsVal) (t : TileDefn) :
  lookup_tile part elem = Some (Tile t) ↔ obj_get part (to_string elem) = Some t.
Proof.
  unfold lookup_tile. destruct (obj_get part (to_string elem)) as [t'|].
  - split; intros [= ->]; done.
  - destruct (inherited (to_string elem)); split; done.
Qed.

(** X11. The catalog is filed consistently. Every entry of the four literals
    sits under its own [tid] and has the tile type of its partition. An
    identifier is never listed with two different tiles, in one literal or
    across literals: [tiles.filters] lists [F10] twice, both times with the
    same tile. So the object a literal evaluates to has exactly the
    literal's entries as its own properties, and a catalog read that
    returns a tile returns the entry that carries the identifier asked
    for, in one partition at most. *)
Theorem catalog_consistent :
  (∀ ty lit part, (ty, lit, part) ∈ partitions → filed ty lit) ∧
  (∀ id t t', (id, t) ∈ catalog_entries → (id, t') ∈ catalog_entries → t = t') ∧
  (∀ ty lit part, (ty, lit, part) ∈ partitions →
     ∀ id t, obj_get part id = Some t ↔ (id, t) ∈ lit) ∧
  (∀ ty lit part ty' lit' part' elem t t',
     (ty, lit, part) ∈ partitions → (ty', lit', part') ∈ partitions →
     lookup_tile part elem = Some (Tile t) →
     lookup_tile part' elem = Some (Tile t') →
     ty = ty' ∧ t = t' ∧ tid t = to_string elem ∧ type t = ty).
Proof.
  split; [intros ty lit part H; by apply partitions_inv in H as (? & _)|].
  split; [exact catalog_entries_functional|].
  assert (Hget : ∀ ty lit part, (ty, lit, part) ∈ partitions →
            ∀ id t, obj_get part id = Some t ↔ (id, t) ∈ lit).
  { intros ty lit part (_ & Hnd & Hsame & _)%partitions_inv id t.
    by rewrite Hsame, (obj_get_elem_of _ _ _ Hnd). }
  split; [exact Hget|].
  intros ty lit part ty' lit' part' elem t t' Hp Hp' Ht Ht'.
  apply lookup_tile_Tile, (Hget _ _ _ Hp) in Ht.
  apply lookup_tile_Tile, (Hget _ _ _ Hp') in Ht'.
  apply partitions_inv in Hp as (Hfiled & _ & _ & Hall).
  apply partitions_inv in Hp' as (Hfiled' & _ & _ & Hall').
  assert (t = t') as <- by
    exact (catalog_entries_functional _ t t' (Hall _ Ht) (Hall' _ Ht')).
  unfold filed in Hfiled, Hfiled'. rewrite Forall_forall in Hfiled, Hfiled'.
  destruct (Hfiled _ Ht) as [Htid Hty], (Hfiled' _ Ht') as [_ Hty'].
  cbn [fst snd] in *. split; [congruence|]. by repeat split.
Qed.

(** ** Decoding, then encoding and decoding again *)

Section DecodeTwice.
Variable JSON_parse : string → Result JsVal.

Lemma lookup_tile_from_catalog (ty : TileType) (part : list (string * TileDefn)) v t :
  filed ty part → lookup_tile part v = Some (Tile t) → in_partition part t.
Proof.
  intros Hfiled Ht%lookup_tile_Tile. by eapply filed_in_partition.
Qed.

Lemma decoded_from_catalog (c s a f m : JsVal) :
  from_catalog
    (read_modifiers
       (read_filters
          (read_actuator (read_sensor (read_condition RuleDefn_new c) s) a) f) m).
Proof.
  destruct catalog_is_filed as (Hs & Hf & Ha & Hm).
  destruct (decoded_fields c s a f m) as (_ & Es & Ef & Ea & Em).
  unfold from_catalog. rewrite Es, Ef, Ea, Em. clear Es Ef Ea Em.
  assert (Hanchor : ∀ ty part v, filed ty part →
            ∀ t, match v with JStr _ => lookup_tile part v | _ => None end
                 = Some (Tile t) → in_partition part t).
  { intros ty part v Hfiled t. destruct v; try done.
    by eapply lookup_tile_from_catalog. }
  assert (Hchain : ∀ ty part v, filed ty part →
            Forall (λ slot, ∀ t, slot = Some (Tile t) → in_partition part t)
              (match v with JArr ids => lookup_tile part <$> ids | _ => [] end)).
  { intros ty part v Hfiled. destruct v; try by constructor.
    apply Forall_fmap, Forall_forall. intros id _ t Ht.
    by eapply lookup_tile_from_catalog. }
  split; [by eapply Hanchor|]. split; [by eapply Hanchor|].
  split; by eapply Hchain.
Qed.

Lemma RuleDefn_FromObj_from_catalog (v : JsVal) (r : RuleDefn) :
  RuleDefn_FromObj JSON_parse v = Ok r → from_catalog r.
Proof.
  unfold RuleDefn_FromObj.
  destruct (parse_if_string JSON_parse v) as [obj|]; [|done].
  destruct obj as [| | | | | |o]; try done; cbn; intros [= <-];
    first
      [ exact (decoded_from_catalog JUndefined JUndefined JUndefined
                 JUndefined JUndefined)
      | exact (decoded_from_catalog
                 (default JUndefined (field o kC)) (default JUndefined (field o kS))
                 (default JUndefined (field o kA)) (default JUndefined (field o kF))
                 (default JUndefined (field o kM))) ].
Qed.

Lemma mapM_Ok_Forall2 {A B} (f : A → Result B) (l : list A) (ys : list B) :
  mapM f l = Ok ys → Forall2 (λ x y, f x = Ok y) l ys.
Proof.
  revert ys. induction l as [|x l IH]; intros ys.
  - intros [= <-]. constructor.
  - rewrite mapM_cons. destruct (f x) as [y|] eqn:E; [|done].
    destruct (mapM f l) as [k|]; [|done].
    intros [= <-]. constructor; [done|]. by apply IH.
Qed.

Lemma mapM_Ok_Forall_result {A B} (f : A → Result B) (P : B → Prop)
    (l : list A) (ys : list B) :
  (∀ x y, f x = Ok y → P y) → mapM f l = Ok ys → Forall P ys.
Proof.
  intros Hf H%mapM_Ok_Forall2. induction H; constructor; eauto.
Qed.

Lemma PageDefn_FromObj_from_catalog (v : JsVal) (p : PageDefn) :
  PageDefn_FromObj JSON_parse v = Ok p → Forall from_catalog (rules p).
Proof.
  unfold PageDefn_FromObj.
  destruct (parse_if_string JSON_parse v) as [obj|]; [|done]. cbn.
  destruct (get_field obj kR) as [r|]; [|done]. cbn.
  destruct r; try (intros [= <-]; constructor).
  destruct (mapM (RuleDefn_FromObj JSON_parse) a) as [rs|] eqn:E; [|done].
  intros [= <-]. cbn.
  eapply mapM_Ok_Forall_result; [|exact E]. apply RuleDefn_FromObj_from_catalog.
Qed.

Lemma BrainDefn_FromObj_from_catalog (v : JsVal) (b : BrainDefn) :
  BrainDefn_FromObj JSON_parse v = Ok b →
  Forall (λ p, Forall from_catalog (rules p)) (pages b).
Proof.
  unfold BrainDefn_FromObj.
  destruct (parse_if_string JSON_parse v) as [obj|]; [|done]. cbn.
  assert (Hnew : Forall (λ p, Forall from_catalog (rules p)) (pages BrainDefn_new))
    by (repeat constructor).
  destruct (truthy obj); [|by intros [= <-]].
  destruct (get_field obj kP) as [p|]; [|done]. cbn.
  destruct (truthy p); [|by intros [= <-]].
  destruct p; try (by intros [= <-]).
  destruct (mapM (PageDefn_FromObj JSON_parse) a) as [ps|] eqn:E; [|done].
  intros [= <-]. cbn.
  eapply mapM_Ok_Forall_result; [|exact E]. apply PageDefn_FromObj_from_catalog.
Qed.

Lemma whole_from_catalog_rule (r : RuleDefn) :
  from_catalog r → whole_rule r → resolved_rule r ∧ conditioned_rule r.
Proof.
  intros (Hs & Ha & Hf & Hm) (Hts & Htf & Hta & Htm & Hc).
  assert (Hanchor : ∀ part anchor,
            (∀ t, anchor = Some (Tile t) → in_partition part t) →
            tile_or_unset anchor → resolved_anchor part anchor).
  { intros part anchor H1 [-> | [t ->]]; [exact I|]. by apply H1. }
  assert (Hchain : ∀ part chain,
            Forall (λ slot, ∀ t, slot = Some (Tile t) → in_partition part t) chain →
            tiles_throughout chain → resolved_chain part chain).
  { intros part chain H1 H2. unfold resolved_chain, tiles_throughout in *.
    rewrite Forall_forall in H1, H2. apply Forall_forall.
    intros slot Hin. destruct (H2 slot Hin) as [t ->].
    exists t. split; [done|]. by apply (H1 _ Hin). }
  split; [|done]. repeat split; auto.
Qed.

Lemma whole_from_catalog_page (p : PageDefn) :
  Forall from_catalog (rules p) → whole_page p →
  resolved_page p ∧ conditioned_page p.
Proof.
  unfold whole_page, resolved_page, conditioned_page.
  rewrite !Forall_forall. intros H1 H2.
  split; intros r Hin; by apply whole_from_catalog_rule; auto.
Qed.

Lemma BrainDefn_round_trip (b : BrainDefn) :
  resolved_brain b → conditioned_brain b →
  round_trips BrainDefn_toObj (BrainDefn_FromObj JSON_parse) b.
Proof.
  intros Hr Hc.
  destruct (mapM_round_trip PageDefn_toObj (PageDefn_FromObj JSON_parse) (pages b))
    as (P & Henc & Hdec).
  { unfold resolved_brain, conditioned_brain in *.
    rewrite Forall_forall in Hr, Hc. apply Forall_forall. intros p Hin.
    apply PageDefn_round_trip; auto. }
  unfold round_trips, BrainDefn_toObj. rewrite Henc.
  eexists. split; [reflexivity|].
  rewrite (BrainDefn_FromObj_array JSON_parse (JObj [("P", JArr P)])
             (JObj [("P", JArr P)]) P eq_refl eq_refl), Hdec.
  by destruct b.
Qed.

(** An anchor that comes back from its encoding is unset or holds a tile:
    an inherited member has no [tid], so its key is left out. *)
Lemma anchor_back (part : list (string * TileDefn)) (anchor : option TileRef) :
  anchor
  = match keep_truthy (Some (tid_or_undefined anchor)) with
    | Some (JStr id) => lookup_tile part (JStr id)
    | _ => None
    end →
  tile_or_unset anchor.
Proof.
  destruct anchor as [[t|m]|]; [right; by exists t|done|by left].
Qed.

(** A chain that comes back from its encoding holds a tile in every slot:
    for an inherited member the encoder writes [undefined], which names no
    tile and no inherited member. *)
Lemma chain_back (part : list (string * TileDefn)) (held : list TileRef) :
  lookup_tile part JUndefined = None →
  Some <$> held = lookup_tile part <$> (ref_tid <$> held) →
  tiles_throughout (Some <$> held).
Proof.
  intros Hmiss. unfold tiles_throughout.
  induction held as [|[t|m] held IH]; rewrite ?fmap_cons.
  - constructor.
  - intros [= _ H]. constructor; [by exists t | by apply IH].
  - cbn [ref_tid]. rewrite Hmiss. done.
Qed.

(** Only a rule that holds tiles throughout and has a condition comes back
    from its encoding. *)
Lemma round_trip_whole (r : RuleDefn) :
  round_trips RuleDefn_toObj (RuleDefn_FromObj JSON_parse) r → whole_rule r.
Proof.
  intros (obj & Henc & Hdec).
  assert (∃ o, obj = JObj o) as [o ->].
  { unfold RuleDefn_toObj in Henc.
    destruct (mapM tid_of (filters r)); [|done].
    destruct (mapM tid_of (modifiers r)); [|done].
    injection Henc as <-. by eexists. }
  destruct (RuleDefn_toObj_fields r o Henc)
    as (F & M & HF & HM & HC & HS & HA & HFf & HMf).
  destruct (RuleDefn_FromObj_record_fields JSON_parse o)
    as (r' & Hr' & Ec & Es & Ef & Ea & Em).
  rewrite Hdec in Hr'. injection Hr' as <-.
  rewrite HC in Ec. rewrite HS in Es. rewrite HA in Ea.
  rewrite HFf in Ef. rewrite HMf in Em.
  assert (Hchain : ∀ part chain ids,
            lookup_tile part JUndefined = None →
            mapM tid_of chain = Ok ids →
            chain = match keep_nonempty (Some (JArr ids)) with
                    | Some (JArr ids) => lookup_tile part <$> ids
                    | _ => []
                    end →
            tiles_throughout chain).
  { intros part chain ids Hmiss Hids Hback.
    destruct (defined_inv chain) as [held ->].
    { apply Forall_forall. intros [e|] Hin; [by eexists|].
      apply mapM_tid_of_raises in Hin. congruence. }
    rewrite mapM_tid_of in Hids. injection Hids as <-.
    destruct held as [|e held]; [constructor|].
    by apply (chain_back part). }
  split; [exact (anchor_back _ _ Es)|].
  split; [exact (Hchain (db_filters tiles) _ _ eq_refl HF Ef)|].
  split; [exact (anchor_back _ _ Ea)|].
  split; [exact (Hchain (db_modifiers tiles) _ _ eq_refl HM Em)|].
  intros Hblank. rewrite Hblank in Ec. discriminate Ec.
Qed.

(** X12. What the decoder returns survives the codec exactly when it holds
    tiles only and has a condition. A decoded rule is given back by
    encoding and decoding it if and only if each anchor is unset or holds
    a tile, every chain slot holds a tile (none is [undefined], none holds
    an inherited member) and the condition is not the empty string. A
    decoded page or brain all of whose rules are such is given back too. *)
Theorem FromObj_then_round_trip :
  (∀ input r, RuleDefn_FromObj JSON_parse input = Ok r →
     (round_trips RuleDefn_toObj (RuleDefn_FromObj JSON_parse) r ↔ whole_rule r)) ∧
  (∀ input p, PageDefn_FromObj JSON_parse input = Ok p → whole_page p →
     round_trips PageDefn_toObj (PageDefn_FromObj JSON_parse) p) ∧
  (∀ input b, BrainDefn_FromObj JSON_parse input = Ok b → whole_brain b →
     round_trips BrainDefn_toObj (BrainDefn_FromObj JSON_parse) b).
Proof.
  split; [|split].
  - intros input r Hr%RuleDefn_FromObj_from_catalog.
    split; [apply round_trip_whole|]. intros Hw.
    destruct (whole_from_catalog_rule r Hr Hw). by apply RuleDefn_round_trip.
  - intros input p Hp%PageDefn_FromObj_from_catalog Hw.
    destruct (whole_from_catalog_page p Hp Hw). by apply PageDefn_round_trip.
  - intros input b Hb%BrainDefn_FromObj_from_catalog Hw.
    apply BrainDefn_round_trip.
    + unfold whole_brain, resolved_brain in *. rewrite Forall_forall in Hb, Hw.
      apply Forall_forall. intros p Hin.
      by apply whole_from_catalog_page; auto.
    + unfold whole_brain, conditioned_brain in *. rewrite Forall_forall in Hb, Hw.
      apply Forall_forall. intros p Hin.
      by apply whole_from_catalog_page; auto.
Qed.

End DecodeTwice.

(** A record with a misplaced value and an array used as identifier decodes
    to a rule that the codec then reproduces; a record whose sensor names
    an inherited member decodes to a rule that the codec does not
    reproduce. *)
Lemma FromObj_then_round_trip_witness :
  round_trips RuleDefn_toObj (RuleDefn_FromObj rejecting_parse)
    (with_filters (with_condition see_rule RuleCondition.HIGH)
       [Some (Tile filter_kodu)])
  ∧ ¬ round_trips RuleDefn_toObj (RuleDefn_FromObj rejecting_parse)
        (with_sensor RuleDefn_new (Some (Inherited "constructor"))).
Proof.
  split.
  - refine (proj2 (proj1 (FromObj_then_round_trip rejecting_parse)
              (JObj [("C", JStr "RC1"); ("S", JStr "S2"); ("A", JNum 3);
                     ("F", JArr [JArr [JStr "F1"]])])
              _ eq_refl) _).
    split; [right; by eexists|].
    split; [repeat constructor; by eexists|].
    split; [by left|]. split; [constructor | discriminate].
  - intros Hrt.
    apply (proj1 (FromObj_then_round_trip rejecting_parse)
             (JObj [("S", JStr "constructor")]) _ eq_refl) in Hrt.
    destruct Hrt as ([E | [t E]] & _); discriminate E.
Defined.

(* ===================================================================== *)
(** * Further properties of the suggestion engine *)
(* ===================================================================== *)

(** ** Candidates *)

Lemma List_filter_sublist {A} (f : A → bool) (l : list A) :
  sublist (List.filter f l) l.
Proof.
  induction l as [|x l IH]; simpl; [constructor|].
  destruct (f x); by constructor.
Qed.

Lemma StronglySorted_sublist {A} (R : A → A → Prop) (l1 l2 : list A) :
  sublist l1 l2 → StronglySorted R l2 → StronglySorted R l1.
Proof.
  induction 1 as [|x l1 l2 Hsub IH|x l1 l2 Hsub IH]; [done| |].
  - intros [Hs Hx]%StronglySorted_inv. constructor; [by apply IH|].
    apply Forall_forall. intros y Hy.
    rewrite Forall_forall in Hx. apply Hx. by eapply sublist_subseteq.
  - intros [Hs _]%StronglySorted_inv. by apply IH.
Qed.

Lemma getCompatibleSet_sublist (all : list TileDefn) (c : Accum) :
  sublist (getCompatibleSet all c) all.
Proof.
  unfold getCompatibleSet.
  repeat (etrans; [apply List_filter_sublist|]). done.
Qed.

Lemma Object_values_elem_of {V} (o : list (string * V)) (v : V) :
  v ∈ Object_values o ↔ ∃ k, obj_get o k = Some v.
Proof.
  unfold Object_values. rewrite list_elem_of_omap. split.
  - intros (k & _ & Hk). by exists k.
  - intros (k & Hk). exists k. split; [|done]. by eapply obj_get_Object_keys.
Qed.

(** The visible entries of a partition by weight: exactly the entries not
    marked hidden. *)
Lemma visible_entries (ty : TileType) (part : list (string * TileDefn)) (t : TileDefn) :
  filed ty part →
  t ∈ Array_sort by_weight (List.filter not_hidden (Object_values part))
  ↔ in_partition part t ∧ ¬ marked_hidden t.
Proof.
  intros Hfiled.
  rewrite (Array_sort_perm by_weight), list_elem_of_In, filter_In,
    <- list_elem_of_In, Object_values_elem_of, not_hidden_spec.
  split; intros [Hin Hvis]; (split; [|done]).
  - destruct Hin as [k Hk]. by eapply filed_in_partition.
  - by exists (tid t).
Qed.

Lemma catalog_tids_NoDup :
  NoDup (tid <$> getSensorSuggestions RuleDefn_new) ∧
  NoDup (tid <$> getActuatorSuggestions RuleDefn_new) ∧
  NoDup (tid <$> all_filters) ∧ NoDup (tid <$> all_modifiers).
Proof.
  repeat split; apply (bool_decide_unpack _); vm_compute; exact I.
Qed.

Lemma chain_weights_nonzero :
  Forall (λ t, weight t ≠ Some 0) (Object_values (db_filters tiles)) ∧
  Forall (λ t, weight t ≠ Some 0) (Object_values (db_modifiers tiles)).
Proof. split; repeat constructor; discriminate. Qed.

(** X13. [getSensorSuggestions] and [getActuatorSuggestions] return exactly
    the catalog's sensors, resp. actuators, that are not marked hidden:
    none is left out, none is listed twice, and nothing else is listed.
    The rule passed in plays no part. *)
Theorem anchor_suggestions_exact (rule : RuleDefn) (t : TileDefn) :
  (t ∈ getSensorSuggestions rule
   ↔ in_partition (db_sensors tiles) t ∧ ¬ marked_hidden t) ∧
  (t ∈ getActuatorSuggestions rule
   ↔ in_partition (db_actuators tiles) t ∧ ¬ marked_hidden t) ∧
  NoDup (tid <$> getSensorSuggestions rule) ∧
  NoDup (tid <$> getActuatorSuggestions rule).
Proof.
  destruct catalog_is_filed as (Hs & _ & Ha & _).
  destruct catalog_tids_NoDup as (Hns & Hna & _).
  split; [exact (visible_entries SENSOR _ t Hs)|].
  split; [exact (visible_entries ACTUATOR _ t Ha)|].
  split; [exact Hns | exact Hna].
Qed.

Lemma chain_suggestions_within (ty : TileType) (part : list (string * TileDefn))
    (c : Accum) (l : list TileDefn) :
  filed ty part →
  Forall (λ t, weight t ≠ Some 0) (Object_values part) →
  NoDup (tid <$> Array_sort by_weight (List.filter not_hidden (Object_values part))) →
  l = getCompatibleSet
        (Array_sort by_weight (List.filter not_hidden (Object_values part))) c ∨ l = [] →
  sublist l (Array_sort by_weight (List.filter not_hidden (Object_values part)))
  ∧ Forall (λ t, in_partition part t ∧ type t = ty ∧ ¬ marked_hidden t) l
  ∧ NoDup (tid <$> l)
  ∧ Sorted by_declared_weight l.
Proof.
  intros Hfiled Hw Hnd Hl.
  set (all := Array_sort by_weight (List.filter not_hidden (Object_values part))) in *.
  assert (Hsub : sublist l all).
  { destruct Hl as [-> | ->]; [apply getCompatibleSet_sublist | apply sublist_nil_l]. }
  split; [done|]. split; [|split].
  - apply Forall_forall. intros t Ht.
    apply (sublist_subseteq _ _ Hsub), (visible_entries ty part t Hfiled) in Ht
      as [Hin Hvis].
    split; [done|]. split; [|done].
    by destruct (filed_obj_get ty part _ t Hfiled Hin).
  - eapply sublist_NoDup; [exact Hnd|]. by apply (fmap_sublist tid).
  - apply StronglySorted_Sorted. eapply StronglySorted_sublist; [exact Hsub|].
    apply Sorted_StronglySorted.
    { intros x y z. unfold by_declared_weight. lia. }
    apply (visible_by_weight _ Hw).
Qed.

Lemma getFilterSuggestions_cases (rule : RuleDefn) (index : Z) (l : list TileDefn) :
  getFilterSuggestions rule index = Ok l →
  (∃ c, l = getCompatibleSet all_filters c) ∨ l = [].
Proof.
  unfold getFilterSuggestions. cbv zeta.
  destruct (ends_in_terminal _) as [[]|]; cbn; [by intros [= <-]; right| |done].
  destruct (filter_constraints _ _) as [c|]; cbn; [|done].
  intros [= <-]. left. by exists c.
Qed.

Lemma getModifierSuggestions_cases (rule : RuleDefn) (index : Z) (l : list TileDefn) :
  getModifierSuggestions rule index = Ok l →
  (∃ c, l = getCompatibleSet all_modifiers c) ∨ l = [].
Proof.
  unfold getModifierSuggestions. cbv zeta.
  destruct (ends_in_terminal _) as [[]|]; cbn; [by intros [= <-]; right| |done].
  destruct (modifier_constraints _ _) as [c|]; cbn; [|done].
  intros [= <-]. left. by exists c.
Qed.

(** X14. Whatever [getFilterSuggestions] returns is a selection from the
    catalog's visible filters in weight order: every suggested tile is a
    filter of the catalog that is not marked hidden, no identifier is
    suggested twice, the relative order of the candidates is kept and the
    weights are non-decreasing. The same holds of [getModifierSuggestions]
    and the catalog's modifiers. *)
Theorem chain_suggestions_from_catalog (rule : RuleDefn) (index : Z) (l : list TileDefn) :
  (getFilterSuggestions rule index = Ok l →
   sublist l all_filters
   ∧ Forall (λ t, in_partition (db_filters tiles) t ∧ type t = FILTER
                  ∧ ¬ marked_hidden t) l
   ∧ NoDup (tid <$> l)
   ∧ Sorted by_declared_weight l) ∧
  (getModifierSuggestions rule index = Ok l →
   sublist l all_modifiers
   ∧ Forall (λ t, in_partition (db_modifiers tiles) t ∧ type t = MODIFIER
                  ∧ ¬ marked_hidden t) l
   ∧ NoDup (tid <$> l)
   ∧ Sorted by_declared_weight l).
Proof.
  destruct catalog_is_filed as (_ & Hf & _ & Hm).
  destruct chain_weights_nonzero as [Hwf Hwm].
  destruct catalog_tids_NoDup as (_ & _ & Hnf & Hnm).
  split.
  - intros [[c ->] | ->]%getFilterSuggestions_cases.
    + exact (chain_suggestions_within FILTER _ c _ Hf Hwf Hnf (or_introl eq_refl)).
    + exact (chain_suggestions_within FILTER _ mkConstraints _ Hf Hwf Hnf
               (or_intror eq_refl)).
  - intros [[c ->] | ->]%getModifierSuggestions_cases.
    + exact (chain_suggestions_within MODIFIER _ c _ Hm Hwm Hnm (or_introl eq_refl)).
    + exact (chain_suggestions_within MODIFIER _ mkConstraints _ Hm Hwm Hnm
               (or_intror eq_refl)).
Qed.

Lemma chain_suggestions_from_catalog_witness :
  ∃ l, getFilterSuggestions see_rule 0 = Ok l ∧ NoDup (tid <$> l)
       ∧ Sorted by_declared_weight l.
Proof.
  destruct (getFilterSuggestions see_rule 0) as [l|] eqn:E; [|discriminate E].
  exists l. split; [reflexivity|].
  destruct (proj1 (chain_suggestions_from_catalog see_rule 0 l) E)
    as (_ & _ & Hnd & Hs).
  split; [exact Hnd | exact Hs].
Defined.

(** ** What the accumulated constraints say about the sources *)

Lemma listed_elem_of (proj : Constraints → option (list string))
    (sources : list (option Constraints)) (x : string) :
  x ∈ listed proj sources ↔ ∃ src, src ∈ sources ∧ x ∈ entries proj src.
Proof.
  unfold listed. rewrite list_elem_of_In, in_flat_map. split.
  - intros (src & Hsrc & Hx). exists src. by rewrite !list_elem_of_In.
  - intros (src & Hsrc & Hx). exists src. by rewrite <- !list_elem_of_In.
Qed.

Lemma fold_left_orb {A} (P : A → bool) (l : list A) (b : bool) :
  fold_left (λ met x, met || P x) l b = b || existsb P l.
Proof.
  revert b. induction l as [|x l IH]; intros b; simpl.
  - by rewrite orb_false_r.
  - by rewrite IH, orb_assoc.
Qed.

Lemma requires_met_spec (c : Accum) (t : TileDefn) :
  requires_met c t = true ↔
  match requirements t with
  | None => True
  | Some reqs => ∃ req, req ∈ reqs ∧ req ∈ acc_provides c
  end.
Proof.
  unfold requires_met, requirements.
  destruct (constraints t) as [tc|]; [|done].
  destruct (requires tc) as [reqs|]; [|done].
  rewrite fold_left_orb, orb_false_l, existsb_exists. split.
  - intros (req & Hreq & (pro & Hpro & ->%String.eqb_eq)%existsb_exists).
    exists req. by rewrite !list_elem_of_In.
  - intros (req & Hreq & Hpro). exists req. rewrite <- list_elem_of_In.
    split; [done|]. apply existsb_exists. exists req.
    by rewrite String.eqb_refl, <- list_elem_of_In.
Qed.

Lemma not_disallowed_spec (c : Accum) (t : TileDefn) :
  not_disallowed c t = true ↔
  ¬ ((∃ cat, category t = Some cat ∧ cat ∈ categories_of (acc_disallow c))
     ∨ tid t ∈ tiles_of (acc_disallow c)).
Proof.
  pose proof (allowed_spec
                {| acc_provides := []; acc_requires := [];
                   acc_allow := acc_disallow c; acc_disallow := acc_disallow c;
                   acc_handling := ∅ |} t) as H.
  unfold allowed in H. cbn [acc_allow] in H. rewrite <- H.
  unfold not_disallowed.
  destruct (existsb (is_category t) _), (existsb _ (tiles_of _)); simpl;
    split; try done; intros Hn; by destruct Hn.
Qed.

Lemma selected_by_source (projc projt : Constraints → option (list string))
    (sources : list (option Constraints)) (t : TileDefn) :
  (∃ cat, category t = Some cat ∧ cat ∈ listed projc sources)
  ∨ tid t ∈ listed projt sources
  ↔ ∃ src, src ∈ sources
           ∧ ((∃ cat, category t = Some cat ∧ cat ∈ entries projc src)
              ∨ tid t ∈ entries projt src).
Proof.
  split.
  - intros [(cat & Hcat & (src & Hsrc & Hin)%listed_elem_of)
           | (src & Hsrc & Hin)%listed_elem_of];
      exists src; (split; [done|]); [left; by exists cat | by right].
  - intros (src & Hsrc & [(cat & Hcat & Hin) | Hin]).
    + left. exists cat. split; [done|]. apply listed_elem_of. by exists src.
    + right. apply listed_elem_of. by exists src.
Qed.

Lemma needs_met_sources (sources : list (option Constraints)) (t : TileDefn) :
  match requirements t with
  | Some reqs => ∃ req, req ∈ reqs ∧ req ∈ listed provides sources
  | None => True
  end ↔ needs_met sources t.
Proof.
  unfold needs_met. destruct (requirements t) as [reqs|]; [|done]. split.
  - intros (req & Hreq & (src & Hsrc & Hin)%listed_elem_of). by exists req, src.
  - intros (req & src & Hreq & Hsrc & Hin). exists req. split; [done|].
    apply listed_elem_of. by exists src.
Qed.

(** The compatible set of an accumulator merged from [sources], in terms of
    the sources. *)
Lemma getCompatibleSet_sources (all : list TileDefn)
    (sources : list (option Constraints)) (t : TileDefn) :
  t ∈ getCompatibleSet all (fold_left mergeConstraints sources mkConstraints)
  ↔ may_follow all sources t.
Proof.
  destruct (fold_mergeConstraints_fields sources mkConstraints)
    as (Hp & _ & Hat & Hac & Hdt & Hdc & _).
  cbn [mkConstraints acc_provides acc_allow acc_disallow tiles_of categories_of app]
    in Hp, Hat, Hac, Hdt, Hdc.
  rewrite getCompatibleSet_spec, requires_met_spec, allowed_spec, not_disallowed_spec.
  rewrite Hp, Hat, Hac, Hdt, Hdc, needs_met_sources, !selected_by_source.
  unfold may_follow, allows, disallows. split.
  - intros (Hin & Hneeds & Hallow & Hdis). repeat split; try done.
    intros src Hsrc Hd. apply Hdis. by exists src.
  - intros (Hin & Hneeds & Hallow & Hdis). repeat split; try done.
    intros (src & Hsrc & Hd). by apply (Hdis src).
Qed.

(** ** Filter positions *)

Lemma filter_constraints_placed (rule : RuleDefn) (index : Z) (placed : list TileRef) :
  index ≤ Z.of_nat (length (filters rule)) →
  take (Z.to_nat index) (filters rule) = Some <$> placed →
  filter_constraints rule (collect_existing (filters rule) index)
  = Ok (fold_left mergeConstraints (filter_sources rule placed) mkConstraints).
Proof.
  intros Hbound Hplaced. unfold filter_constraints.
  rewrite collect_existing_in_bounds, Hplaced by done.
  rewrite merge_existing_defined, fold_left_constraints. reflexivity.
Qed.

Lemma modifier_constraints_placed (rule : RuleDefn) (index : Z) (placed : list TileRef) :
  index ≤ Z.of_nat (length (modifiers rule)) →
  take (Z.to_nat index) (modifiers rule) = Some <$> placed →
  modifier_constraints rule (collect_existing (modifiers rule) index)
  = Ok (fold_left mergeConstraints (modifier_sources rule placed) mkConstraints).
Proof.
  intros Hbound Hplaced. unfold modifier_constraints.
  rewrite collect_existing_in_bounds, Hplaced by done.
  rewrite merge_existing_defined, fold_left_constraints. reflexivity.
Qed.

(** X15. In front of filter index [index], the accumulated constraints are
    the identity accumulator merged with the sensor's constraints, then
    with those of the filters placed before [index], in placement order;
    the actuator and the modifiers contribute nothing. Each list field
    holds the sources' entries appended in that order, and each handling
    key the value of the last source that writes it. *)
Theorem filter_constraints_order
    (rule : RuleDefn) (index : Z) (placed : list TileRef) :
  index ≤ Z.of_nat (length (filters rule)) →
  take (Z.to_nat index) (filters rule) = Some <$> placed →
  let sources := filter_sources rule placed in
  ∃ c,
    filter_constraints rule (collect_existing (filters rule) index) = Ok c ∧
    c = fold_left mergeConstraints sources mkConstraints ∧
    acc_provides c = listed provides sources ∧
    acc_requires c = listed requires sources ∧
    tiles_of (acc_allow c) = listed allow_tiles sources ∧
    categories_of (acc_allow c) = listed allow_categories sources ∧
    tiles_of (acc_disallow c) = listed disallow_tiles sources ∧
    categories_of (acc_disallow c) = listed disallow_categories sources ∧
    (∀ key, acc_handling c !! key = last_writer key sources).
Proof.
  intros Hbound Hplaced sources.
  eexists. split; [by apply filter_constraints_placed|]. split; [reflexivity|].
  destruct (fold_mergeConstraints_fields sources mkConstraints)
    as (Hp & Hr & Hat & Hac & Hdt & Hdc & Hh).
  split; [exact Hp|]. split; [exact Hr|]. split; [exact Hat|].
  split; [exact Hac|]. split; [exact Hdt|]. split; [exact Hdc|]. exact Hh.
Qed.

(** Sensor [See], filters [Kodu] and [nearby] placed. *)
Lemma filter_constraints_order_witness :
  ∃ c,
    filter_constraints
      (with_filters see_rule [Some (Tile filter_kodu); Some (Tile filter_nearby)])
      (collect_existing [Some (Tile filter_kodu); Some (Tile filter_nearby)] 2) = Ok c ∧
    acc_provides c = ["target"; "target"; "target"] ∧
    categories_of (acc_disallow c) = ["subject"; "direct-subject"] ∧
    tiles_of (acc_disallow c) = [Tid.filter.me; Tid.filter.faraway].
Proof.
  destruct (filter_constraints_order
              (with_filters see_rule [Some (Tile filter_kodu); Some (Tile filter_nearby)]) 2
              [Tile filter_kodu; Tile filter_nearby])
    as (c & Hc & _ & Hp & _ & _ & _ & Hdt & Hdc & _).
  - simpl. lia.
  - reflexivity.
  - exists c. split; [exact Hc|]. split; [exact Hp|]. split; [exact Hdc | exact Hdt].
Defined.

(** X16. Which filters are suggested, in terms of the rule. Let no slot
    before [index] be [undefined], the last of them not terminal. Then a
    tile is suggested at [index] exactly when it is a visible filter of the
    catalog, its requirements (if it lists any) include a capability
    provided by the sensor or a placed filter, the sensor or some placed
    filter allows its category or identifier, and neither the sensor nor
    any placed filter disallows its category or identifier. *)
Theorem getFilterSuggestions_spec
    (rule : RuleDefn) (index : Z) (placed : list TileRef) :
  index ≤ Z.of_nat (length (filters rule)) →
  take (Z.to_nat index) (filters rule) = Some <$> placed →
  ends_in_terminal (Some <$> placed) = Ok false →
  ∃ l, getFilterSuggestions rule index = Ok l ∧
       ∀ t, t ∈ l ↔ may_follow all_filters (filter_sources rule placed) t.
Proof.
  intros Hbound Hplaced Hterm.
  exists (getCompatibleSet all_filters
            (fold_left mergeConstraints (filter_sources rule placed) mkConstraints)).
  split; [|intros t; apply getCompatibleSet_sources].
  unfold getFilterSuggestions. cbv zeta.
  rewrite (filter_constraints_placed rule index placed Hbound Hplaced).
  rewrite collect_existing_in_bounds, Hplaced, Hterm by done. reflexivity.
Qed.

(** After [See] and [Kodu], [Tree] is not suggested: [Kodu] disallows the
    category [subject]. *)
Lemma getFilterSuggestions_spec_witness :
  ∃ l, getFilterSuggestions (with_filters see_rule [Some (Tile filter_kodu)]) 1 = Ok l
       ∧ filter_tree ∉ l.
Proof.
  destruct (getFilterSuggestions_spec (with_filters see_rule [Some (Tile filter_kodu)]) 1
              [Tile filter_kodu]) as (l & Hl & Hspec).
  - simpl. lia.
  - reflexivity.
  - reflexivity.
  - exists l. split; [exact Hl|].
    intros (_ & _ & _ & Hno)%Hspec.
    apply (Hno (constraints filter_kodu)).
    + apply list_elem_of_In. right. left. reflexivity.
    + left. exists "subject". split; [reflexivity|].
      apply list_elem_of_In. left. reflexivity.
Defined.

(** X17. Which modifiers are suggested, in terms of the rule. Let no slot
    before [index] be [undefined], the last of them not terminal. Then a
    tile is suggested at [index] exactly when it is a
    visible modifier of the catalog, its requirements (if it lists any)
    include a capability provided by the actuator, the sensor or a placed
    modifier, one of these allows its category or identifier, and none of
    them disallows its category or identifier. *)
Theorem getModifierSuggestions_spec
    (rule : RuleDefn) (index : Z) (placed : list TileRef) :
  index ≤ Z.of_nat (length (modifiers rule)) →
  take (Z.to_nat index) (modifiers rule) = Some <$> placed →
  ends_in_terminal (Some <$> placed) = Ok false →
  ∃ l, getModifierSuggestions rule index = Ok l ∧
       ∀ t, t ∈ l ↔ may_follow all_modifiers (modifier_sources rule placed) t.
Proof.
  intros Hbound Hplaced Hterm.
  exists (getCompatibleSet all_modifiers
            (fold_left mergeConstraints (modifier_sources rule placed) mkConstraints)).
  split; [|intros t; apply getCompatibleSet_sources].
  unfold getModifierSuggestions. cbv zeta.
  rewrite (modifier_constraints_placed rule index placed Hbound Hplaced).
  rewrite collect_existing_in_bounds, Hplaced, Hterm by done. reflexivity.
Qed.

(** With sensor [See] and actuator [Move], [toward] needs the [target] the
    sensor provides; once placed it disallows the category [direction]. *)
Lemma getModifierSuggestions_spec_witness :
  ∃ l, getModifierSuggestions chase_rule 2 = Ok l ∧ modifier_away ∉ l.
Proof.
  destruct (getModifierSuggestions_spec chase_rule 2
              [Tile modifier_quickly; Tile modifier_toward]) as (l & Hl & Hspec).
  - simpl. lia.
  - reflexivity.
  - reflexivity.
  - exists l. split; [exact Hl|].
    intros (_ & _ & _ & Hno)%Hspec.
    apply (Hno (constraints modifier_toward)).
    + apply list_elem_of_In. right. right. right. left. reflexivity.
    + left. exists "direction". split; [reflexivity|].
      apply list_elem_of_In. left. reflexivity.
Defined.

(** ** The insertion index *)

Lemma collect_existing_take (chain : list (option TileRef)) (index : Z) :
  collect_existing chain index
  = collect_existing (take (Z.to_nat index) chain) index.
Proof.
  unfold collect_existing. apply map_ext_in. intros i Hi%in_seq.
  unfold array_get. by rewrite lookup_take_lt by lia.
Qed.

(** X18. Suggestions at an index depend on the slots in front of it only.
    Two rules with the same sensor whose filter chains agree on the first
    [index] slots get the same answer from [getFilterSuggestions], whatever
    their later filters, actuators, modifiers and conditions; two rules with
    the same sensor and actuator whose modifier chains agree on the first
    [index] slots get the same answer from [getModifierSuggestions]. *)
Theorem suggestions_depend_on_prefix (r r' : RuleDefn) (index : Z) :
  (sensor r = sensor r' →
   take (Z.to_nat index) (filters r) = take (Z.to_nat index) (filters r') →
   getFilterSuggestions r index = getFilterSuggestions r' index) ∧
  (sensor r = sensor r' → actuator r = actuator r' →
   take (Z.to_nat index) (modifiers r) = take (Z.to_nat index) (modifiers r') →
   getModifierSuggestions r index = getModifierSuggestions r' index).
Proof.
  unfold getFilterSuggestions, getModifierSuggestions,
    filter_constraints, modifier_constraints.
  split.
  - intros Hs Hf.
    rewrite (collect_existing_take (filters r)),
      (collect_existing_take (filters r')), Hs, Hf. reflexivity.
  - intros Hs Ha Hm.
    rewrite (collect_existing_take (modifiers r)),
      (collect_existing_take (modifiers r')), Hs, Ha, Hm. reflexivity.
Qed.

(** Appending a filter and choosing an actuator does not change what is
    suggested at position 1. *)
Lemma suggestions_depend_on_prefix_witness :
  getFilterSuggestions (with_filters see_rule [Some (Tile filter_kodu)]) 1
  = getFilterSuggestions
      (with_actuator
         (with_filters see_rule [Some (Tile filter_kodu); Some (Tile filter_nearby)])
         (Some (Tile actuator_move))) 1.
Proof.
  exact (proj1 (suggestions_depend_on_prefix
                  (with_filters see_rule [Some (Tile filter_kodu)])
                  (with_actuator
                     (with_filters see_rule [Some (Tile filter_kodu); Some (Tile filter_nearby)])
                     (Some (Tile actuator_move))) 1) eq_refl eq_refl).
Defined.

Lemma merge_existing_raises (c : Accum) (existing : list (option TileRef)) :
  (merge_existing c existing = Throw TypeError ↔ None ∈ existing)
  ∧ merge_existing c existing ≠ Throw SyntaxError.
Proof.
  revert c. induction existing as [|[t|] l IH]; intros c; simpl.
  - split; [|done]. split; [done|]. by intros ?%not_elem_of_nil.
  - destruct (IH (mergeConstraints c (constraints_of t))) as [H H'].
    split; [|done]. rewrite H. split.
    + intros Hin. by apply list_elem_of_further.
    + intros [?|?]%elem_of_cons; done.
  - split; [|done]. split; [|done]. intros _. apply list_elem_of_here.
Qed.

Lemma last_None_elem_of {A} (l : list (option A)) :
  last l = Some None → None ∈ l.
Proof. intros H. by apply last_Some_elem_of in H. Qed.

(** When the call on a chain raises, for either chain. *)
Lemma chain_suggestions_raise (existing : list (option TileRef))
    (constraints : Result Accum) (all : list TileDefn) (c0 : Accum) :
  constraints = merge_existing c0 existing →
  let result :=
    terminal ← ends_in_terminal existing;
    if terminal : bool then Ok []
    else c ← constraints; Ok (getCompatibleSet all c) in
  (result = Throw TypeError ↔
   None ∈ existing
   ∧ ¬ ∃ t, last existing = Some (Some t) ∧ is_terminal t = true)
  ∧ result ≠ Throw SyntaxError.
Proof.
  intros -> result. subst result. unfold ends_in_terminal.
  destruct (merge_existing_raises c0 existing) as [Hm Hm'].
  destruct (last existing) as [[t|]|] eqn:Hlast; cbn.
  - destruct (is_terminal t) eqn:Ht.
    + split; [|done]. split; [done|]. intros [_ []]. by exists t.
    + destruct (merge_existing c0 existing) as [c|[]]; cbn; [| |done].
      * split; [|done]. split; [done|]. intros [?%Hm _]. done.
      * split; [|done]. split; [|done]. intros _. split; [by apply Hm|].
        intros (t' & [= <-] & ?). congruence.
  - split; [|done]. split; [|done]. intros _.
    split; [by apply last_None_elem_of|]. by intros (t & [=] & _).
  - apply last_None in Hlast as ->.
    split; [|done]. split; [done|]. by intros [?%not_elem_of_nil _].
Qed.

(** X19. [getFilterSuggestions] raises a [TypeError] exactly when an
    [undefined] slot is among those collected in front of the index, unless
    the last collected slot holds a terminal tile: then it returns the empty
    sequence without looking at the others. It raises nothing else. The
    same holds of [getModifierSuggestions]. *)
Theorem chain_suggestions_raise_iff (rule : RuleDefn) (index : Z) :
  (let existing := collect_existing (filters rule) index in
   (getFilterSuggestions rule index = Throw TypeError ↔
    None ∈ existing
    ∧ ¬ ∃ t, last existing = Some (Some t) ∧ is_terminal t = true)
   ∧ getFilterSuggestions rule index ≠ Throw SyntaxError) ∧
  (let existing := collect_existing (modifiers rule) index in
   (getModifierSuggestions rule index = Throw TypeError ↔
    None ∈ existing
    ∧ ¬ ∃ t, last existing = Some (Some t) ∧ is_terminal t = true)
   ∧ getModifierSuggestions rule index ≠ Throw SyntaxError).
Proof.
  split; cbv zeta.
  - exact (chain_suggestions_raise _ _ all_filters _ eq_refl).
  - exact (chain_suggestions_raise _ _ all_modifiers _ eq_refl).
Qed.

(** An [undefined] slot in front of a terminal tile goes unnoticed. *)
Lemma chain_suggestions_raise_iff_witness :
  getModifierSuggestions
    (with_modifiers switch_rule [None; Some (Tile modifier_page_1)]) 2 = Ok []
  ∧ getModifierSuggestions
      (with_modifiers switch_rule [None; Some (Tile modifier_quickly)]) 2 = Throw TypeError.
Proof.
  split; [reflexivity|].
  destruct (chain_suggestions_raise_iff
              (with_modifiers switch_rule [None; Some (Tile modifier_quickly)]) 2)
    as [_ [H _]].
  apply H. split.
  - apply list_elem_of_In. left. reflexivity.
  - intros (t & [= <-] & Ht). discriminate Ht.
Defined.

(** X20. With an index of 0 or less nothing is collected from the chain:
    the call does not raise, and the answer is the compatible set of the
    anchors alone (the sensor for filters; the actuator, then the sensor,
    for modifiers), the same for every such index. *)
Theorem suggestions_at_start (rule : RuleDefn) (index : Z) :
  index ≤ 0 →
  getFilterSuggestions rule index
  = Ok (getCompatibleSet all_filters
          (mergeConstraints mkConstraints (anchor_constraints (sensor rule))))
  ∧ getModifierSuggestions rule index
    = Ok (getCompatibleSet all_modifiers
            (mergeConstraints
               (mergeConstraints mkConstraints (anchor_constraints (actuator rule)))
               (anchor_constraints (sensor rule)))).
Proof.
  intros H. unfold getFilterSuggestions, getModifierSuggestions.
  by rewrite !(collect_existing_nonpositive _ index H).
Qed.

Lemma suggestions_at_start_witness :
  names (getModifierSuggestions chase_rule (-3))
  = Ok ["me"; "it"; "quickly"; "slowly"; "toward"; "away"; "avoid";
        "none"; "happy"; "angry"; "heart"; "sad"].
Proof.
  rewrite (proj2 (suggestions_at_start chase_rule (-3) ltac:(lia))).
  vm_compute. reflexivity.
Defined.

(* ===================================================================== *)
(** * Menu layout *)
(* ===================================================================== *)

Example show_sample_menu :
  (λ b, (button_label b, button_x b, button_y b))
    <$> buttons (Menu_show icons16 sample_menu 10 20 MenuRight)
  = [("A", 10, 20); ("B", 26, 20); ("C", 10, 36); ("D", 26, 36); ("E", 10, 52)].
Proof. reflexivity. Qed.

(** With [wrap = 1] the first item never starts a new line: the second
    button lands beside the first, every later one below. *)
Example show_wrap_one :
  (λ b, (button_label b, button_x b, button_y b))
    <$> buttons (Menu_show icons16
                   {| items := items sample_menu; hud := true; wrap := 1;
                      buttons := [] |} 0 0 MenuRight)
  = [("A", 0, 0); ("B", 16, 0); ("C", 0, 16); ("D", 0, 32); ("E", 0, 48)].
Proof. reflexivity. Qed.

Section MenuFacts.
Variable icons_get : string → Image.

(** One round adds one button, at the position it is handed, and moves the
    position on without looking at the buttons. *)
Lemma show_item_button (this : Menu) (direction : MenuDirection) (origX origY : Z)
    (item : MenuItemDefn) (index x y : Z) (bs : list Button) :
  ∃ x' y',
    ∀ bs, show_item icons_get this direction origX origY (x, y, bs) item index
          = (x', y', bs ++ [menu_button this item (x, y)]).
Proof.
  unfold show_item, menu_button.
  destruct direction;
    destruct ((0 <? wrap this) && (0 <? index)
              && (Z.rem (index + 1) (wrap this) =? 0));
    by do 2 eexists.
Qed.

(** The buttons already there do not influence the ones [forEach] adds. *)
Lemma show_items_app (this : Menu) (direction : MenuDirection) (origX origY : Z)
    (todo : list MenuItemDefn) (index x y : Z) (bs : list Button) :
  (show_items icons_get this direction origX origY todo index (x, y, bs)).2
  = bs ++ (show_items icons_get this direction origX origY todo index (x, y, [])).2.
Proof.
  revert index x y bs. induction todo as [|item todo IH]; intros index x y bs.
  - simpl. by rewrite app_nil_r.
  - cbn [show_items].
    destruct (show_item_button this direction origX origY item index x y bs)
      as (x' & y' & Hstep).
    rewrite !Hstep, IH. symmetry. rewrite IH. cbn [app].
    by rewrite <- app_assoc.
Qed.

Lemma show_items_labels (this : Menu) (direction : MenuDirection) (origX origY : Z)
    (todo : list MenuItemDefn) (index x y : Z) :
  let made :=
    (show_items icons_get this direction origX origY todo index (x, y, [])).2 in
  button_icon <$> made = icon <$> todo
  ∧ button_label <$> made = label <$> todo
  ∧ Forall (λ b, button_style b = "white" ∧ button_hud b = hud this) made
  ∧ (∀ b, head made = Some b → button_x b = x ∧ button_y b = y).
Proof.
  cbv zeta. revert index x y. induction todo as [|item todo IH]; intros index x y.
  - by repeat split.
  - cbn [show_items].
    destruct (show_item_button this direction origX origY item index x y [])
      as (x' & y' & Hstep).
    rewrite Hstep, show_items_app. cbn [app].
    destruct (IH (index + 1) x' y') as (Hi & Hl & Hf & _).
    rewrite !fmap_cons, Hi, Hl.
    split; [done|]. split; [done|]. split; [by constructor|].
    by intros b [= <-].
Qed.

(** The round reads the menu's [wrap] and [hud], not its buttons. *)
Lemma show_items_with_buttons (this : Menu) (old : list Button)
    (direction : MenuDirection) (origX origY : Z)
    (todo : list MenuItemDefn) (index : Z) (st : Z * Z * list Button) :
  show_items icons_get (with_buttons this old) direction origX origY todo index st
  = show_items icons_get this direction origX origY todo index st.
Proof.
  revert index st. induction todo as [|item todo IH]; intros index st; [done|].
  cbn [show_items]. rewrite IH. reflexivity.
Qed.

Lemma Menu_show_fresh (this : Menu) (x y : Z) (direction : MenuDirection) :
  Menu_show icons_get this x y direction
  = with_buttons this
      (show_items icons_get this direction x y (items this) 0 (x, y, [])).2.
Proof.
  unfold Menu_show, Menu_isVisible.
  destruct (buttons this) as [|b bs] eqn:E.
  - change (0 <? Z.of_nat (length (@nil Button))) with false.
    cbv iota. by rewrite E.
  - destruct (Z.ltb_spec 0 (Z.of_nat (length (b :: bs)))) as [_|H];
      [|cbn [length] in H; lia].
    unfold Menu_hide. by rewrite show_items_with_buttons.
Qed.

(** X21. [show] puts up one button per item, in the order of the items, each
    with the item's icon and label, the style ["white"] and the menu's
    [hud] flag; the first button is at the position given. Buttons of an
    earlier [show] are replaced, not kept, so showing twice gives what
    showing once gives; the menu is visible afterwards exactly when it has
    items, and never after [hide]. This holds for icons of any size. *)
Theorem Menu_show_buttons (this : Menu) (x y : Z) (direction : MenuDirection) :
  let shown := Menu_show icons_get this x y direction in
  button_icon <$> buttons shown = icon <$> items this
  ∧ button_label <$> buttons shown = label <$> items this
  ∧ Forall (λ b, button_style b = "white" ∧ button_hud b = hud this) (buttons shown)
  ∧ (∀ b, head (buttons shown) = Some b → button_x b = x ∧ button_y b = y)
  ∧ Menu_show icons_get shown x y direction = shown
  ∧ (Menu_isVisible shown = true ↔ items this ≠ [])
  ∧ Menu_isVisible (Menu_hide shown) = false.
Proof.
  cbv zeta.
  destruct (show_items_labels this direction x y (items this) 0 x y)
    as (Hi & Hl & Hf & Hh).
  rewrite !Menu_show_fresh. cbn [with_buttons buttons items].
  rewrite show_items_with_buttons.
  split; [exact Hi|]. split; [exact Hl|]. split; [exact Hf|]. split; [exact Hh|].
  split; [reflexivity|]. split; [|reflexivity].
  unfold Menu_isVisible. cbn [buttons with_buttons].
  apply (f_equal length) in Hi. rewrite !length_fmap in Hi. rewrite Hi.
  destruct (items this); cbn; [done|].
  split; [done|]. intros _. apply Z.ltb_lt. lia.
Qed.

(** ** The grid *)

Lemma menu_cell_succ (w k : Z) :
  w ≠ 1 → 0 ≤ k →
  menu_cell w (k + 1)
  = if (0 <? w) && (0 <? k) && (Z.rem (k + 1) w =? 0)
    then (0, (menu_cell w k).2 + 1)
    else ((menu_cell w k).1 + 1, (menu_cell w k).2).
Proof.
  intros Hw Hk. unfold menu_cell.
  destruct (Z.ltb_spec 0 w) as [Hpos|Hneg]; [|done]. cbn [andb fst snd].
  rewrite Z.rem_mod_nonneg by lia.
  assert (Hdiv : k = w * (k / w) + k mod w) by (apply Z.div_mod; lia).
  assert (Hmod : 0 ≤ k mod w < w) by (apply Z.mod_pos_bound; lia).
  destruct (Z.eqb_spec ((k + 1) mod w) 0) as [Hz|Hnz].
  - assert (Hk1 : k mod w = w - 1).
    { assert (H1 : (k + 1) mod w = (k mod w + 1) mod w)
        by (rewrite Z.add_mod_idemp_l by lia; done).
      destruct (Z.eq_dec (k mod w) (w - 1)) as [|Hne]; [done|].
      rewrite (Z.mod_small (k mod w + 1) w) in H1 by lia. lia. }
    destruct (Z.ltb_spec 0 k) as [_|Hk0].
    2: { replace k with 0 in Hk1 by lia. rewrite Z.mod_0_l in Hk1 by lia. lia. }
    cbn [andb].
    f_equal; [done|].
    symmetry. apply (Z.div_unique_pos (k + 1) w (k / w + 1) 0); lia.
  - rewrite andb_false_r.
    assert (Hk1 : k mod w ≠ w - 1).
    { intros E. apply Hnz.
      replace (k + 1) with (0 + (k / w + 1) * w) by lia.
      by rewrite Z.mod_add by lia. }
    f_equal.
    + symmetry. apply (Z.mod_unique_pos (k + 1) w (k / w) (k mod w + 1)); lia.
    + symmetry. apply (Z.div_unique_pos (k + 1) w (k / w) (k mod w + 1)); lia.
Qed.

Lemma show_item_grid (this : Menu) (direction : MenuDirection) (img : Image)
    (x y k : Z) (item : MenuItemDefn) (bs : list Button) :
  wrap this ≠ 1 → 0 ≤ k → icons_get (icon item) = img →
  show_item icons_get this direction x y
    (menu_position direction img x y (wrap this) k, bs) item k
  = (menu_position direction img x y (wrap this) (k + 1),
     bs ++ [menu_button this item (menu_position direction img x y (wrap this) k)]).
Proof.
  intros Hw Hk Himg. unfold show_item, menu_position, menu_button.
  rewrite (menu_cell_succ _ _ Hw Hk), Himg.
  destruct (menu_cell (wrap this) k) as [along line]. cbn [fst snd].
  destruct direction;
    destruct ((0 <? wrap this) && (0 <? k) && (Z.rem (k + 1) (wrap this) =? 0));
    cbn [fst snd]; f_equal; f_equal; lia.
Qed.

Lemma show_items_grid (this : Menu) (direction : MenuDirection) (img : Image)
    (x y : Z) (todo : list MenuItemDefn) (k : Z) (bs : list Button) :
  wrap this ≠ 1 → 0 ≤ k →
  Forall (λ item, icons_get (icon item) = img) todo →
  (show_items icons_get this direction x y todo k
     (menu_position direction img x y (wrap this) k, bs)).2
  = bs ++ imap (λ i item,
                  menu_button this item
                    (menu_position direction img x y (wrap this) (k + Z.of_nat i)))
            todo.
Proof.
  intros Hw Hk Himg. revert k bs Hk.
  induction Himg as [|item todo Hitem _ IH]; intros k bs Hk.
  - simpl. by rewrite app_nil_r.
  - cbn [show_items]. rewrite (show_item_grid _ _ img) by done.
    rewrite IH by lia. rewrite <- app_assoc. cbn [app imap]. f_equal.
    rewrite Z.add_0_r. f_equal. apply imap_ext. intros i it _. cbn.
    do 2 f_equal. lia.
Qed.

(** X22. When all the menu's icons have one size and [wrap] is not 1, the
    buttons form a grid. Item [i] is put [i mod wrap] steps along the
    direction of the menu and [i / wrap] lines across it (for [wrap] of 0
    or less: [i] steps along, on one line): to the right and then down for
    ["right"], up and then to the left for ["up"], down and then to the
    right for ["down"], a step being the icon's width or height. *)
Theorem Menu_show_grid (this : Menu) (x y : Z) (direction : MenuDirection)
    (img : Image) :
  wrap this ≠ 1 →
  Forall (λ item, icons_get (icon item) = img) (items this) →
  buttons (Menu_show icons_get this x y direction)
  = imap (λ i item,
            menu_button this item
              (menu_position direction img x y (wrap this) (Z.of_nat i)))
      (items this).
Proof.
  intros Hw Himg. rewrite Menu_show_fresh. cbn [with_buttons buttons].
  assert (Hstart : (x, y) = menu_position direction img x y (wrap this) 0).
  { unfold menu_position, menu_cell.
    rewrite Zmod_0_l, Zdiv_0_l.
    destruct (0 <? wrap this), direction; f_equal; lia. }
  pose proof (show_items_grid this direction img x y (items this) 0 []
                Hw (Z.le_refl 0) Himg) as Hgrid.
  rewrite <- Hstart in Hgrid. exact Hgrid.
Qed.

End MenuFacts.

(** Five icons of 16 by 16 pixels, two to a line, going up from (100, 100). *)
Lemma Menu_show_grid_witness :
  (λ b, (button_x b, button_y b))
    <$> buttons (Menu_show icons16 sample_menu 100 100 MenuUp)
  = [(100, 100); (100, 84); (84, 100); (84, 84); (68, 100)].
Proof.
  rewrite (Menu_show_grid icons16 sample_menu 100 100 MenuUp
             {| width := 16; height := 16 |}).
  - reflexivity.
  - discriminate.
  - repeat constructor.
Defined.


(** ** Stages *)

Lemma without_spec (comp c : nat) (cs : list nat) :
  c ∈ without comp cs ↔ c ∈ cs ∧ c ≠ comp.
Proof.
  unfold without. rewrite !list_elem_of_In, filter_In, negb_true_iff, Nat.eqb_neq.
  reflexivity.
Qed.

Lemma without_absent (comp : nat) (cs : list nat) :
  comp ∉ cs → without comp cs = cs.
Proof.
  unfold without. induction cs as [|c cs IH]; [done|].
  rewrite not_elem_of_cons. intros [Hne Hcs]. cbn [List.filter].
  destruct (Nat.eqb_spec c comp) as [->|_]; [done|].
  cbn [negb]. by rewrite IH.
Qed.

Lemma without_pushed (comp : nat) (cs : list nat) :
  without comp (without comp cs ++ [comp]) = without comp cs.
Proof.
  unfold without at 1. rewrite List.filter_app. fold (without comp (without comp cs)).
  rewrite without_absent by (rewrite without_spec; tauto).
  cbn [List.filter]. rewrite Nat.eqb_refl. cbn [negb]. by rewrite app_nil_r.
Qed.

Lemma without_keeps_NoDup (comp : nat) (cs : list nat) :
  NoDup cs → NoDup (without comp cs).
Proof.
  rewrite !NoDup_ListNoDup. unfold without. apply List.NoDup_filter.
Qed.

Lemma without_NoDup (comp : nat) (cs : list nat) :
  NoDup cs → NoDup (without comp cs ++ [comp]).
Proof.
  intros Hcs. apply NoDup_app.
  split; [by apply without_keeps_NoDup|].
  split; [|apply NoDup_singleton].
  intros c Hc. rewrite without_spec in Hc. rewrite list_elem_of_singleton. tauto.
Qed.

Lemma Stage_remove_Some (this comp : nat) (w : World) (cs : list nat) :
  components w !! this = Some cs →
  Stage_remove this comp w
  = Ok {| components := <[this := without comp cs]> (components w);
          stage_of := delete comp (stage_of w) |}.
Proof. intros H. unfold Stage_remove. by rewrite H. Qed.

Lemma Stage_add_Some (this comp : nat) (w : World) (cs : list nat) :
  components w !! this = Some cs →
  Stage_add this comp w
  = Ok {| components := <[this := without comp cs ++ [comp]]> (components w);
          stage_of := <[comp := this]> (stage_of w) |}.
Proof.
  intros H. unfold Stage_add. rewrite H, (Stage_remove_Some _ _ _ _ H).
  cbn. rewrite lookup_insert_eq, insert_insert_eq, insert_delete_eq. reflexivity.
Qed.

Lemma Stage_remove_tidy (this comp : nat) (w w' : World) :
  tidy w → Stage_remove this comp w = Ok w' → tidy w'.
Proof.
  intros [Hdup Hin] Hrun. destruct (components w !! this) as [cs|] eqn:Hcs.
  2: { unfold Stage_remove in Hrun. by rewrite Hcs in Hrun. }
  rewrite (Stage_remove_Some _ _ _ _ Hcs) in Hrun. injection Hrun as <-.
  split; cbn [components stage_of].
  - apply map_Forall_insert_2; [|done].
    apply without_keeps_NoDup. exact (Hdup _ _ Hcs).
  - intros c s Hc cs'. apply lookup_delete_Some in Hc as [Hne Hc].
    destruct (decide (s = this)) as [->|Hs].
    + rewrite lookup_insert_eq. intros [= <-]. apply without_spec.
      split; [exact (Hin _ _ Hc _ Hcs)|congruence].
    + rewrite lookup_insert_ne by done. exact (Hin _ _ Hc cs').
Qed.

Lemma Stage_add_tidy (this comp : nat) (w w' : World) :
  tidy w → Stage_add this comp w = Ok w' → tidy w'.
Proof.
  intros [Hdup Hin] Hrun. destruct (components w !! this) as [cs|] eqn:Hcs.
  2: { unfold Stage_add in Hrun. by rewrite Hcs in Hrun. }
  rewrite (Stage_add_Some _ _ _ _ Hcs) in Hrun. injection Hrun as <-.
  split; cbn [components stage_of].
  - apply map_Forall_insert_2; [|done].
    apply without_NoDup. exact (Hdup _ _ Hcs).
  - intros c s Hc cs'. apply lookup_insert_Some in Hc as [[<- <-]|[Hne Hc]].
    + rewrite lookup_insert_eq. intros [= <-].
      apply elem_of_app. right. by apply list_elem_of_singleton.
    + destruct (decide (s = this)) as [->|Hs].
      * rewrite lookup_insert_eq. intros [= <-]. apply elem_of_app. left.
        apply without_spec. split; [exact (Hin _ _ Hc _ Hcs)|congruence].
      * rewrite lookup_insert_ne by done. exact (Hin _ _ Hc cs').
Qed.


(** X23. [remove] raises a [TypeError] exactly on a stage that has no
    components array (before [initScene], after [shutdownScene]). Otherwise
    it returns: the component is no longer listed on the stage, the other
    components of the stage are listed as before and in their order, and the
    component's [stage] field is null, whichever stage it pointed to. The
    arrays of the other stages and the [stage] fields of the other
    components are as they were, so a component removed through a stage it
    is not on stays listed on its own stage, with a null [stage] field.
    Removing it once more changes nothing. *)
Theorem Stage_remove_spec (this comp : nat) (w : World) :
  (Stage_remove this comp w = Throw TypeError ↔ components w !! this = None)
  ∧ (∀ cs, components w !! this = Some cs →
     ∃ w', Stage_remove this comp w = Ok w'
       ∧ components w' !! this = Some (without comp cs)
       ∧ (comp ∉ without comp cs)
       ∧ (comp ∉ cs → components w' !! this = Some cs)
       ∧ stage_of w' !! comp = None
       ∧ (∀ s, s ≠ this → components w' !! s = components w !! s)
       ∧ (∀ c, c ≠ comp → stage_of w' !! c = stage_of w !! c)
       ∧ Stage_remove this comp w' = Ok w').
Proof.
  split.
  - unfold Stage_remove. destruct (components w !! this); by split.
  - intros cs Hcs. eexists. split; [exact (Stage_remove_Some _ _ _ _ Hcs)|].
    cbn [components stage_of].
    assert (Hout : comp ∉ without comp cs) by (rewrite without_spec; tauto).
    split; [apply lookup_insert_eq|]. split; [exact Hout|].
    split; [intros Hno; by rewrite lookup_insert_eq, without_absent|].
    split; [apply lookup_delete_eq|].
    split; [intros s Hs; by rewrite lookup_insert_ne|].
    split; [intros c Hc; by rewrite lookup_delete_ne|].
    rewrite (Stage_remove_Some _ _ _ (without comp cs)) by apply lookup_insert_eq.
    cbn [components stage_of].
    by rewrite insert_insert_eq, (without_absent _ _ Hout), delete_delete_eq.
Qed.

(** X24. [add] raises a [TypeError] exactly on a stage that has no components
    array. Otherwise it returns: the component is listed last on the stage
    and nowhere else in the stage's array, the stage's other components come
    before it as they were and in their order, and the component's [stage]
    field points to the stage. The arrays of the other stages are as they
    were: [add] does not take the component off a stage it was on before.
    Adding a component twice gives what adding it once gives, and removing
    it after adding it gives what removing it straight away gives. *)
Theorem Stage_add_spec (this comp : nat) (w : World) :
  (Stage_add this comp w = Throw TypeError ↔ components w !! this = None)
  ∧ (∀ cs, components w !! this = Some cs →
     ∃ w', Stage_add this comp w = Ok w'
       ∧ components w' !! this = Some (without comp cs ++ [comp])
       ∧ (comp ∉ without comp cs)
       ∧ (comp ∉ cs → components w' !! this = Some (cs ++ [comp]))
       ∧ stage_of w' !! comp = Some this
       ∧ (∀ s, s ≠ this → components w' !! s = components w !! s)
       ∧ (∀ c, c ≠ comp → stage_of w' !! c = stage_of w !! c)
       ∧ Stage_add this comp w' = Ok w'
       ∧ Stage_remove this comp w' = Stage_remove this comp w).
Proof.
  split.
  - destruct (components w !! this) as [cs|] eqn:Hcs.
    + by rewrite (Stage_add_Some _ _ _ _ Hcs).
    + unfold Stage_add. by rewrite Hcs.
  - intros cs Hcs. eexists. split; [exact (Stage_add_Some _ _ _ _ Hcs)|].
    cbn [components stage_of].
    assert (Hout : comp ∉ without comp cs) by (rewrite without_spec; tauto).
    split; [apply lookup_insert_eq|]. split; [exact Hout|].
    split; [intros Hno; by rewrite lookup_insert_eq, without_absent|].
    split; [apply lookup_insert_eq|].
    split; [intros s Hs; by rewrite lookup_insert_ne|].
    split; [intros c Hc; by rewrite lookup_insert_ne|].
    split.
    + rewrite (Stage_add_Some _ _ _ (without comp cs ++ [comp]))
        by apply lookup_insert_eq.
      cbn [components stage_of].
      by rewrite without_pushed, !insert_insert_eq.
    + rewrite (Stage_remove_Some _ _ _ (without comp cs ++ [comp]))
        by apply lookup_insert_eq.
      rewrite (Stage_remove_Some _ _ _ _ Hcs). cbn [components stage_of].
      by rewrite without_pushed, insert_insert_eq, delete_insert_eq.
Qed.

Lemma Stage_call_tidy (c : StageCall) (w w' : World) :
  tidy w → Stage_call c w = Ok w' → tidy w'.
Proof.
  destruct c; cbn [Stage_call];
    [apply Stage_add_tidy | apply Stage_remove_tidy].
Qed.

(** X25. Whatever calls of [add] and [remove] are made, on whichever stages: if
    beforehand no components array lists a component twice and every
    component whose [stage] field points to a stage with an array is listed
    in that array, then the same holds when the calls have returned. *)
Theorem Stage_calls_tidy (calls : list StageCall) (w w' : World) :
  tidy w → Stage_calls calls w = Ok w' → tidy w'.
Proof.
  revert w. induction calls as [|c calls IH]; intros w Hw Hrun.
  - by injection Hrun as <-.
  - cbn [Stage_calls] in Hrun.
    destruct (Stage_call c w) as [w1|e] eqn:Hc; [|done].
    exact (IH w1 (Stage_call_tidy c w w1 Hw Hc) Hrun).
Qed.

(** Component 7 is added to stage 0 and then to stage 1: both arrays list it
    and its [stage] field points to stage 1. *)
Lemma Stage_calls_tidy_witness :
  ∃ w', Stage_calls [CallAdd 0 7; CallAdd 0 8; CallAdd 1 7; CallRemove 0 8]
          two_stages = Ok w'
        ∧ tidy w'
        ∧ components w' !! 0%nat = Some [7%nat]
        ∧ components w' !! 1%nat = Some [7%nat]
        ∧ stage_of w' !! 7%nat = Some 1%nat.
Proof.
  eexists. split; [reflexivity|]. split; [|by vm_compute].
  apply (Stage_calls_tidy
           [CallAdd 0 7; CallAdd 0 8; CallAdd 1 7; CallRemove 0 8] two_stages);
    [|reflexivity].
  split; [|apply map_Forall_empty].
  apply map_Forall_insert_2; [constructor|].
  apply map_Forall_singleton. constructor.
Defined.
